(** * welltestpy.tools.triangulate: reconstruction of well positions from
      pairwise distances

    A shallow embedding of [src/welltestpy/tools/triangulate.py] and the
    properties of it that the specification states.

    Modelling conventions.

    - Numbers.  The source computes with IEEE doubles (numpy); the model
      computes with exact reals, and with nan where the source divides by
      zero.  That happens in [tranmat] ([A /= dist(a, b)] with coinciding
      points, 0/0 in every entry): numpy fills [A] and [s] with nan, warns
      and goes on, and so does the model.  Whatever is computed from nan is
      nan, and every comparison with nan is False.  The quotients by [2*c]
      of [xvalue] and [yvalue] are evaluated by [pntcoord] with the same
      [c = dist(a, b)]: for [c = 0], [yvalue] returns before it divides and
      [x] (inf or nan in the source, some real in the model) only enters
      [g([x, y])], where [g] is the nan map.
    - Slots.  A solution is a Python list with one slot per point: the
      integer [0] ([np.ndim == 0]) while the point is not placed, a numpy
      array of two floats once it is.  In the search a slot is an
      [option point]: the points it holds are finite, because [pntcoord]
      never returns a position that holds nan (lemma
      [pntcoord_stores_no_nan]).  [rotate] can fill a solution with nan; a
      slot of what it returns is an [option rvalue].
    - Matrix.  [distances] is a square numpy array, read as
      [distances[i, j]]; the model is a list of rows.  Every read of the
      source is inside the array when it is square, and so is every read
      and write of a solution in the search; [rotate] reads the slots 0
      and 1 of a solution, an [IndexError] when it has fewer.
    - Output ([print], [verbose]) has no effect on results and is left
      out; [dcopy] is the identity on immutable values. *)

From Stdlib Require Import Reals Lra Lia List Bool Arith ZArith Sorted.
Import ListNotations.
Open Scope R_scope.

(** ** Comparisons of floats, as booleans *)

Definition Rltb (x y : R) : bool := if Rlt_dec x y then true else false.
Definition Rleb (x y : R) : bool := if Rle_dec x y then true else false.
Definition Rgtb (x y : R) : bool := Rltb y x.
Definition Rgeb (x y : R) : bool := Rleb y x.
Definition Reqb (x y : R) : bool := if Req_dec_T x y then true else false.

(** ** Exceptions and the error monad *)

(** What can stop a run of the helper functions. *)
Inductive fault : Type :=
| TypeError          (* a slot holding the int 0 is indexed as a point *)
| IndexError         (* [rot_e[1]] in [rotate], fewer than two slots *)
| UnboundLocalError  (* [state] is read in [addpoint] before any assignment *)
| LinAlgError        (* [np.linalg.inv] of a singular matrix *)
| AmbiguousTruth     (* ValueError: the truth value of an array, [plotres] *)
| NanStored.         (* a nan position put into a solution of the search:
                        outside the model and never reached *)

Inductive exc (A : Type) : Type :=
| Ok (a : A)
| Raise (e : fault).
Arguments Ok {A} a.
Arguments Raise {A} e.

Definition bind {A B : Type} (m : exc A) (k : A -> exc B) : exc B :=
  match m with
  | Ok a => k a
  | Raise e => Raise e
  end.

Notation "x <- m ;; k" := (bind m (fun x => k))
  (at level 61, m at next level, right associativity).
Notation "' p <- m ;; k" := (bind m (fun x => match x with p => k end))
  (at level 61, p pattern, m at next level, right associativity).

Fixpoint mapM {A B : Type} (f : A -> exc B) (l : list A) : exc (list B) :=
  match l with
  | [] => Ok []
  | a :: tl => b <- f a ;; bs <- mapM f tl ;; Ok (b :: bs)
  end.

(** ** Data *)

Definition point : Type := (R * R)%type.
Definition slot : Type := option point.
Definition solution : Type := list slot.
Definition matrix : Type := list (list R).

(** A numpy array of two floats as the module computes them: two reals,
    or nan in both entries. *)
Inductive array2 : Type :=
| Fin (p : point)
| NaN.

(** A float that may be nan ([None]), and the comparison [x < y], which
    is False on nan. *)
Definition float64 : Type := option R.

Definition flt (x : float64) (y : R) : bool :=
  match x with Some x => Rltb x y | None => false end.

(** What a slot of a solution holds once [rotate] has written [g(rot_e_e)]
    into it: an array of two floats, or for [g(0)] a 2x2 array, which has
    the same two floats in both rows. *)
Inductive rvalue : Type :=
| Vec (v : array2)
| Grid (v : array2).

Definition rslot : Type := option rvalue.
Definition rsolution : Type := list rslot.

(** A finite point in a slot of a rotated solution, and a solution of the
    search read as a rotated solution. *)
Definition pt (p : point) : rvalue := Vec (Fin p).
Definition fin (s : solution) : rsolution := map (option_map pt) s.

(** The three states of [addpoints], [addpoint] and [pntcoord]:
    0, 1 and 2 in the source. *)
Inductive state : Type :=
| Placed          (* state = 0: possibilities found *)
| Indeterminate   (* state = 1: no possibilities, no contradiction *)
| Contradiction.  (* state = 2: contradiction *)

Definition state_eqb (s t : state) : bool :=
  match s, t with
  | Placed, Placed | Indeterminate, Indeterminate
  | Contradiction, Contradiction => true
  | _, _ => false
  end.

(** [distances[i, j]] *)
Definition entry (D : matrix) (i j : nat) : R := nth j (nth i D []) 0.

(** [np.shape(distances)[0]] *)
Definition pntscount (D : matrix) : nat := length D.

(** [sol[k]] *)
Definition get {A : Type} (sol : list (option A)) (k : nat) : option A :=
  nth k sol None.

(** [sol[k] = v] *)
Fixpoint set (sol : solution) (k : nat) (v : slot) : solution :=
  match sol, k with
  | [], _ => []
  | _ :: tl, O => v :: tl
  | hd :: tl, S k' => hd :: set tl k' v
  end.

(** [np.ndim(m) != 0] *)
Definition placed {A : Type} (s : option A) : bool :=
  match s with Some _ => true | None => false end.

(** [np.array(v)] for a slot: the scalar 0 broadcasts against a point. *)
Definition arr (s : slot) : point :=
  match s with Some p => p | None => (0, 0) end.

(** A 2x2 matrix [[a00, a01], [a10, a11]]. *)
Record mat2 : Type := Mat2 { a00 : R; a01 : R; a10 : R; a11 : R }.

(** [np.dot(A, x)] *)
Definition dot (A : mat2) (x : point) : point :=
  (a00 A * fst x + a01 A * snd x, a10 A * fst x + a11 A * snd x).

Definition vadd (u v : point) : point := (fst u + fst v, snd u + snd v).
Definition vneg (u : point) : point := (- fst u, - snd u).

(** ** Geometry *)

(** [dist]: [np.linalg.norm(np.array(v) - np.array(w))] *)
Definition dist (v w : point) : R :=
  sqrt ((fst v - fst w) * (fst v - fst w) + (snd v - snd w) * (snd v - snd w)).

Definition dist_slot (v w : slot) : R := dist (arr v) (arr w).

(** [xvalue] *)
Definition xvalue (a b c : R) : R := (a ^ 2 + c ^ 2 - b ^ 2) / (2 * c).

(** [yvalue]: note the order of the parameters, [(b, a, c)]. *)
Definition yvalue (b a c : R) : R * R :=
  if Rleb (a + b) c || Rleb (a + c) b || Rleb (b + c) a then (0, - 0)
  else
    let res := 2 * ((a * b) ^ 2 + (a * c) ^ 2 + (b * c) ^ 2) in
    let res := res - (a ^ 4 + b ^ 4 + c ^ 4) in
    let res := Rmax res 0 in
    let res := sqrt res in
    let res := res / (2 * c) in
    (res, - res).

(** [dist] for arrays that may hold nan. *)
Definition fdist (v w : array2) : float64 :=
  match v, w with
  | Fin p, Fin q => Some (dist p q)
  | _, _ => None
  end.

(** The two arrays [(A, s)] of an affine map, as [tranmat] and
    [invtranmat] return them: finite, or both filled with nan. *)
Inductive affine : Type :=
| Aff (A : mat2) (s : point)
| NaNAff.

(** [tranmat]: [b[0] - a[0]] fails on an unplaced slot.  When the points
    coincide, [dist(a, b)] is 0 and so is every entry of [A] before the
    division: [A /= dist(a, b)] fills [A] with nan, and
    [s = -np.dot(A, a)] is nan as well. *)
Definition tranmat (a b : slot) : exc affine :=
  match b, a with
  | Some pb, Some pa =>
      let l := dist pa pb in
      if Reqb l 0 then Ok NaNAff
      else
        let A := {| a00 := (fst pb - fst pa) / l;
                    a01 := (snd pb - snd pa) / l;
                    a10 := - (snd pb - snd pa) / l;
                    a11 := (fst pb - fst pa) / l |} in
        Ok (Aff A (vneg (dot A pa)))
  | _, _ => Raise TypeError
  end.

(** [invtranmat]: the inverse of a 2x2 matrix, [LinAlgError] when it is
    singular; the inverse of a matrix of nan is a matrix of nan. *)
Definition det (A : mat2) : R := a00 A * a11 A - a01 A * a10 A.

Definition inv (A : mat2) : exc mat2 :=
  if Reqb (det A) 0 then Raise LinAlgError
  else Ok {| a00 := a11 A / det A; a01 := - a01 A / det A;
             a10 := - a10 A / det A; a11 := a00 A / det A |}.

Definition invtranmat (f : affine) : exc affine :=
  match f with
  | Aff A s => B <- inv A ;; Ok (Aff B (vneg (dot B s)))
  | NaNAff => Ok NaNAff
  end.

(** [np.dot(A, x) + s] on finite arrays. *)
Definition image (A : mat2) (s x : point) : point := vadd (dot A x) s.

(** [affinef]: the function [x |-> Ax + s], on arrays of two floats. *)
Definition affinef (f : affine) : array2 -> array2 :=
  fun x =>
    match f, x with
    | Aff A s, Fin p => Fin (image A s p)
    | _, _ => NaN
    end.

(** [g(0)] for the scalar 0 of an unplaced slot: [np.dot(A, 0)] is the
    2x2 array [A * 0], to which [s] is added row by row. *)
Definition affinef_0 (f : affine) : rvalue :=
  match f with
  | Aff A s => Grid (Fin s)
  | NaNAff => Grid NaN
  end.

(** ** The placer: [pntcoord] *)

(** [abs(dist(sol[k], pos) - distances[i, k]) < prec] *)
Definition near (pk : point) (pos : array2) (d prec : R) : bool :=
  flt (option_map (fun l => Rabs (l - d)) (fdist (Fin pk) pos)) prec.

(** The loop over [k] of [pntcoord] for one candidate position. *)
Definition valid (sol : solution) (i : nat) (D : matrix) (prec : R)
    (pos : array2) : bool :=
  forallb
    (fun k =>
       match get sol k with
       | Some pk =>
           if Rgtb (entry D i k) (-0.5)
           then near pk pos (entry D i k) prec
           else true
       | None => true
       end)
    (seq 0 (length sol)).

(** The two candidate positions of point [i] over the anchors [n], [m]:
    the lines of [pntcoord] from [g = ...] to [pos2 = ...]. *)
Definition candidates (sol : solution) (i n m : nat) (D : matrix)
    : exc (array2 * array2 * (R * R)) :=
  f <- tranmat (get sol n) (get sol m) ;;
  f' <- invtranmat f ;;
  let g := affinef f' in
  let c := dist_slot (get sol n) (get sol m) in
  let x := xvalue (entry D i n) (entry D i m) c in
  let '(y1, y2) := yvalue (entry D i n) (entry D i m) c in
  Ok (g (Fin (x, y1)), g (Fin (x, y2)), (y1, y2)).

(** [tmppnt.append(dcopy(pos))]: the positions of [tmppnt] go into the
    slots of the solutions of the search, which hold finite points. *)
Definition stored (pos : array2) : exc point :=
  match pos with
  | Fin p => Ok p
  | NaN => Raise NanStored
  end.

(** The rest of [pntcoord] once both distances are known and the triangle
    test has passed: the candidates, their validity, the result. *)
Definition place (sol : solution) (i n m : nat) (D : matrix) (prec : R)
    : exc (list point * state) :=
  '(pos1, pos2, (y1, y2)) <- candidates sol i n m D ;;
  let valid1 := valid sol i D prec pos1 in
  let valid2 := valid sol i D prec pos2 in
  if valid1 || valid2 then
    let same := Rltb (Rabs (y1 - y2)) (prec / 4) in
    tmppnt <- mapM stored
                ((if valid1 then [pos1] else [])
                   ++ (if valid2 && negb same then [pos2] else [])) ;;
    Ok (tmppnt, Placed)
  else Ok ([], Contradiction).

Definition pntcoord (sol : solution) (i n m : nat) (D : matrix) (prec : R)
    : exc (list point * state) :=
  if Rltb (entry D i n) (-0.5) || Rltb (entry D i m) (-0.5)
  then Ok ([], Indeterminate)
  else if Rltb (entry D i n + entry D i m)
               (dist_slot (get sol n) (get sol m))
  then Ok ([], Contradiction)
  else place sol i n m D prec.

(** ** Adding one point: [addpoint] *)

(** The indices of the slots of [sol] that satisfy [f], in ascending
    order: the two [enumerate] loops filling [solpnts] and [pleft]. *)
Definition indices (f : slot -> bool) (sol : solution) : list nat :=
  filter (fun n => f (get sol n)) (seq 0 (length sol)).

(** [(solpnts[n], solpnts[m])] for [n in range(cnt-1)] and
    [m in range(n+1, cnt)], in the order of the two nested loops. *)
Definition anchor_pairs (solpnts : list nat) : list (nat * nat) :=
  let cnt := length solpnts in
  flat_map
    (fun n => map (fun m => (nth n solpnts O, nth m solpnts O))
                  (seq (n + 1) (cnt - (n + 1))))
    (seq 0 (cnt - 1)).

(** The nested loops of [addpoint] over the anchor pairs.  [res] is the
    accumulator of the source and [st] the local variable [state], which
    has no value before the first call of [pntcoord]. *)
Fixpoint addpoint_loop (sol : solution) (i : nat) (D : matrix) (prec : R)
    (ps : list (nat * nat)) (res : list solution) (st : option state)
    : exc (list solution * state) :=
  match ps with
  | [] =>
      match st with
      | Some s => Ok (res, s)
      | None => Raise UnboundLocalError
      end
  | (n, m) :: tl =>
      '(tmppnt, s) <- pntcoord sol i n m D prec ;;
      let res :=
        if state_eqb s Placed
        then res ++ map (fun pnt => set sol i (Some pnt)) tmppnt
        else res in
      if negb (state_eqb s Indeterminate) then Ok (res, s)
      else addpoint_loop sol i D prec tl res (Some s)
  end.

Definition addpoint (sol : solution) (i : nat) (D : matrix) (prec : R)
    : exc (list solution * state) :=
  if placed (get sol i) then Ok ([sol], Placed)
  else
    let solpnts := indices placed sol in
    addpoint_loop sol i D prec (anchor_pairs solpnts) [] None.

(** ** One pass over the unplaced points: [addpoints] *)

Fixpoint addpoints_loop (sol : solution) (D : matrix) (prec : R)
    (pleft : list nat) (res : list solution) (posfound : bool)
    : exc (list solution * state) :=
  match pleft with
  | [] => if posfound then Ok (res, Placed) else Ok (res, Indeterminate)
  | i :: tl =>
      '(ires, s) <- addpoint sol i D prec ;;
      match s with
      | Placed => addpoints_loop sol D prec tl (res ++ ires) true
      | Contradiction => Ok ([], Contradiction)
      | Indeterminate => addpoints_loop sol D prec tl res posfound
      end
  end.

Definition addpoints (sol : solution) (D : matrix) (prec : R)
    : exc (list solution * state) :=
  let pleft := indices (fun s => negb (placed s)) sol in
  addpoints_loop sol D prec pleft [] false.

(** ** The enumerator: [triangulatesgl] *)

(** [for sglres in res]: the members whose pass ends in state 0 hand
    their extensions over to [iterres]; the others hand over nothing. *)
Fixpoint members_loop (D : matrix) (prec : R) (res iterres : list solution)
    : exc (list solution) :=
  match res with
  | [] => Ok iterres
  | sglres :: tl =>
      '(tmpres, s) <- addpoints sglres D prec ;;
      members_loop D prec tl
        (if state_eqb s Placed then iterres ++ tmpres else iterres)
  end.

(** [for i in range(pntscount-2)] *)
Fixpoint passes (D : matrix) (prec : R) (k : nat) (res : list solution)
    : exc (list solution) :=
  match k with
  | O => Ok res
  | S k' =>
      iterres <- members_loop D prec res [] ;;
      match iterres with
      | [] => Ok []
      | _ => passes D prec k' iterres
      end
  end.

(** [res = [pntscount*[0]]] with the two starting points written in. *)
Definition start (D : matrix) (sp1 sp2 : nat) : solution :=
  let dis := entry D sp1 sp2 in
  set (set (repeat None (pntscount D)) sp1 (Some (0, 0))) sp2 (Some (dis, 0)).

Definition triangulatesgl (D : matrix) (sp1 sp2 : nat) (prec : R)
    : exc (list solution) :=
  if Rltb (entry D sp1 sp2) (-0.5) then Ok []
  else passes D prec (pntscount D - 2) [start D sp1 sp2].

(** ** Comparing and rotating solutions *)

(** The array behind a slot of a rotated solution. *)
Definition floats (a : rvalue) : array2 :=
  match a with Vec v | Grid v => v end.

(** [dist] on the slots of rotated solutions: [np.linalg.norm] of the
    difference, which for a 2x2 array is the Frobenius norm; a 2x2 array
    has the same two floats in both rows and a vector is broadcast to both
    rows. *)
Definition rdist (a b : rvalue) : float64 :=
  match a, b with
  | Vec v, Vec w => fdist v w
  | _, _ => option_map (Rmult (sqrt 2)) (fdist (floats a) (floats b))
  end.

Fixpoint solequal_loop (zs : list (rslot * rslot)) (prec : R) (res : bool)
    : bool :=
  match zs with
  | [] => res
  | (Some p, Some q) :: tl =>
      solequal_loop tl prec (res && flt (rdist p q) prec)
  | (Some _, None) :: _ => false
  | (None, Some _) :: _ => false
  | (None, None) :: tl => solequal_loop tl prec res
  end.

(** [solequal]: [zip] stops at the shorter list. *)
Definition solequal (sol1 sol2 : rsolution) (prec : R) : bool :=
  solequal_loop (combine sol1 sol2) prec true.

(** The body of the inner loop of [rotate]: [g(rot_e_e)]. *)
Definition moved (g : affine) (rot_e_e : slot) : rslot :=
  match rot_e_e with
  | Some p => Some (Vec (affinef g (Fin p)))
  | None => Some (affinef_0 g)
  end.

(** The body of the outer loop of [rotate]: one solution.  [g] is built
    from the slots 0 and 1 before the inner loop overwrites them. *)
Definition rotate1 (rot_e : solution) : exc rsolution :=
  if (length rot_e <? 2)%nat then Raise IndexError
  else
    g <- tranmat (get rot_e 0) (get rot_e 1) ;;
    Ok (map (moved g) rot_e).

Definition rotate (res : list solution) : exc (list rsolution) :=
  mapM rotate1 res.

(** ** The validator: [distvalid] *)

Definition distvalid (dis : matrix) (err : R) : bool :=
  let n := pntscount dis in
  let e := entry dis in
  forallb (fun i => forallb (fun j => Reqb (e i j) (e j i)) (seq 0 n))
          (seq 0 n)
  && forallb (fun i => Reqb (e i i) 0) (seq 0 n)
  && forallb
       (fun i =>
          forallb
            (fun j =>
               forallb
                 (fun k =>
                    if Rgtb (e i j) (-0.5) && Rgtb (e i k) (-0.5)
                       && Rgtb (e j k) (-0.5)
                    then Rgeb (e i j + e j k) (e i k - Rabs err)
                         && Rgeb (e i k + e k j) (e i j - Rabs err)
                         && Rgeb (e j i + e i k) (e j k - Rabs err)
                    else true)
                 (seq (j + 1) (n - (j + 1))))
            (seq (i + 1) (n - 1 - (i + 1))))
       (seq 0 (n - 2)).

(** ** The orchestrator: [triangulate] *)

Definition nonempty {A : Type} (l : list A) : bool :=
  match l with [] => false | _ => true end.

(** [for m in range(n+1, pntscount)], with its [break]. *)
Fixpoint inner_loop (D : matrix) (prec : R) (all_pos : bool) (n : nat)
    (ms : list nat) (res : list solution) : exc (list solution) :=
  match ms with
  | [] => Ok res
  | m :: tl =>
      tmpres <- triangulatesgl D n m prec ;;
      let res := res ++ tmpres in
      if nonempty res && negb all_pos then Ok res
      else inner_loop D prec all_pos n tl res
  end.

(** [for n in range(pntscount-1)], with its [break]. *)
Fixpoint outer_loop (D : matrix) (prec : R) (all_pos : bool)
    (ns : list nat) (res : list solution) : exc (list solution) :=
  match ns with
  | [] => Ok res
  | n :: tl =>
      res <- inner_loop D prec all_pos n
               (seq (n + 1) (pntscount D - (n + 1))) res ;;
      if nonempty res && negb all_pos then Ok res
      else outer_loop D prec all_pos tl res
  end.

(** The search of [triangulate]: lines 32 to 47. *)
Definition search (D : matrix) (prec : R) (all_pos : bool)
    : exc (list solution) :=
  outer_loop D prec all_pos (seq 0 (pntscount D - 1)) [].

(** The last loop of [triangulate]: [sol] starts as [[res[0]]] and takes
    [res[i]] when it equals none of the solutions taken so far. *)
Definition dedup_step (prec : R) (sol : list rsolution) (ri : rsolution)
    : list rsolution :=
  if forallb (fun j => negb (solequal ri j prec)) sol then sol ++ [ri]
  else sol.

Definition dedup (prec : R) (res : list rsolution) : list rsolution :=
  match res with
  | [] => []
  | r0 :: tl => fold_left (dedup_step prec) tl [r0]
  end.

(** What a call of [triangulate] ends with. *)
Inductive outcome : Type :=
| ValueError                      (* "Given distances are not valid" *)
| Fault (e : fault)
| Return (sol : list rsolution).

Definition triangulate (distances : matrix) (prec : R) (all_pos : bool)
    : outcome :=
  if negb (distvalid distances (prec / 3)) then ValueError
  else
    match search distances prec all_pos with
    | Raise e => Fault e
    | Ok [] => Return []
    | Ok res =>
        match rotate res with
        | Raise e => Fault e
        | Ok res => Return (dedup prec res)
        end
    end.

(** ** The orchestrator, following the words of the specification *)

(** The unordered pairs [(i, j)] with [i < j < n], in ascending order. *)
Definition edges (n : nat) : list (nat * nat) :=
  flat_map (fun i => map (pair i) (seq (i + 1) (n - (i + 1))))
           (seq 0 (n - 1)).

(** Lexicographic order on edges. *)
Definition edge_lt (e f : nat * nat) : Prop :=
  (fst e < fst f)%nat \/ (fst e = fst f /\ (snd e < snd f)%nat).

(** Not exhaustive: the result of the first edge that yields a result. *)
Fixpoint first_success (D : matrix) (prec : R) (es : list (nat * nat))
    : exc (list solution) :=
  match es with
  | [] => Ok []
  | (i, j) :: tl =>
      r <- triangulatesgl D i j prec ;;
      if nonempty r then Ok r else first_success D prec tl
  end.

(** Exhaustive: the results of all edges, concatenated. *)
Fixpoint all_results (D : matrix) (prec : R) (es : list (nat * nat))
    : exc (list solution) :=
  match es with
  | [] => Ok []
  | (i, j) :: tl =>
      r <- triangulatesgl D i j prec ;;
      rs <- all_results D prec tl ;;
      Ok (r ++ rs)
  end.

Definition solve_spec (D : matrix) (prec : R) (exhaustive : bool)
    : exc (list solution) :=
  if exhaustive then all_results D prec (edges (pntscount D))
  else first_success D prec (edges (pntscount D)).

(** ** The vocabulary of the properties *)

(** [distances[i, j]] is known: the test [> -0.5] of the source. *)
Definition known (D : matrix) (i j : nat) : Prop := entry D i j > -0.5.

(** One of the three triangle inequalities of the triple [(i, j, k)] fails
    by more than [err]. *)
Definition violated (D : matrix) (err : R) (i j k : nat) : Prop :=
  entry D i j + entry D j k < entry D i k - Rabs err
  \/ entry D i k + entry D k j < entry D i j - Rabs err
  \/ entry D j i + entry D i k < entry D j k - Rabs err.

(** Two slots agree within [prec]: both placed and closer than [prec],
    which nan never is, or both unplaced. *)
Definition agree (prec : R) (s1 s2 : rslot) : Prop :=
  match s1, s2 with
  | Some p, Some q => exists d, rdist p q = Some d /\ d < prec
  | None, None => True
  | _, _ => False
  end.

(** [l1] is [l2] with some elements left out, the order kept. *)
Inductive subseq {A : Type} : list A -> list A -> Prop :=
| subseq_nil : subseq [] []
| subseq_skip (x : A) (l1 l2 : list A) : subseq l1 l2 -> subseq l1 (x :: l2)
| subseq_take (x : A) (l1 l2 : list A) :
    subseq l1 l2 -> subseq (x :: l1) (x :: l2).

(** The map [g] of [pntcoord] in closed form: the point with coordinates
    [q] in the frame that has [pa] as origin and [pb] on its positive
    x-axis. *)
Definition frame (pa pb q : point) : point :=
  let c := dist pa pb in
  let ux := (fst pb - fst pa) / c in
  let uy := (snd pb - snd pa) / c in
  (fst pa + ux * fst q - uy * snd q, snd pa + uy * fst q + ux * snd q).

(** The map [g] of [rotate] in closed form, the inverse of [frame]: the
    coordinates of [q] in the frame that has [pa] as origin and [pb] on its
    positive x-axis. *)
Definition toframe (pa pb q : point) : point :=
  let c := dist pa pb in
  let ux := (fst pb - fst pa) / c in
  let uy := (snd pb - snd pa) / c in
  (ux * (fst q - fst pa) + uy * (snd q - snd pa),
   - uy * (fst q - fst pa) + ux * (snd q - snd pa)).

(** The search as a step relation: [s'] is [sol] with one more point
    placed, at a position that passed the validity checks of [pntcoord]
    against [sol]. *)
Inductive extends (D : matrix) (prec : R) (sol s' : solution) : Prop :=
| extends_intro (i : nat) (pnt : point) :
    (i < length sol)%nat ->
    get sol i = None ->
    valid sol i D prec (Fin pnt) = true ->
    s' = set sol i (Some pnt) ->
    extends D prec sol s'.

(** [k] extensions in a row. *)
Inductive reach (D : matrix) (prec : R) : nat -> solution -> solution -> Prop :=
| reach_O (s : solution) : reach D prec O s s
| reach_S (k : nat) (s s1 s2 : solution) :
    extends D prec s s1 -> reach D prec k s1 s2 -> reach D prec (S k) s s2.

(** The member [m] of the frontier hands [s'] over to the next frontier:
    its pass over the unplaced points ends in state 0 and [s'] is one of
    the extensions the pass returns. *)
Definition hands_over (D : matrix) (prec : R) (m s' : solution) : Prop :=
  exists tmpres, addpoints m D prec = Ok (tmpres, Placed) /\ In s' tmpres.

(** [k] passes in a row hand [s'] down from [s]. *)
Inductive descends (D : matrix) (prec : R)
    : nat -> solution -> solution -> Prop :=
| descends_O (s : solution) : descends D prec O s s
| descends_S (k : nat) (s s1 s2 : solution) :
    hands_over D prec s s1 -> descends D prec k s1 s2 ->
    descends D prec (S k) s s2.

(** The number of placed points of a solution. *)
Definition nplaced {A : Type} (s : list (option A)) : nat :=
  length (filter placed s).

(** Two distinct points of [s] are placed. *)
Definition anchored (s : solution) : Prop :=
  exists a b, a <> b /\ placed (get s a) = true /\ placed (get s b) = true.

(** Every slot of a rotated solution holds nan. *)
Definition all_nan (s : rsolution) : Prop :=
  Forall (fun e => exists a, e = Some a /\ floats a = NaN) s.

(** No slot of a rotated solution holds nan. *)
Definition nan_free (s : rsolution) : Prop :=
  forall k a, get s k = Some a -> floats a <> NaN.

(** Every slot of a rotated solution holds a finite point. *)
Definition all_finite (s : rsolution) : Prop :=
  Forall (fun e => exists p, e = Some (pt p)) s.

(** The validity invariant: every two placed points of [s] whose distance
    in [D] is not negative lie at that distance, within [prec]. *)
Definition consistent (D : matrix) (prec : R) (s : solution) : Prop :=
  forall i j pi pj,
    get s i = Some pi -> get s j = Some pj -> 0 <= entry D i j ->
    Rabs (dist pi pj - entry D i j) < prec.

(** The validity invariant for a rotated solution: it speaks of the slots
    that hold finite points. *)
Definition rconsistent (D : matrix) (prec : R) (s : rsolution) : Prop :=
  forall i j pi pj,
    get s i = Some (pt pi) -> get s j = Some (pt pj) -> 0 <= entry D i j ->
    Rabs (dist pi pj - entry D i j) < prec.

(** ** Concrete inputs *)

(** d01 = 1, d02 = 1, d12 = 5. *)
Definition D_1_1_5 : matrix := [[0; 1; 1]; [1; 0; 5]; [1; 5; 0]].

(** d01 = 1, d12 = 1, d02 = 2.05: the triangle inequality fails by 0.05. *)
Definition D_near_flat : matrix :=
  [[0; 1; 2.05]; [1; 0; 1]; [2.05; 1; 0]].

(** Three points of which only the distance between 0 and 1 is known. *)
Definition D_hole : matrix := [[0; 1; -1]; [1; 0; -1]; [-1; -1; 0]].

(** Anchors 0 and 1 at distance 2; point 2 at distances 1 and 0.5 of
    them, so that a + b = 1.5 lies between c - prec and c for prec = 1. *)
Definition sol_short : solution := [Some (0, 0); Some (2, 0); None].
Definition D_short : matrix := [[0; 2; 1]; [2; 0; 0.5]; [1; 0.5; 0]].

(** Anchors 0 and 1 at distance 8, point 2 at (4, -33); point 3 at
    distance 5 of both anchors and 4 of point 2, to be placed with
    prec = 32: the two candidates (4, 3) and (4, -3) are 6 < prec/4 apart,
    and only the second passes the check against point 2. *)
Definition sol_thin : solution :=
  [Some (0, 0); Some (8, 0); Some (4, -33); None].
Definition D_thin : matrix :=
  [[0; 8; -1; 5]; [8; 0; -1; 5]; [-1; -1; 0; 4]; [5; 5; 4; 0]].

(** 3-4-5: d01 = 3, d12 = 4, d02 = 5. *)
Definition D_3_4_5 : matrix := [[0; 3; 5]; [3; 0; 4]; [5; 4; 0]].

(** The 3-4-5 triangle on the starting edge (0, 1): before point 2 is
    placed, and with point 2 above and below the x-axis. *)
Definition s345_start : solution := [Some (0, 0); Some (3, 0); None].
Definition s345_up : solution := [Some (0, 0); Some (3, 0); Some (3, 4)].
Definition s345_down : solution := [Some (0, 0); Some (3, 0); Some (3, -4)].

(** The 3-4-5 triangle as the starting edges (0, 2) and (1, 2) place it,
    before rotation. *)
Definition s345_02_up : solution :=
  [Some (0, 0); Some (1.8, 2.4); Some (5, 0)].
Definition s345_02_down : solution :=
  [Some (0, 0); Some (1.8, -2.4); Some (5, 0)].
Definition s345_12_up : solution := [Some (0, 3); Some (0, 0); Some (4, 0)].
Definition s345_12_down : solution :=
  [Some (0, -3); Some (0, 0); Some (4, 0)].

(** The solution that the specification expects for the 3-4-5 triangle,
    and its reflection. *)
Definition s345_spec : solution :=
  [Some (0, 0); Some (3, 0); Some (9 / 5, 12 / 5)].
Definition s345_spec_mirror : solution :=
  [Some (0, 0); Some (3, 0); Some (9 / 5, - (12 / 5))].

(** * The rest of the module *)

(** ** [affinef_pnt] *)

(** What a call of [affinef_pnt] ends with. *)
Inductive pnt_outcome : Type :=
| PntValueError                  (* "Points are not in isometric relation" *)
| PntFault (e : fault)
| PntReturn (func : array2 -> array2).

(** [affinef_pnt]: the four points are numpy arrays of two floats. *)
Definition affinef_pnt (a1 a2 b1 b2 : point) (prec : R) : pnt_outcome :=
  if negb (Rltb (Rabs (dist a1 a2 - dist b1 b2)) prec) then PntValueError
  else
    match tranmat (Some a1) (Some a2) with
    | Raise e => PntFault e
    | Ok fa =>
        match fb <- tranmat (Some b1) (Some b2) ;; invtranmat fb with
        | Raise e => PntFault e
        | Ok fb' =>
            let func_a := affinef fa in
            let func_b := affinef fb' in
            PntReturn (fun x => func_b (func_a x))
        end
    end.

(** ** [sym], on square arrays *)

(** The square array of size [n] with entry [f i j] at [i, j]. *)
Definition tabulate (n : nat) (f : nat -> nat -> R) : matrix :=
  map (fun i => map (f i) (seq 0 n)) (seq 0 n).

(** [A.T] *)
Definition transpose (A : matrix) : matrix :=
  tabulate (pntscount A) (fun i j => entry A j i).

(** [A.diagonal()] *)
Definition diagonal (A : matrix) : list R :=
  map (fun i => entry A i i) (seq 0 (pntscount A)).

(** [np.diag(d)] for a vector [d] *)
Definition diag (d : list R) : matrix :=
  tabulate (length d) (fun i j => if Nat.eqb i j then nth i d 0 else 0).

(** [A + B] and [A - B] for arrays of the shape of [A] *)
Definition madd (A B : matrix) : matrix :=
  tabulate (pntscount A) (fun i j => entry A i j + entry B i j).
Definition msub (A B : matrix) : matrix :=
  tabulate (pntscount A) (fun i j => entry A i j - entry B i j).

(** [sym]: [A + A.T - np.diag(A.diagonal())] *)
Definition sym (A : matrix) : matrix :=
  msub (madd A (transpose A)) (diag (diagonal A)).

(** ** The arithmetic of [plotres]

    What [plotres] computes before it draws: the grid of the plots and
    their common borders.  The drawing itself (matplotlib) is not
    modelled. *)

(** [int(np.ceil(x))]: the least integer not below [x]. *)
Definition ceil (x : R) : Z := (1 - up (- x))%Z.

(** The grid of [plotres] for [Tot = len(res)] plots: [Cols] and [Rows];
    [None] stands for the [ZeroDivisionError] of [Tot/Cols]. *)
Definition plot_grid (Tot : nat) : option (Z * Z) :=
  let Cols := ceil (sqrt (INR Tot)) in
  if Z.eqb Cols 0 then None
  else Some (Cols, ceil (INR Tot / IZR Cols)).

(** Python's [max(a, b)] and [min(a, b)] on floats: [b] when [b > a]
    (when [b < a]), else [a]; a comparison with nan is False. *)
Definition pymax (a b : float64) : float64 :=
  match a, b with
  | Some x, Some y => if Rltb x y then b else a
  | _, _ => a
  end.

Definition pymin (a b : float64) : float64 :=
  match a, b with
  | Some x, Some y => if Rltb y x then b else a
  | _, _ => a
  end.

(** [j[0]] and [j[1]] for an array of two floats. *)
Definition coord0 (v : array2) : float64 :=
  match v with Fin p => Some (fst p) | NaN => None end.
Definition coord1 (v : array2) : float64 :=
  match v with Fin p => Some (snd p) | NaN => None end.

Definition borders : Type := (float64 * float64 * float64 * float64)%type.

(** The body of the loop of [plotres] over all points of all solutions,
    which widens the common borders [(xmax, xmin, ymax, ymin)] of the
    plots; [j[0]] fails on a slot that holds the int 0, and is a row of
    two floats for a 2x2 array, which [max] cannot compare to a float. *)
Definition widen (acc : borders) (j : rslot) : exc borders :=
  match j with
  | Some (Vec v) =>
      let '(xmax, xmin, ymax, ymin) := acc in
      Ok (pymax (coord0 v) xmax, pymin (coord0 v) xmin,
          pymax (coord1 v) ymax, pymin (coord1 v) ymin)
  | Some (Grid _) => Raise AmbiguousTruth
  | None => Raise TypeError
  end.

Fixpoint foldM {A B : Type} (f : A -> B -> exc A) (l : list B) (acc : A)
    : exc A :=
  match l with
  | [] => Ok acc
  | b :: tl => acc' <- f acc b ;; foldM f tl acc'
  end.

(** [for i in res: for j in i: ...], from the borders [(0, 0, 0, 0)]. *)
Definition plot_borders (res : list rsolution) : exc borders :=
  foldM (fun acc i => foldM widen i acc) res
        (Some 0, Some 0, Some 0, Some 0).

(** ** More vocabulary and inputs *)

(** Sixteen times the squared area of the triangle of sides [a], [b],
    [c] (Heron): the quantity under the square root of [yvalue]. *)
Definition heron (a b c : R) : R :=
  2 * ((a * b) ^ 2 + (a * c) ^ 2 + (b * c) ^ 2) - (a ^ 4 + b ^ 4 + c ^ 4).

(** Borders without nan. *)
Definition real_borders (acc : R * R * R * R) : borders :=
  let '(xmax, xmin, ymax, ymin) := acc in
  (Some xmax, Some xmin, Some ymax, Some ymin).

(** [p] lies within the borders [acc]. *)
Definition within (acc : R * R * R * R) (p : point) : Prop :=
  let '(xmax, xmin, ymax, ymin) := acc in
  xmin <= fst p <= xmax /\ ymin <= snd p <= ymax.

(** The borders [acc'] contain the borders [acc]. *)
Definition wider (acc acc' : R * R * R * R) : Prop :=
  let '(xmax, xmin, ymax, ymin) := acc in
  let '(xmax', xmin', ymax', ymin') := acc' in
  xmax <= xmax' /\ xmin' <= xmin /\ ymax <= ymax' /\ ymin' <= ymin.

(** Two points at distance 0. *)
Definition D_zero : matrix := [[0; 0]; [0; 0]].

(** Two points at distance [d]. *)
Definition D_pair (d : R) : matrix := [[0; d]; [d; 0]].

(** Three points: d01 = [a], d02 = [b], d12 = [c]. *)
Definition D_triangle (a b c : R) : matrix :=
  [[0; a; b]; [a; 0; c]; [b; c; 0]].

(** The triangle on the starting edge (0, 1) before point 2 is placed, and
    the coordinates that [xvalue] and [yvalue] give to point 2. *)
Definition triangle_start (a : R) : solution :=
  [Some (0, 0); Some (a, 0); None].
Definition apex_x (a b c : R) : R := xvalue b c a.
Definition apex_y (a b c : R) : R := fst (yvalue b c a).

(** The upper triangle d01 = 1, d02 = 2, d12 = 3 of three points. *)
Definition A_upper : matrix := [[0; 1; 2]; [0; 0; 3]; [0; 0; 0]].


(** * Properties *)

(** ** Boolean comparisons *)

Lemma Rltb_true x y : x < y -> Rltb x y = true.
Proof. intros H; unfold Rltb; destruct (Rlt_dec x y); [reflexivity | lra]. Qed.

Lemma Rltb_false x y : y <= x -> Rltb x y = false.
Proof. intros H; unfold Rltb; destruct (Rlt_dec x y); [lra | reflexivity]. Qed.

Lemma Rleb_true x y : x <= y -> Rleb x y = true.
Proof. intros H; unfold Rleb; destruct (Rle_dec x y); [reflexivity | lra]. Qed.

Lemma Rleb_false x y : y < x -> Rleb x y = false.
Proof. intros H; unfold Rleb; destruct (Rle_dec x y); [lra | reflexivity]. Qed.

Lemma Reqb_true x y : x = y -> Reqb x y = true.
Proof.
  intros H; unfold Reqb; destruct (Req_dec_T x y); [reflexivity | lra].
Qed.

Lemma Reqb_false x y : x <> y -> Reqb x y = false.
Proof.
  intros H; unfold Reqb; destruct (Req_dec_T x y);
    [contradiction | reflexivity].
Qed.

Lemma Rltb_iff x y : Rltb x y = true <-> x < y.
Proof.
  unfold Rltb; destruct (Rlt_dec x y); split; intros; try lra;
    try reflexivity; discriminate.
Qed.

Lemma Rleb_iff x y : Rleb x y = true <-> x <= y.
Proof.
  unfold Rleb; destruct (Rle_dec x y); split; intros; try lra;
    try reflexivity; discriminate.
Qed.

Lemma Reqb_iff x y : Reqb x y = true <-> x = y.
Proof.
  unfold Reqb; destruct (Req_dec_T x y); split; intros; try lra;
    try reflexivity; try discriminate; contradiction.
Qed.

(** Decide the comparisons of a goal whose operands are numerals. *)
Ltac rdecide :=
  repeat match goal with
    | |- context [Rltb ?x ?y] =>
        first [rewrite (Rltb_true x y) by lra
              | rewrite (Rltb_false x y) by lra]
    | |- context [Rleb ?x ?y] =>
        first [rewrite (Rleb_true x y) by lra
              | rewrite (Rleb_false x y) by lra]
    | |- context [Reqb ?x ?y] =>
        first [rewrite (Reqb_true x y) by lra
              | rewrite (Reqb_false x y) by lra]
    end.

(** Unfold the names of the types of slots and solutions, so that terms
    which differ in these names only become equal. *)
Ltac types := unfold rsolution, rslot, solution, slot, point in *.

(** ** The validator *)

(** What a [true] answer of [distvalid] says about the known triples. *)
Lemma distvalid_triple D err i j k :
  distvalid D err = true ->
  (i < j < k)%nat -> (k < pntscount D)%nat ->
  known D i j -> known D i k -> known D j k ->
  ~ violated D err i j k.
Proof.
  unfold distvalid, known, violated. intros Hv Hijk Hk Hij Hik Hjk.
  apply andb_prop in Hv as [_ Hv].
  rewrite forallb_forall in Hv.
  assert (Hi : In i (seq 0 (pntscount D - 2))) by (apply in_seq; lia).
  specialize (Hv i Hi). rewrite forallb_forall in Hv.
  assert (Hj : In j (seq (i + 1) (pntscount D - 1 - (i + 1))))
    by (apply in_seq; lia).
  specialize (Hv j Hj). rewrite forallb_forall in Hv.
  assert (Hk' : In k (seq (j + 1) (pntscount D - (j + 1))))
    by (apply in_seq; lia).
  specialize (Hv k Hk'). unfold Rgtb in Hv.
  rewrite !Rltb_true in Hv by lra. simpl in Hv.
  apply andb_prop in Hv as [Hv H3]. apply andb_prop in Hv as [H1 H2].
  unfold Rgeb in *. rewrite Rleb_iff in H1, H2, H3. lra.
Qed.

Lemma triangulate_ValueError D prec all_pos :
  triangulate D prec all_pos = ValueError <-> distvalid D (prec / 3) = false.
Proof.
  unfold triangulate. destruct (distvalid D (prec / 3)); simpl.
  - split; [|discriminate].
    destruct (search D prec all_pos) as [[|r rs]|e]; try discriminate.
    destruct (rotate (r :: rs)); discriminate.
  - split; reflexivity.
Qed.

(** C10: [triangulate] raises [ValueError] exactly when
    [distvalid(distances, prec/3)] is false; in particular a matrix with a
    known triple that violates the triangle inequality by more than
    [prec/3] is rejected, whatever the search would have found. *)
Theorem triangulate_validates_at_third_of_prec :
  forall D prec all_pos,
    (triangulate D prec all_pos = ValueError
     <-> distvalid D (prec / 3) = false)
    /\ (forall i j k,
          (i < j < k)%nat -> (k < pntscount D)%nat ->
          known D i j -> known D i k -> known D j k ->
          violated D (prec / 3) i j k ->
          triangulate D prec all_pos = ValueError).
Proof.
  intros D prec all_pos. split; [apply triangulate_ValueError|].
  intros i j k Hijk Hk Hij Hik Hjk Hviol.
  apply triangulate_ValueError.
  destruct (distvalid D (prec / 3)) eqn:E; [|reflexivity].
  exfalso. exact (distvalid_triple D _ i j k E Hijk Hk Hij Hik Hjk Hviol).
Qed.

Lemma triangulate_validates_at_third_of_prec_witness :
  ((0 < 1 < 2)%nat /\ (2 < pntscount D_near_flat)%nat
   /\ known D_near_flat 0 1 /\ known D_near_flat 0 2
   /\ known D_near_flat 1 2
   /\ violated D_near_flat (0.1 / 3) 0 1 2)
  /\ 2.05 - (1 + 1) < 0.1
  /\ triangulate D_near_flat 0.1 false = ValueError.
Proof.
  assert (Hv : violated D_near_flat (0.1 / 3) 0 1 2).
  { left. unfold entry; simpl. rewrite Rabs_pos_eq by lra. lra. }
  assert (H01 : known D_near_flat 0 1) by (unfold known, entry; simpl; lra).
  assert (H02 : known D_near_flat 0 2) by (unfold known, entry; simpl; lra).
  assert (H12 : known D_near_flat 1 2) by (unfold known, entry; simpl; lra).
  assert (Ho : (0 < 1 < 2)%nat) by lia.
  assert (Hn : (2 < pntscount D_near_flat)%nat) by (simpl; lia).
  split; [repeat split; try assumption; lia|].
  split; [lra|].
  exact (proj2 (triangulate_validates_at_third_of_prec D_near_flat 0.1 false)
           0%nat 1%nat 2%nat Ho Hn H01 H02 H12 Hv).
Defined.

(** C8: the matrix d01 = 1, d02 = 1, d12 = 5 is rejected with
    [ValueError] for every tolerance below 9 in absolute value (the
    violation is 3 and the validator allows [|prec|/3]), before any search:
    the result does not depend on [all_pos]. *)
Theorem triangulate_rejects_1_1_5 :
  forall prec all_pos,
    Rabs prec < 9 -> triangulate D_1_1_5 prec all_pos = ValueError.
Proof.
  intros prec all_pos Hp.
  apply triangulate_ValueError.
  destruct (distvalid D_1_1_5 (prec / 3)) eqn:E; [|reflexivity].
  exfalso.
  apply (distvalid_triple D_1_1_5 (prec / 3) 0 1 2 E); simpl;
    try lia; unfold known, violated, entry; simpl; try lra.
  right; right.
  unfold Rdiv. rewrite Rabs_mult, (Rabs_pos_eq (/ 3)) by lra. lra.
Qed.

Lemma triangulate_rejects_1_1_5_witness :
  Rabs 0.000001 < 9 /\ triangulate D_1_1_5 0.000001 false = ValueError.
Proof.
  assert (H : Rabs 0.000001 < 9) by (rewrite Rabs_pos_eq; lra).
  split; [exact H | exact (triangulate_rejects_1_1_5 0.000001 false H)].
Defined.

(** ** The orchestrator *)

Lemma bind_ret {A} (m : exc A) : bind m Ok = m.
Proof. destruct m; reflexivity. Qed.

Lemma StronglySorted_app {A} (lt : A -> A -> Prop) (l1 l2 : list A) :
  StronglySorted lt l1 -> StronglySorted lt l2 ->
  (forall x y, In x l1 -> In y l2 -> lt x y) ->
  StronglySorted lt (l1 ++ l2).
Proof.
  induction l1 as [|a l1 IH]; intros H1 H2 H; simpl; [assumption|].
  apply StronglySorted_inv in H1 as [H1 Ha].
  constructor.
  - apply IH; [assumption | assumption |].
    intros x y Hx Hy. apply H; [right|]; assumption.
  - apply Forall_app. split; [assumption|].
    apply Forall_forall. intros y Hy. apply H; [left; reflexivity | assumption].
Qed.

Lemma row_sorted i start len :
  StronglySorted edge_lt (map (pair i) (seq start len)).
Proof.
  revert start. induction len as [|len IH]; intros start; simpl.
  - constructor.
  - constructor; [apply IH|].
    apply Forall_forall. intros [a b] Hab.
    apply in_map_iff in Hab as [x [Hx Hin]]. inversion Hx; subst.
    apply in_seq in Hin. right. simpl. lia.
Qed.

Lemma rows_sorted n start len :
  StronglySorted edge_lt
    (flat_map (fun i => map (pair i) (seq (i + 1) (n - (i + 1))))
              (seq start len)).
Proof.
  revert start. induction len as [|len IH]; intros start; simpl.
  - constructor.
  - apply StronglySorted_app; [apply row_sorted | apply IH |].
    intros [a b] [c d] Hx Hy.
    apply in_map_iff in Hx as [x [Hx _]]. inversion Hx; subst.
    apply in_flat_map in Hy as [i [Hi Hy]].
    apply in_map_iff in Hy as [y [Hy _]]. inversion Hy; subst.
    apply in_seq in Hi. left. simpl. lia.
Qed.

Lemma in_edges n i j : In (i, j) (edges n) <-> (i < j < n)%nat.
Proof.
  unfold edges. rewrite in_flat_map. split.
  - intros [x [Hx Hin]]. apply in_map_iff in Hin as [y [Hy Hin]].
    inversion Hy; subst. apply in_seq in Hx. apply in_seq in Hin. lia.
  - intros H. exists i. split; [apply in_seq; lia|].
    apply in_map_iff. exists j. split; [reflexivity | apply in_seq; lia].
Qed.

Lemma first_success_app D prec es fs :
  first_success D prec (es ++ fs) =
  r <- first_success D prec es ;;
  if nonempty r then Ok r else first_success D prec fs.
Proof.
  induction es as [|[i j] es IH]; simpl; [reflexivity|].
  destruct (triangulatesgl D i j prec) as [r|e]; simpl; [|reflexivity].
  destruct r as [|s r]; simpl; [apply IH | reflexivity].
Qed.

Lemma all_results_app D prec es fs :
  all_results D prec (es ++ fs) =
  r <- all_results D prec es ;; rs <- all_results D prec fs ;; Ok (r ++ rs).
Proof.
  induction es as [|[i j] es IH]; simpl.
  - destruct (all_results D prec fs); reflexivity.
  - destruct (triangulatesgl D i j prec) as [r|e]; simpl; [|reflexivity].
    rewrite IH. destruct (all_results D prec es) as [r'|e]; simpl;
      [|reflexivity].
    destruct (all_results D prec fs) as [r''|e]; simpl; [|reflexivity].
    now rewrite app_assoc.
Qed.

Lemma inner_loop_first D prec n ms :
  inner_loop D prec false n ms [] = first_success D prec (map (pair n) ms).
Proof.
  induction ms as [|m ms IH]; simpl; [reflexivity|].
  destruct (triangulatesgl D n m prec) as [r|e]; simpl; [|reflexivity].
  destruct r as [|s r]; simpl; [apply IH | reflexivity].
Qed.

Lemma outer_loop_first D prec ns :
  outer_loop D prec false ns [] =
  first_success D prec
    (flat_map (fun n => map (pair n) (seq (n + 1) (pntscount D - (n + 1))))
              ns).
Proof.
  induction ns as [|n ns IH]; simpl; [reflexivity|].
  rewrite first_success_app, inner_loop_first, <- IH.
  destruct (first_success D prec (map (pair n) _)) as [r|e]; simpl;
    [|reflexivity].
  destruct r as [|s r]; reflexivity.
Qed.

Lemma inner_loop_all D prec n ms res :
  inner_loop D prec true n ms res =
  rs <- all_results D prec (map (pair n) ms) ;; Ok (res ++ rs).
Proof.
  revert res. induction ms as [|m ms IH]; intros res; simpl.
  - now rewrite app_nil_r.
  - destruct (triangulatesgl D n m prec) as [r|e]; simpl; [|reflexivity].
    rewrite andb_false_r, IH.
    destruct (all_results D prec _) as [rs|e]; simpl; [|reflexivity].
    now rewrite app_assoc.
Qed.

Lemma outer_loop_all D prec ns res :
  outer_loop D prec true ns res =
  rs <- all_results D prec
          (flat_map
             (fun n => map (pair n) (seq (n + 1) (pntscount D - (n + 1))))
             ns) ;;
  Ok (res ++ rs).
Proof.
  revert res. induction ns as [|n ns IH]; intros res; simpl.
  - now rewrite app_nil_r.
  - rewrite all_results_app, inner_loop_all.
    destruct (all_results D prec (map _ _)) as [r|e]; simpl; [|reflexivity].
    rewrite andb_false_r, IH.
    destruct (all_results D prec _) as [rs|e]; simpl; [|reflexivity].
    now rewrite app_assoc.
Qed.

(** C6: the two nested loops of [triangulate] try the starting edges
    [(i, j)], [i < j], in ascending order; an edge whose distance is unknown
    contributes no result; without [all_pos] the search ends with the
    result of the first edge that yields one, with [all_pos] every edge is
    tried and the results are concatenated (deduplication comes after). *)
Theorem search_tries_edges_in_order :
  forall D prec all_pos,
    search D prec all_pos = solve_spec D prec all_pos
    /\ StronglySorted edge_lt (edges (pntscount D))
    /\ (forall i j, In (i, j) (edges (pntscount D))
                    <-> (i < j < pntscount D)%nat)
    /\ (forall i j, entry D i j < -0.5 -> triangulatesgl D i j prec = Ok []).
Proof.
  intros D prec all_pos. split; [|split; [|split]].
  - unfold search, solve_spec, edges. destruct all_pos.
    + rewrite outer_loop_all. simpl. apply bind_ret.
    + apply outer_loop_first.
  - apply rows_sorted.
  - intros i j. apply in_edges.
  - intros i j H. unfold triangulatesgl. now rewrite Rltb_true.
Qed.

Lemma search_tries_edges_in_order_witness :
  entry [[0; -1]; [-1; 0]] 0 1 < -0.5
  /\ triangulatesgl [[0; -1]; [-1; 0]] 0 1 1 = Ok [].
Proof.
  assert (H : entry [[0; -1]; [-1; 0]] 0 1 < -0.5)
    by (unfold entry; simpl; lra).
  split; [exact H|].
  exact (proj2 (proj2 (proj2
           (search_tries_edges_in_order [[0; -1]; [-1; 0]] 1 false)))
           0%nat 1%nat H).
Defined.

(** ** Comparing solutions and removing duplicates *)

Lemma flt_iff x y : flt x y = true <-> exists d, x = Some d /\ d < y.
Proof.
  destruct x as [d|]; simpl.
  - rewrite Rltb_iff. split.
    + intros H. exists d. split; [reflexivity | assumption].
    + intros [d' [H H']]. inversion H; subst. assumption.
  - split; [discriminate|]. intros [d [H _]]. discriminate.
Qed.

Lemma solequal_loop_true zs prec res :
  solequal_loop zs prec res = true <->
  res = true /\ Forall (fun z => agree prec (fst z) (snd z)) zs.
Proof.
  revert res. induction zs as [|[[p|] [q|]] zs IH]; intros res; simpl.
  - split; [intros H; split; [assumption | constructor] | tauto].
  - rewrite IH, andb_true_iff, flt_iff. split.
    + intros [[H1 H2] H3]. split; [assumption|]. constructor; assumption.
    + intros [H1 H2]. inversion H2; subst. simpl in *. tauto.
  - split; [discriminate|]. intros [_ H]. inversion H; subst. contradiction.
  - split; [discriminate|]. intros [_ H]. inversion H; subst. contradiction.
  - rewrite IH. split.
    + intros [H1 H2]. split; [assumption|]. constructor; simpl; trivial.
    + intros [H1 H2]. inversion H2; subst. tauto.
Qed.

Lemma Forall_combine_nth {A} (P : option A -> option A -> Prop)
    (s1 s2 : list (option A)) :
  Forall (fun z => P (fst z) (snd z)) (combine s1 s2) <->
  (forall k, (k < length s1)%nat -> (k < length s2)%nat ->
             P (get s1 k) (get s2 k)).
Proof.
  revert s2. induction s1 as [|a s1 IH]; intros [|b s2]; simpl;
    try (split; [intros _ k H1 H2; lia | constructor]).
  split.
  - intros H [|k] H1 H2; inversion H; subst; [assumption|].
    apply (proj1 (IH s2)); [assumption | lia | lia].
  - intros H. constructor.
    + apply (H O); lia.
    + apply IH. intros k H1 H2. apply (H (S k)); lia.
Qed.

Lemma solequal_true s1 s2 prec :
  solequal s1 s2 prec = true <->
  (forall k, (k < length s1)%nat -> (k < length s2)%nat ->
             agree prec (get s1 k) (get s2 k)).
Proof.
  unfold solequal. rewrite solequal_loop_true.
  rewrite (Forall_combine_nth (agree prec) s1 s2). tauto.
Qed.

Lemma subseq_refl {A} (l : list A) : subseq l l.
Proof. induction l; constructor; assumption. Qed.

Lemma subseq_app_skip {A} (l1 l2 : list A) x :
  subseq l1 l2 -> subseq l1 (l2 ++ [x]).
Proof.
  induction 1; simpl.
  - apply subseq_skip, subseq_nil.
  - apply subseq_skip; assumption.
  - apply subseq_take; assumption.
Qed.

Lemma subseq_app_take {A} (l1 l2 : list A) x :
  subseq l1 l2 -> subseq (l1 ++ [x]) (l2 ++ [x]).
Proof.
  induction 1; simpl.
  - apply subseq_take, subseq_nil.
  - apply subseq_skip; assumption.
  - apply subseq_take; assumption.
Qed.

Lemma dedup_fold_subseq prec tl sol pre :
  subseq sol pre -> subseq (fold_left (dedup_step prec) tl sol) (pre ++ tl).
Proof.
  revert sol pre. induction tl as [|x tl IH]; intros sol pre H; simpl.
  - now rewrite app_nil_r.
  - replace (pre ++ x :: tl) with ((pre ++ [x]) ++ tl)
      by (now rewrite <- app_assoc).
    apply IH. unfold dedup_step.
    destruct (forallb _ sol);
      [apply subseq_app_take | apply subseq_app_skip]; assumption.
Qed.

Lemma dedup_fold_prefix prec tl sol :
  exists rest, fold_left (dedup_step prec) tl sol = sol ++ rest.
Proof.
  revert sol. induction tl as [|x tl IH]; intros sol; simpl.
  - exists []. now rewrite app_nil_r.
  - destruct (IH (dedup_step prec sol x)) as [rest Hr]. rewrite Hr.
    unfold dedup_step. destruct (forallb _ sol).
    + exists (x :: rest). now rewrite <- app_assoc.
    + exists rest. reflexivity.
Qed.

Lemma FOP_snoc {A} (Rel : A -> A -> Prop) (l : list A) x :
  ForallOrdPairs Rel l -> Forall (fun a => Rel a x) l ->
  ForallOrdPairs Rel (l ++ [x]).
Proof.
  induction 1 as [|a l Ha Hl IH]; intros Hx; simpl.
  - repeat constructor.
  - inversion Hx; subst. constructor.
    + apply Forall_app. split; [assumption | repeat constructor; assumption].
    + apply IH; assumption.
Qed.

Lemma dedup_fold_distinct prec tl sol :
  ForallOrdPairs (fun a b => solequal b a prec = false) sol ->
  ForallOrdPairs (fun a b => solequal b a prec = false)
                 (fold_left (dedup_step prec) tl sol).
Proof.
  revert sol. induction tl as [|x tl IH]; intros sol H; simpl; [assumption|].
  apply IH. unfold dedup_step.
  destruct (forallb _ sol) eqn:E; [|assumption].
  apply FOP_snoc; [assumption|].
  rewrite forallb_forall in E. apply Forall_forall. intros a Ha.
  apply negb_true_iff. apply E. assumption.
Qed.

Lemma dedup_split prec pre x post :
  pre <> [] ->
  exists rest,
    dedup prec (pre ++ x :: post) =
    dedup prec pre
      ++ (if forallb (fun j => negb (solequal x j prec)) (dedup prec pre)
          then [x] else [])
      ++ rest.
Proof.
  destruct pre as [|r0 tl]; [congruence|]. intros _. simpl.
  rewrite fold_left_app. simpl.
  destruct (dedup_fold_prefix prec post
              (dedup_step prec (fold_left (dedup_step prec) tl [r0]) x))
    as [rest Hr].
  exists rest. rewrite Hr. unfold dedup_step.
  destruct (forallb _ _); simpl; [now rewrite <- app_assoc | reflexivity].
Qed.

Lemma triangulate_Return D prec all_pos sols :
  triangulate D prec all_pos = Return sols ->
  exists res,
    search D prec all_pos = Ok res
    /\ ((res = [] /\ sols = [])
        \/ (res <> [] /\ exists rot, rotate res = Ok rot
                                     /\ sols = dedup prec rot)).
Proof.
  unfold triangulate. destruct (distvalid D (prec / 3)); simpl;
    [|discriminate].
  destruct (search D prec all_pos) as [[|r rs]|e]; [| |discriminate].
  - intros H; inversion H; subst. exists []. split; [reflexivity|].
    left; split; reflexivity.
  - destruct (rotate (r :: rs)) as [rot|e] eqn:E; [|discriminate].
    intros H; inversion H; subst. exists (r :: rs). split; [reflexivity|].
    right. split; [discriminate|]. exists rot. split; [exact E | reflexivity].
Qed.

(** C7: the last loop of [triangulate] works on the rotated results; it
    keeps the first of them, and keeps each later one exactly when it equals
    none of the solutions kept before it, in the order of first appearance;
    no two kept solutions are equal.  [solequal] answers true exactly when
    at every index the two slots are both placed or both unplaced, and the
    two points are closer than [prec] wherever both are placed. *)
Theorem dedup_keeps_first_seen :
  forall prec res,
    subseq (dedup prec res) res
    /\ (forall r0 tl, res = r0 :: tl ->
                      exists out, dedup prec res = r0 :: out)
    /\ (forall pre x post,
          res = pre ++ x :: post -> pre <> [] ->
          exists rest,
            dedup prec res =
            dedup prec pre
              ++ (if forallb (fun j => negb (solequal x j prec))
                             (dedup prec pre)
                  then [x] else [])
              ++ rest)
    /\ ForallOrdPairs (fun a b => solequal b a prec = false) (dedup prec res)
    /\ (forall s1 s2,
          solequal s1 s2 prec = true <->
          (forall k, (k < length s1)%nat -> (k < length s2)%nat ->
                     agree prec (get s1 k) (get s2 k)))
    /\ (forall D all_pos sols,
          triangulate D prec all_pos = Return sols ->
          exists found rot,
            search D prec all_pos = Ok found /\ rotate found = Ok rot
            /\ sols = dedup prec rot).
Proof.
  intros prec res. split; [|split; [|split; [|split; [|split]]]].
  - destruct res as [|r0 tl]; simpl; [constructor|].
    apply (dedup_fold_subseq prec tl [r0] [r0]). apply subseq_refl.
  - intros r0 tl ->. simpl.
    destruct (dedup_fold_prefix prec tl [r0]) as [rest Hr].
    exists rest. rewrite Hr. reflexivity.
  - intros pre x post -> Hpre. apply dedup_split. assumption.
  - destruct res as [|r0 tl]; simpl; [constructor|].
    apply dedup_fold_distinct. repeat constructor.
  - intros s1 s2. apply solequal_true.
  - intros D all_pos sols H.
    apply triangulate_Return in H
      as [found [Hs [[-> ->]|[_ [rot [Hr ->]]]]]].
    + exists [], []. repeat split; assumption.
    + exists found, rot. repeat split; assumption.
Qed.

(** ** Geometry *)

Lemma sqrt_val x r : 0 <= r -> x = r * r -> sqrt x = r.
Proof. intros Hr ->. apply sqrt_square; assumption. Qed.

Lemma dist_val v w r :
  0 <= r ->
  (fst v - fst w) * (fst v - fst w) + (snd v - snd w) * (snd v - snd w)
  = r * r ->
  dist v w = r.
Proof. intros Hr H. unfold dist. apply sqrt_val; assumption. Qed.

Lemma dist_nonneg v w : 0 <= dist v w.
Proof. apply sqrt_pos. Qed.

Lemma dist_sqr v w :
  dist v w * dist v w =
  (fst v - fst w) * (fst v - fst w) + (snd v - snd w) * (snd v - snd w).
Proof.
  unfold dist. apply sqrt_sqrt.
  pose proof (Rle_0_sqr (fst v - fst w)).
  pose proof (Rle_0_sqr (snd v - snd w)).
  unfold Rsqr in *. lra.
Qed.

Lemma dist_sym v w : dist v w = dist w v.
Proof. unfold dist. f_equal. ring. Qed.

Lemma tranmat_ok pa pb :
  dist pa pb <> 0 ->
  exists A s, tranmat (Some pa) (Some pb) = Ok (Aff A s).
Proof.
  intros H. unfold tranmat. rewrite Reqb_false by assumption.
  eexists. eexists. reflexivity.
Qed.

Lemma tranmat_nan pa pb :
  dist pa pb = 0 -> tranmat (Some pa) (Some pb) = Ok NaNAff.
Proof.
  intros H. unfold tranmat. rewrite Reqb_true by assumption. reflexivity.
Qed.

(** The matrix of [tranmat] is a rotation, so [np.linalg.inv] succeeds and
    the composition of [affinef], [invtranmat] and [tranmat] that
    [pntcoord] calls [g] is [frame pa pb]. *)
Lemma tranmat_inv_frame pa pb A s :
  tranmat (Some pa) (Some pb) = Ok (Aff A s) ->
  dist pa pb <> 0 /\
  exists B t, invtranmat (Aff A s) = Ok (Aff B t)
              /\ forall q, image B t q = frame pa pb q.
Proof.
  unfold tranmat. pose proof (dist_sqr pa pb) as Hsq.
  destruct (Reqb (dist pa pb) 0) eqn:E; [discriminate|].
  assert (Hc : dist pa pb <> 0).
  { intros H. rewrite Reqb_true in E by assumption. discriminate. }
  intros H; inversion H; subst; clear H. split; [assumption|].
  set (c := dist pa pb) in *.
  unfold invtranmat, inv.
  assert (Hdet : det {| a00 := (fst pb - fst pa) / c;
                        a01 := (snd pb - snd pa) / c;
                        a10 := - (snd pb - snd pa) / c;
                        a11 := (fst pb - fst pa) / c |} = 1).
  { unfold det; simpl.
    replace (fst pa - fst pb) with (- (fst pb - fst pa)) in Hsq by ring.
    replace (snd pa - snd pb) with (- (snd pb - snd pa)) in Hsq by ring.
    field_simplify; [|assumption].
    apply (Rmult_eq_reg_r (c ^ 2)); [|apply pow_nonzero; assumption].
    field_simplify; [|assumption]. nra. }
  assert (Hu : ((fst pb - fst pa) / c) * ((fst pb - fst pa) / c)
               + ((snd pb - snd pa) / c) * ((snd pb - snd pa) / c) = 1).
  { unfold det in Hdet; simpl in Hdet. rewrite <- Hdet. field. assumption. }
  rewrite Hdet. rewrite Reqb_false by lra. simpl.
  eexists. eexists. split; [reflexivity|].
  intros [x y]. unfold image, frame, vadd, vneg, dot; simpl. fold c.
  set (ux := (fst pb - fst pa) / c) in *.
  set (uy := (snd pb - snd pa) / c) in *.
  replace (- (snd pb - snd pa) / c) with (- uy)
    by (unfold uy; field; assumption).
  f_equal.
  - transitivity ((ux * ux + uy * uy) * fst pa + ux * x - uy * y);
      [field | rewrite Hu; ring].
  - transitivity ((ux * ux + uy * uy) * snd pa + uy * x + ux * y);
      [field | rewrite Hu; ring].
Qed.

Lemma candidates_frame sol i n m D pa pb :
  get sol n = Some pa -> get sol m = Some pb -> dist pa pb <> 0 ->
  candidates sol i n m D =
  let x := xvalue (entry D i n) (entry D i m) (dist pa pb) in
  let ys := yvalue (entry D i n) (entry D i m) (dist pa pb) in
  Ok (Fin (frame pa pb (x, fst ys)), Fin (frame pa pb (x, snd ys)), ys).
Proof.
  intros Hn Hm Hc. unfold candidates. rewrite Hn, Hm.
  destruct (tranmat_ok pa pb Hc) as [A [s Ht]]. rewrite Ht. cbn [bind].
  destruct (tranmat_inv_frame pa pb A s Ht) as [_ [B [t [Hi Hg]]]].
  rewrite Hi. cbn [bind]. unfold dist_slot. simpl.
  destruct (yvalue _ _ _) as [y1 y2]. simpl. rewrite !Hg. reflexivity.
Qed.

(** With coinciding anchors both candidate positions hold nan. *)
Lemma candidates_nan sol i n m D pa pb :
  get sol n = Some pa -> get sol m = Some pb -> dist pa pb = 0 ->
  candidates sol i n m D =
  Ok (NaN, NaN, yvalue (entry D i n) (entry D i m) 0).
Proof.
  intros Hn Hm Hc. unfold candidates. rewrite Hn, Hm.
  rewrite (tranmat_nan pa pb Hc). cbn [bind invtranmat].
  unfold dist_slot. simpl arr. rewrite Hc.
  destruct (yvalue _ _ _) as [y1 y2]. reflexivity.
Qed.

(** ** The placer *)

Lemma pntcoord_short_contradiction :
  pntcoord sol_short 2 0 1 D_short 1 = Ok ([], Contradiction).
Proof.
  unfold pntcoord, dist_slot, entry, get; simpl.
  rewrite (dist_val (0, 0) (2, 0) 2) by (simpl; lra).
  rdecide. reflexivity.
Qed.

Lemma place_short :
  place sol_short 2 0 1 D_short 1 = Ok ([(1.1875, 0)], Placed).
Proof.
  assert (Hd : dist (0, 0) (2, 0) = 2) by (apply dist_val; simpl; lra).
  unfold place.
  rewrite (candidates_frame sol_short 2 0 1 D_short (0, 0) (2, 0))
    by (try reflexivity; rewrite Hd; lra).
  rewrite Hd. unfold entry. simpl nth.
  assert (Hy : yvalue 1 0.5 2 = (0, - 0))
    by (unfold yvalue; rdecide; reflexivity).
  rewrite Hy. cbv zeta. cbn [bind fst snd].
  assert (Hp : frame (0, 0) (2, 0) (xvalue 1 0.5 2, 0) = (1.1875, 0)).
  { unfold frame, xvalue. rewrite Hd. simpl. f_equal; lra. }
  assert (Hp' : frame (0, 0) (2, 0) (xvalue 1 0.5 2, - 0) = (1.1875, 0)).
  { unfold frame, xvalue. rewrite Hd. simpl. f_equal; lra. }
  rewrite Hp, Hp'.
  assert (Hv : valid sol_short 2 D_short 1 (Fin (1.1875, 0)) = true).
  { unfold valid, near, flt, fdist, get, entry, Rgtb. simpl.
    rewrite (dist_val (0, 0) (1.1875, 0) 1.1875) by (simpl; lra).
    rewrite (dist_val (2, 0) (1.1875, 0) 0.8125) by (simpl; lra).
    rewrite !Rabs_pos_eq by lra.
    rdecide. reflexivity. }
  rewrite Hv. simpl.
  replace (0 - - 0) with 0 by ring. rewrite Rabs_R0.
  rdecide. reflexivity.
Qed.

(** C2, as stated, fails: with a = 1, b = 0.5, c = 2 and prec = 1 the sum
    a + b = 1.5 is not below c - prec = 1, and the candidate position
    passes every validity check, yet [pntcoord] answers Contradiction. *)
Lemma pntcoord_triangle_test_without_tolerance :
  ~ (entry D_short 2 0 + entry D_short 2 1
     < dist_slot (get sol_short 0) (get sol_short 1) - 1)
  /\ pntcoord sol_short 2 0 1 D_short 1 = Ok ([], Contradiction)
  /\ place sol_short 2 0 1 D_short 1 = Ok ([(1.1875, 0)], Placed).
Proof.
  split; [|split; [apply pntcoord_short_contradiction | apply place_short]].
  unfold dist_slot, entry, get; simpl.
  rewrite (dist_val (0, 0) (2, 0) 2) by (simpl; lra). lra.
Qed.

(** C2, amended: when both distances to the anchors are known, the
    triangle test of [pntcoord] answers Contradiction exactly when
    a + b < c, with no tolerance; otherwise the answer is that of the
    validity checks. *)
Theorem pntcoord_triangle_test :
  forall sol i n m D prec,
    ~ entry D i n < -0.5 -> ~ entry D i m < -0.5 ->
    (entry D i n + entry D i m < dist_slot (get sol n) (get sol m) ->
     pntcoord sol i n m D prec = Ok ([], Contradiction))
    /\ (~ entry D i n + entry D i m < dist_slot (get sol n) (get sol m) ->
        pntcoord sol i n m D prec = place sol i n m D prec).
Proof.
  intros sol i n m D prec Hn Hm. unfold pntcoord.
  rewrite (Rltb_false (entry D i n)), (Rltb_false (entry D i m)) by lra.
  simpl. split; intros H.
  - rewrite Rltb_true by assumption. reflexivity.
  - rewrite Rltb_false by lra. reflexivity.
Qed.

Lemma pntcoord_triangle_test_witness :
  (~ entry D_short 2 0 < -0.5 /\ ~ entry D_short 2 1 < -0.5
   /\ entry D_short 2 0 + entry D_short 2 1
      < dist_slot (get sol_short 0) (get sol_short 1))
  /\ pntcoord sol_short 2 0 1 D_short 1 = Ok ([], Contradiction).
Proof.
  assert (H0 : ~ entry D_short 2 0 < -0.5) by (unfold entry; simpl; lra).
  assert (H1 : ~ entry D_short 2 1 < -0.5) by (unfold entry; simpl; lra).
  assert (Ht : entry D_short 2 0 + entry D_short 2 1
               < dist_slot (get sol_short 0) (get sol_short 1)).
  { unfold dist_slot, entry, get; simpl.
    rewrite (dist_val (0, 0) (2, 0) 2) by (simpl; lra). lra. }
  split; [repeat split; assumption|].
  exact (proj1 (pntcoord_triangle_test sol_short 2 0 1 D_short 1 H0 H1) Ht).
Defined.

(** ** Lists of slots *)

Lemma length_set s k v : length (set s k v) = length s.
Proof.
  revert k. induction s as [|a s IH]; intros [|k]; simpl; auto.
Qed.

Lemma get_set_same s k v : (k < length s)%nat -> get (set s k v) k = v.
Proof.
  unfold get. revert k. induction s as [|a s IH]; intros [|k] H; simpl in *;
    try lia; [reflexivity | apply IH; lia].
Qed.

Lemma get_set_other s k j v : j <> k -> get (set s k v) j = get s j.
Proof.
  unfold get. revert k j.
  induction s as [|a s IH]; intros [|k] [|j] H; simpl; try reflexivity;
    try congruence.
  apply IH. congruence.
Qed.

Lemma get_beyond {A} (s : list (option A)) k :
  (length s <= k)%nat -> get s k = None.
Proof. intros H. unfold get. apply nth_overflow. assumption. Qed.

Lemma nplaced_set s k p :
  (k < length s)%nat -> get s k = None ->
  nplaced (set s k (Some p)) = S (nplaced s).
Proof.
  unfold nplaced, get. revert k.
  induction s as [|a s IH]; intros [|k] Hk Hg; simpl in *; try lia.
  - subst a. reflexivity.
  - destruct (placed a); simpl; rewrite IH by (assumption || lia);
      reflexivity.
Qed.

Lemma nplaced_full {A} (s : list (option A)) k :
  nplaced s = length s -> (k < length s)%nat -> placed (get s k) = true.
Proof.
  unfold nplaced, get. revert k.
  induction s as [|a s IH]; intros k H Hk; simpl in *; [lia|].
  pose proof (filter_length_le placed s) as Hle.
  destruct (placed a) eqn:Ea; simpl in H; [|lia].
  destruct k as [|k]; [assumption|]. apply IH; lia.
Qed.

Lemma nplaced_repeat n : nplaced (repeat (None : slot) n) = O.
Proof. unfold nplaced. induction n; simpl; auto. Qed.

Lemma get_repeat n k : get (repeat (None : slot) n) k = None.
Proof.
  unfold get. revert k. induction n; intros [|k]; simpl; auto.
Qed.

Lemma in_indices f sol i :
  In i (indices f sol) <-> (i < length sol)%nat /\ f (get sol i) = true.
Proof.
  unfold indices. rewrite filter_In, in_seq. intuition lia.
Qed.

(** ** What the search adds to a solution *)

Lemma pntcoord_valid sol i n m D prec pts s :
  pntcoord sol i n m D prec = Ok (pts, s) ->
  forall p, In p pts -> valid sol i D prec (Fin p) = true.
Proof.
  unfold pntcoord.
  destruct (Rltb (entry D i n) (-0.5) || Rltb (entry D i m) (-0.5)).
  { intros H; inversion H; subst. contradiction. }
  destruct (Rltb _ (dist_slot _ _)).
  { intros H; inversion H; subst. contradiction. }
  unfold place.
  destruct (candidates sol i n m D) as [[[p1 p2] [y1 y2]]|e];
    simpl; [|discriminate].
  destruct (valid sol i D prec p1) eqn:E1;
    destruct (valid sol i D prec p2) eqn:E2;
    destruct (Rltb (Rabs (y1 - y2)) (prec / 4));
    destruct p1 as [q1|], p2 as [q2|]; simpl;
    intros H; inversion H; subst; simpl; intros p Hp;
    intuition (subst; assumption).
Qed.

Lemma addpoint_loop_ext sol i D prec ps res st out s :
  addpoint_loop sol i D prec ps res st = Ok (out, s) ->
  forall s', In s' out ->
    In s' res \/
    exists pnt, valid sol i D prec (Fin pnt) = true
                /\ s' = set sol i (Some pnt).
Proof.
  revert res st. induction ps as [|[n m] ps IH]; intros res st; simpl.
  - destruct st; [|discriminate]. intros H; inversion H; subst. auto.
  - destruct (pntcoord sol i n m D prec) as [[pts s0]|e] eqn:E; simpl;
      [|discriminate].
    pose proof (pntcoord_valid _ _ _ _ _ _ _ _ E) as Hv.
    destruct s0; simpl.
    + intros H; inversion H; subst. intros s' Hs'.
      apply in_app_or in Hs' as [Hs'|Hs']; [left; assumption|].
      apply in_map_iff in Hs' as [pnt [Hp Hin]]. right.
      exists pnt. split; [apply Hv; assumption | congruence].
    + apply IH.
    + intros H; inversion H; subst. auto.
Qed.

Lemma addpoint_ext sol i D prec out s :
  get sol i = None ->
  addpoint sol i D prec = Ok (out, s) ->
  forall s', In s' out ->
    exists pnt, valid sol i D prec (Fin pnt) = true
                /\ s' = set sol i (Some pnt).
Proof.
  intros Hg. unfold addpoint. rewrite Hg. simpl. intros H s' Hs'.
  destruct (addpoint_loop_ext _ _ _ _ _ _ _ _ _ H s' Hs') as [[]|Hp].
  assumption.
Qed.

Lemma addpoints_loop_ext sol D prec pleft res pf out s :
  (forall i, In i pleft -> (i < length sol)%nat /\ get sol i = None) ->
  addpoints_loop sol D prec pleft res pf = Ok (out, s) ->
  forall s', In s' out -> In s' res \/ extends D prec sol s'.
Proof.
  revert res pf. induction pleft as [|i pleft IH]; intros res pf Hp; simpl.
  - destruct pf; intros H; inversion H; subst; auto.
  - destruct (Hp i (or_introl eq_refl)) as [Hi Hg].
    assert (Hp' : forall j, In j pleft ->
                            (j < length sol)%nat /\ get sol j = None)
      by (intros j Hj; apply Hp; right; assumption).
    destruct (addpoint sol i D prec) as [[ires s0]|e] eqn:E; simpl;
      [|discriminate].
    pose proof (addpoint_ext _ _ _ _ _ _ Hg E) as Hext.
    destruct s0.
    + intros H s' Hs'.
      destruct (IH _ _ Hp' H s' Hs') as [Hin|Hex]; [|right; assumption].
      apply in_app_or in Hin as [Hin|Hin]; [left; assumption|].
      right. destruct (Hext s' Hin) as [pnt [Hv ->]].
      exact (extends_intro D prec sol _ i pnt Hi Hg Hv eq_refl).
    + apply IH. assumption.
    + intros H; inversion H; subst. intros s' [].
Qed.

Lemma addpoints_ext sol D prec out s :
  addpoints sol D prec = Ok (out, s) ->
  forall s', In s' out -> extends D prec sol s'.
Proof.
  unfold addpoints. intros H s' Hs'.
  assert (Hp : forall i,
             In i (indices (fun s => negb (placed s)) sol) ->
             (i < length sol)%nat /\ get sol i = None).
  { intros i Hi. apply in_indices in Hi as [Hi Hg]. split; [assumption|].
    destruct (get sol i); [discriminate | reflexivity]. }
  destruct (addpoints_loop_ext _ _ _ _ _ _ _ _ Hp H s' Hs') as [[]|Hex].
  assumption.
Qed.

Lemma members_loop_ext D prec res iterres out :
  members_loop D prec res iterres = Ok out ->
  forall s', In s' out ->
    In s' iterres \/ exists sol, In sol res /\ extends D prec sol s'.
Proof.
  revert iterres. induction res as [|sol res IH]; intros iterres; simpl.
  - intros H; inversion H; subst. auto.
  - destruct (addpoints sol D prec) as [[tmpres s]|e] eqn:E; simpl;
      [|discriminate].
    intros H s' Hs'.
    destruct (IH _ H s' Hs') as [Hin|[sol' [Hin Hex]]].
    + destruct s; simpl in Hin; auto.
      apply in_app_or in Hin as [Hin|Hin]; [left; assumption|].
      right. exists sol. split; [left; reflexivity|].
      apply (addpoints_ext _ _ _ _ _ E). assumption.
    + right. exists sol'. split; [right|]; assumption.
Qed.

Lemma passes_reach D prec k res out :
  passes D prec k res = Ok out ->
  forall s', In s' out -> exists s, In s res /\ reach D prec k s s'.
Proof.
  revert res. induction k as [|k IH]; intros res; simpl.
  - intros H; inversion H; subst. intros s' Hs'.
    exists s'. split; [assumption | constructor].
  - destruct (members_loop D prec res []) as [iterres|e] eqn:E; simpl;
      [|discriminate].
    destruct iterres as [|r iterres].
    + intros H; inversion H; subst. intros s' [].
    + intros H s' Hs'.
      destruct (IH _ H s' Hs') as [s1 [Hin Hr]].
      destruct (members_loop_ext _ _ _ _ _ E s1 Hin) as [[]|[s [Hs Hex]]].
      exists s. split; [assumption|]. econstructor; eassumption.
Qed.

Lemma triangulatesgl_reach D sp1 sp2 prec res :
  triangulatesgl D sp1 sp2 prec = Ok res ->
  forall s, In s res ->
    ~ entry D sp1 sp2 < -0.5
    /\ reach D prec (pntscount D - 2) (start D sp1 sp2) s.
Proof.
  unfold triangulatesgl. unfold Rltb.
  destruct (Rlt_dec (entry D sp1 sp2) (-0.5)) as [Hlt|Hge].
  - intros H; inversion H; subst. intros s [].
  - intros H s Hs. split; [assumption|].
    destruct (passes_reach _ _ _ _ _ H s Hs) as [s0 [[<-|[]] Hr]].
    assumption.
Qed.

Lemma reach_length D prec k s s' :
  reach D prec k s s' -> length s' = length s.
Proof.
  induction 1 as [|k s s1 s2 Hex _ IH]; [reflexivity|].
  rewrite IH. destruct Hex as [i pnt _ _ _ ->]. apply length_set.
Qed.

Lemma reach_nplaced D prec k s s' :
  reach D prec k s s' -> nplaced s' = (nplaced s + k)%nat.
Proof.
  induction 1 as [|k s s1 s2 Hex _ IH]; [lia|].
  rewrite IH. destruct Hex as [i pnt Hi Hg _ ->].
  rewrite nplaced_set by assumption. lia.
Qed.

Lemma start_length D sp1 sp2 : length (start D sp1 sp2) = pntscount D.
Proof. unfold start. now rewrite !length_set, repeat_length. Qed.

Lemma start_nplaced D sp1 sp2 :
  sp1 <> sp2 -> (sp1 < pntscount D)%nat -> (sp2 < pntscount D)%nat ->
  nplaced (start D sp1 sp2) = 2%nat.
Proof.
  intros Hne H1 H2. unfold start.
  rewrite nplaced_set.
  - rewrite nplaced_set; [now rewrite nplaced_repeat | |apply get_repeat].
    now rewrite repeat_length.
  - now rewrite length_set, repeat_length.
  - rewrite get_set_other by congruence. apply get_repeat.
Qed.

(** Every solution that [triangulatesgl] returns has all its points
    placed. *)
Lemma triangulatesgl_complete D sp1 sp2 prec res :
  sp1 <> sp2 -> (sp1 < pntscount D)%nat -> (sp2 < pntscount D)%nat ->
  triangulatesgl D sp1 sp2 prec = Ok res ->
  forall s, In s res ->
    length s = pntscount D
    /\ forall k, (k < pntscount D)%nat -> placed (get s k) = true.
Proof.
  intros Hne H1 H2 H s Hs.
  destruct (triangulatesgl_reach _ _ _ _ _ H s Hs) as [_ Hr].
  pose proof (reach_length _ _ _ _ _ Hr) as Hl.
  pose proof (reach_nplaced _ _ _ _ _ Hr) as Hn.
  rewrite start_length in Hl. rewrite start_nplaced in Hn by assumption.
  split; [assumption|]. intros k Hk.
  apply nplaced_full; unfold solution, slot, point in *; lia.
Qed.

(** ** The enumerator on a member that cannot make progress *)

Lemma addpoints_hole prec :
  addpoints (start D_hole 0 1) D_hole prec = Ok ([], Indeterminate).
Proof.
  unfold addpoints, indices, start, get. simpl.
  unfold addpoint, indices, anchor_pairs, get. simpl.
  unfold pntcoord, entry. simpl. rdecide. reflexivity.
Qed.

Lemma triangulatesgl_hole_01 prec : triangulatesgl D_hole 0 1 prec = Ok [].
Proof.
  unfold triangulatesgl.
  replace (Rltb (entry D_hole 0 1) (-0.5)) with false
    by (unfold entry; simpl; rdecide; reflexivity).
  simpl passes. rewrite addpoints_hole. reflexivity.
Qed.

Lemma distvalid_hole err : distvalid D_hole err = true.
Proof.
  unfold distvalid, entry, Rgtb, Rgeb. simpl. rdecide. reflexivity.
Qed.

Lemma triangulate_hole prec all_pos :
  triangulate D_hole prec all_pos = Return [].
Proof.
  unfold triangulate. rewrite distvalid_hole. simpl negb. cbv iota.
  unfold search. simpl seq. simpl outer_loop.
  rewrite triangulatesgl_hole_01. simpl.
  unfold triangulatesgl, entry; simpl. rdecide. simpl.
  destruct all_pos; simpl; rdecide; reflexivity.
Qed.

(** C4, as stated, fails: with only the distance between points 0 and 1
    known, the pass over the member [p0, p1, unplaced] places nothing and
    meets no contradiction (state 1), and the member does not survive:
    [triangulatesgl] and [triangulate] return the empty list. *)
Lemma stuck_member_is_discarded :
  addpoints (start D_hole 0 1) D_hole 1 = Ok ([], Indeterminate)
  /\ triangulatesgl D_hole 0 1 1 = Ok []
  /\ triangulate D_hole 1 true = Return [].
Proof.
  split; [apply addpoints_hole|].
  split; [apply triangulatesgl_hole_01 | apply triangulate_hole].
Qed.

(** ** From the results of [triangulate] back to the search *)

Lemma distvalid_sym D err i j :
  distvalid D err = true ->
  (i < pntscount D)%nat -> (j < pntscount D)%nat ->
  entry D i j = entry D j i.
Proof.
  unfold distvalid. intros H Hi Hj.
  apply andb_prop in H as [H _]. apply andb_prop in H as [H _].
  rewrite forallb_forall in H.
  specialize (H i (proj2 (in_seq _ _ _) (conj (Nat.le_0_l i) Hi))).
  rewrite forallb_forall in H.
  specialize (H j (proj2 (in_seq _ _ _) (conj (Nat.le_0_l j) Hj))).
  apply Reqb_iff. assumption.
Qed.

Lemma distvalid_diag D err i :
  distvalid D err = true -> (i < pntscount D)%nat -> entry D i i = 0.
Proof.
  unfold distvalid. intros H Hi.
  apply andb_prop in H as [H _]. apply andb_prop in H as [_ H].
  rewrite forallb_forall in H.
  specialize (H i (proj2 (in_seq _ _ _) (conj (Nat.le_0_l i) Hi))).
  apply Reqb_iff. assumption.
Qed.

Lemma first_success_in D prec es res :
  first_success D prec es = Ok res ->
  forall s, In s res ->
    exists i j r, In (i, j) es /\ triangulatesgl D i j prec = Ok r /\ In s r.
Proof.
  induction es as [|[i j] es IH]; simpl.
  - intros H; inversion H; subst. intros s [].
  - destruct (triangulatesgl D i j prec) as [r|e] eqn:E; simpl;
      [|discriminate].
    destruct r as [|r0 r]; simpl.
    + intros H s Hs. destruct (IH H s Hs) as [i' [j' [r' [Hin Hr]]]].
      exists i', j', r'. split; [right|]; assumption.
    + intros H; inversion H; subst. intros s Hs.
      exists i, j, (r0 :: r).
      repeat split; [left; reflexivity | assumption | assumption].
Qed.

Lemma all_results_in D prec es res :
  all_results D prec es = Ok res ->
  forall s, In s res ->
    exists i j r, In (i, j) es /\ triangulatesgl D i j prec = Ok r /\ In s r.
Proof.
  revert res. induction es as [|[i j] es IH]; intros res; simpl.
  - intros H; inversion H; subst. intros s [].
  - destruct (triangulatesgl D i j prec) as [r|e] eqn:E; simpl;
      [|discriminate].
    destruct (all_results D prec es) as [rs|e]; simpl; [|discriminate].
    intros H; inversion H; subst. intros s Hs.
    apply in_app_or in Hs as [Hs|Hs].
    + exists i, j, r.
      repeat split; [left; reflexivity | assumption | assumption].
    + destruct (IH rs eq_refl s Hs) as [i' [j' [r' [Hin Hr]]]].
      exists i', j', r'. split; [right|]; assumption.
Qed.

Lemma search_solve_spec D prec all_pos :
  search D prec all_pos = solve_spec D prec all_pos.
Proof.
  unfold search, solve_spec, edges. destruct all_pos.
  - rewrite outer_loop_all. simpl. apply bind_ret.
  - apply outer_loop_first.
Qed.

Lemma search_in D prec all_pos res :
  search D prec all_pos = Ok res ->
  forall s, In s res ->
    exists i j r,
      (i < j < pntscount D)%nat
      /\ triangulatesgl D i j prec = Ok r /\ In s r.
Proof.
  rewrite search_solve_spec. unfold solve_spec. intros H s Hs.
  assert (exists i j r,
             In (i, j) (edges (pntscount D))
             /\ triangulatesgl D i j prec = Ok r /\ In s r)
    as [i [j [r [Hin Hr]]]].
  { destruct all_pos;
      [eapply all_results_in | eapply first_success_in]; eassumption. }
  exists i, j, r. split; [apply in_edges|]; assumption.
Qed.

Lemma mapM_in {A B} (f : A -> exc B) l l' :
  mapM f l = Ok l' -> forall b, In b l' -> exists a, In a l /\ f a = Ok b.
Proof.
  revert l'. induction l as [|a l IH]; intros l'; simpl.
  - intros H; inversion H; subst. intros b [].
  - destruct (f a) as [b0|e] eqn:E; simpl; [|discriminate].
    destruct (mapM f l) as [bs|e]; simpl; [|discriminate].
    intros H; inversion H; subst. intros b [<-|Hb].
    + exists a. split; [left; reflexivity | assumption].
    + destruct (IH bs eq_refl b Hb) as [a' [Ha Hf]].
      exists a'. split; [right|]; assumption.
Qed.

Lemma get_map {A B} (f : option A -> option B) (s : list (option A)) k :
  (k < length s)%nat -> get (map f s) k = f (get s k).
Proof.
  unfold get. revert k. induction s as [|a s IH]; intros [|k] Hk;
    simpl in *; try lia; [reflexivity | apply IH; lia].
Qed.

(** What [rotate] does to one solution: points 0 and 1 are placed, and
    every slot is moved by the map of [tranmat]. *)
Lemma rotate1_spec s s' :
  rotate1 s = Ok s' ->
  exists pa pb g,
    get s 0 = Some pa /\ get s 1 = Some pb
    /\ tranmat (Some pa) (Some pb) = Ok g
    /\ s' = map (moved g) s.
Proof.
  unfold rotate1. destruct (length s <? 2)%nat; [discriminate|].
  destruct (tranmat (get s 0) (get s 1)) as [g|e] eqn:E; cbn [bind];
    [|discriminate].
  intros H.
  destruct (get s 0) as [pa|] eqn:E0;
    [|destruct (get s 1); discriminate].
  destruct (get s 1) as [pb|] eqn:E1; [|discriminate].
  exists pa, pb, g. repeat split; try assumption.
  inversion H; subst. reflexivity.
Qed.

Lemma subseq_In {A} (l1 l2 : list A) x : subseq l1 l2 -> In x l1 -> In x l2.
Proof.
  induction 1; simpl; intros Hx; [assumption | right; auto |].
  destruct Hx as [->|Hx]; [left; reflexivity | right; auto].
Qed.

Lemma dedup_subseq prec res : subseq (dedup prec res) res.
Proof.
  destruct res as [|r0 tl]; simpl; [constructor|].
  apply (dedup_fold_subseq prec tl [r0] [r0]). apply subseq_refl.
Qed.

(** Every solution that [triangulate] returns is the rotation of a
    solution that [triangulatesgl] returned for some starting edge. *)
Lemma triangulate_origin D prec all_pos sols s' :
  triangulate D prec all_pos = Return sols -> In s' sols ->
  distvalid D (prec / 3) = true
  /\ exists i j r s,
       (i < j < pntscount D)%nat
       /\ triangulatesgl D i j prec = Ok r /\ In s r
       /\ rotate1 s = Ok s'.
Proof.
  intros H Hs'.
  assert (Hv : distvalid D (prec / 3) = true).
  { destruct (distvalid D (prec / 3)) eqn:E; [reflexivity|].
    apply (triangulate_ValueError D prec all_pos) in E. congruence. }
  split; [assumption|].
  apply triangulate_Return in H as [res [Hsearch [[_ ->]|[_ [rot [Hr ->]]]]]].
  { destruct Hs'. }
  apply (subseq_In _ _ _ (dedup_subseq prec rot)) in Hs'.
  destruct (mapM_in _ _ _ Hr s' Hs') as [s [Hs Hrot]].
  destruct (search_in _ _ _ _ Hsearch s Hs) as [i [j [r [Hij [Ht Hin]]]]].
  exists i, j, r, s. repeat split; try assumption; lia.
Qed.

(** ** The validity invariant along the search *)

Lemma valid_spec sol i D prec pos :
  valid sol i D prec (Fin pos) = true ->
  forall k pk, get sol k = Some pk -> entry D i k > -0.5 ->
               Rabs (dist pk pos - entry D i k) < prec.
Proof.
  unfold valid. intros H k pk Hk Hd. rewrite forallb_forall in H.
  assert (Hlt : (k < length sol)%nat).
  { destruct (Nat.lt_ge_cases k (length sol)) as [Hlt|Hge]; [assumption|].
    rewrite get_beyond in Hk by assumption. discriminate. }
  specialize (H k (proj2 (in_seq _ _ _) (conj (Nat.le_0_l k) Hlt))).
  rewrite Hk in H. unfold Rgtb in H. rewrite Rltb_true in H by lra.
  apply Rltb_iff. assumption.
Qed.

(** A position that holds nan fails every test of the loop: it is valid
    only when no test is made. *)
Lemma valid_nan sol i D prec :
  valid sol i D prec NaN = true ->
  forall k pk, get sol k = Some pk -> ~ entry D i k > -0.5.
Proof.
  unfold valid. intros H k pk Hk Hd. rewrite forallb_forall in H.
  assert (Hlt : (k < length sol)%nat).
  { destruct (Nat.lt_ge_cases k (length sol)) as [Hlt|Hge]; [assumption|].
    rewrite get_beyond in Hk by assumption. discriminate. }
  specialize (H k (proj2 (in_seq _ _ _) (conj (Nat.le_0_l k) Hlt))).
  rewrite Hk in H. unfold Rgtb in H. rewrite Rltb_true in H by lra.
  discriminate.
Qed.

Lemma dist_same p : dist p p = 0.
Proof. apply dist_val; [lra | ring]. Qed.

Lemma dist_zero_iff p q : dist p q = 0 <-> p = q.
Proof.
  split.
  - intros H. pose proof (dist_sqr p q) as Hs. rewrite H in Hs.
    destruct p as [p0 p1], q as [q0 q1]. simpl in Hs.
    pose proof (Rle_0_sqr (p0 - q0)) as H0.
    pose proof (Rle_0_sqr (p1 - q1)) as H1. unfold Rsqr in H0, H1.
    assert (E0 : (p0 - q0) * (p0 - q0) = 0) by lra.
    assert (E1 : (p1 - q1) * (p1 - q1) = 0) by lra.
    apply Rmult_integral in E0. apply Rmult_integral in E1.
    f_equal; lra.
  - intros ->. apply dist_same.
Qed.

Lemma get_Some_lt {A} (s : list (option A)) k p :
  get s k = Some p -> (k < length s)%nat.
Proof.
  intros H. destruct (Nat.lt_ge_cases k (length s)) as [Hlt|Hge];
    [assumption|].
  rewrite get_beyond in H by assumption. discriminate.
Qed.

Section Invariant.

Variables (D : matrix) (prec : R).
Hypothesis prec_pos : 0 < prec.
Hypothesis sym :
  forall i j, (i < pntscount D)%nat -> (j < pntscount D)%nat ->
              entry D i j = entry D j i.
Hypothesis diag : forall i, (i < pntscount D)%nat -> entry D i i = 0.

Lemma start_consistent sp1 sp2 :
  sp1 <> sp2 -> (sp1 < pntscount D)%nat -> (sp2 < pntscount D)%nat ->
  consistent D prec (start D sp1 sp2).
Proof.
  intros Hne H1 H2 i j pi pj Hi Hj Hd.
  assert (Hg : forall k p,
             get (start D sp1 sp2) k = Some p ->
             (k = sp1 /\ p = (0, 0))
             \/ (k = sp2 /\ p = (entry D sp1 sp2, 0))).
  { intros k p. unfold start.
    destruct (Nat.eq_dec k sp2) as [->|Hk2].
    - rewrite get_set_same by (rewrite length_set, repeat_length; lia).
      intros H; inversion H; subst. right. split; reflexivity.
    - rewrite get_set_other by assumption.
      destruct (Nat.eq_dec k sp1) as [->|Hk1].
      + rewrite get_set_same by (rewrite repeat_length; lia).
        intros H; inversion H; subst. left. split; reflexivity.
      + rewrite get_set_other by assumption. rewrite get_repeat.
        discriminate. }
  destruct (Hg i pi Hi) as [[-> ->]|[-> ->]];
    destruct (Hg j pj Hj) as [[-> ->]|[-> ->]].
  - rewrite dist_same, diag by assumption.
    replace (0 - 0) with 0 by ring. rewrite Rabs_R0. assumption.
  - rewrite (dist_val (0, 0) (entry D sp1 sp2, 0) (entry D sp1 sp2))
      by (simpl; lra || ring).
    replace (entry D sp1 sp2 - entry D sp1 sp2) with 0 by ring.
    rewrite Rabs_R0. assumption.
  - rewrite (sym sp2 sp1) in * by assumption.
    rewrite (dist_val (entry D sp1 sp2, 0) (0, 0) (entry D sp1 sp2))
      by (simpl; lra || ring).
    replace (entry D sp1 sp2 - entry D sp1 sp2) with 0 by ring.
    rewrite Rabs_R0. assumption.
  - rewrite dist_same, diag by assumption.
    replace (0 - 0) with 0 by ring. rewrite Rabs_R0. assumption.
Qed.

Lemma extends_consistent sol s' :
  length sol = pntscount D ->
  consistent D prec sol -> extends D prec sol s' -> consistent D prec s'.
Proof.
  intros Hlen Hc [i0 pnt Hi0 Hg0 Hv ->] i j pi pj Hi Hj Hd.
  pose proof (get_Some_lt _ _ _ Hi) as Hil.
  pose proof (get_Some_lt _ _ _ Hj) as Hjl.
  rewrite length_set in Hil, Hjl.
  destruct (Nat.eq_dec i i0) as [->|Hni];
    destruct (Nat.eq_dec j i0) as [->|Hnj].
  - rewrite get_set_same in Hi, Hj by assumption.
    inversion Hi; inversion Hj; subst.
    rewrite dist_same, diag by lia.
    replace (0 - 0) with 0 by ring. rewrite Rabs_R0. assumption.
  - rewrite get_set_same in Hi by assumption.
    rewrite get_set_other in Hj by assumption.
    inversion Hi; subst. rewrite dist_sym.
    apply (valid_spec _ _ _ _ _ Hv j pj Hj). lra.
  - rewrite get_set_same in Hj by assumption.
    rewrite get_set_other in Hi by assumption.
    inversion Hj; subst. rewrite (sym i i0) in * by lia.
    apply (valid_spec _ _ _ _ _ Hv i pi Hi). lra.
  - rewrite get_set_other in Hi, Hj by assumption.
    apply Hc; assumption.
Qed.

Lemma reach_consistent k s s' :
  length s = pntscount D ->
  consistent D prec s -> reach D prec k s s' -> consistent D prec s'.
Proof.
  intros Hlen Hc Hr. induction Hr as [|k s s1 s2 Hex Hr IH];
    [assumption|].
  apply IH.
  - destruct Hex as [i pnt _ _ _ ->]. now rewrite length_set.
  - apply (extends_consistent s); assumption.
Qed.

End Invariant.

(** ** The rotation *)

(** The rotation matrix of [tranmat] has unit columns. *)
Lemma tranmat_unit pa pb A sv :
  tranmat (Some pa) (Some pb) = Ok (Aff A sv) ->
  0 < dist pa pb
  /\ a00 A * a00 A + a01 A * a01 A = 1
  /\ a10 A = - a01 A /\ a11 A = a00 A
  /\ a00 A * dist pa pb = fst pb - fst pa
  /\ a01 A * dist pa pb = snd pb - snd pa
  /\ sv = vneg (dot A pa).
Proof.
  unfold tranmat. pose proof (dist_sqr pa pb) as Hsq.
  pose proof (dist_nonneg pa pb) as Hnn.
  destruct (Reqb (dist pa pb) 0) eqn:E; [discriminate|].
  assert (Hc : dist pa pb <> 0).
  { intros H. rewrite Reqb_true in E by assumption. discriminate. }
  intros H; inversion H; subst; clear H. simpl.
  set (c := dist pa pb) in *.
  replace (fst pa - fst pb) with (- (fst pb - fst pa)) in Hsq by ring.
  replace (snd pa - snd pb) with (- (snd pb - snd pa)) in Hsq by ring.
  repeat split; try lra; try (field; assumption).
  apply (Rmult_eq_reg_r (c * c)); [|nra].
  field_simplify; [|assumption]. nra.
Qed.

(** [tranmat] returns nan exactly when the two points coincide. *)
Lemma tranmat_cases pa pb :
  (pa <> pb /\ exists A sv, tranmat (Some pa) (Some pb) = Ok (Aff A sv))
  \/ (pa = pb /\ tranmat (Some pa) (Some pb) = Ok NaNAff).
Proof.
  destruct (Req_dec_T (dist pa pb) 0) as [H|H].
  - right. split; [apply dist_zero_iff; assumption|].
    apply tranmat_nan; assumption.
  - left. split; [|apply tranmat_ok; assumption].
    intros E. apply H. apply dist_zero_iff. assumption.
Qed.

Lemma affinef_isometry pa pb A sv p q :
  tranmat (Some pa) (Some pb) = Ok (Aff A sv) ->
  dist (image A sv p) (image A sv q) = dist p q.
Proof.
  intros H.
  destruct (tranmat_unit _ _ _ _ H) as [_ [Hu [H10 [H11 _]]]].
  unfold dist, image, vadd, dot. simpl. rewrite H10, H11.
  f_equal.
  set (u := a00 A) in *. set (v := a01 A) in *.
  transitivity ((u * u + v * v)
                * ((fst p - fst q) * (fst p - fst q)
                   + (snd p - snd q) * (snd p - snd q)));
    [ring | rewrite Hu; ring].
Qed.

Lemma affinef_anchors pa pb A sv :
  tranmat (Some pa) (Some pb) = Ok (Aff A sv) ->
  image A sv pa = (0, 0) /\ image A sv pb = (dist pa pb, 0).
Proof.
  intros H.
  destruct (tranmat_unit _ _ _ _ H) as [Hpos [Hu [H10 [H11 [Hx [Hy ->]]]]]].
  unfold image, vadd, vneg, dot. simpl. rewrite H10, H11.
  set (u := a00 A) in *. set (v := a01 A) in *.
  split; f_equal; try ring.
  - transitivity (u * (fst pb - fst pa) + v * (snd pb - snd pa)); [ring|].
    rewrite <- Hx, <- Hy.
    transitivity ((u * u + v * v) * dist pa pb); [ring | rewrite Hu; ring].
  - transitivity (u * (snd pb - snd pa) - v * (fst pb - fst pa)); [ring|].
    rewrite <- Hx, <- Hy. ring.
Qed.

Lemma get_fin s k : get (fin s) k = option_map pt (get s k).
Proof.
  unfold fin, get. revert k.
  induction s as [|a s IH]; intros [|k]; simpl; auto.
Qed.

Lemma all_placed_Forall (s : solution) :
  (forall k, (k < length s)%nat -> placed (get s k) = true) ->
  Forall (fun e => placed e = true) s.
Proof.
  intros H. apply Forall_forall. intros x Hx.
  apply (In_nth _ _ None) in Hx as [k [Hk <-]]. apply H. assumption.
Qed.

(** [rotate] on a solution whose slots are all placed: a rigid motion of
    every point when points 0 and 1 are distinct, nan in every slot when
    they coincide. *)
Lemma rotate1_cases s s' :
  rotate1 s = Ok s' ->
  Forall (fun e => placed e = true) s ->
  exists pa pb,
    get s 0 = Some pa /\ get s 1 = Some pb
    /\ ((pa <> pb
         /\ exists A sv,
              tranmat (Some pa) (Some pb) = Ok (Aff A sv)
              /\ s' = fin (map (option_map (image A sv)) s))
        \/ (pa = pb /\ s' = map (fun _ => Some (Vec NaN)) s)).
Proof.
  intros H Hall.
  destruct (rotate1_spec _ _ H) as [pa [pb [g [H0 [H1 [Ht ->]]]]]].
  exists pa, pb. split; [assumption|]. split; [assumption|].
  destruct (tranmat_cases pa pb) as [[Hne [A [sv HA]]]|[He HN]].
  - left. split; [assumption|]. exists A, sv. split; [assumption|].
    rewrite HA in Ht. inversion Ht; subst. unfold fin. rewrite map_map.
    apply map_ext_in. intros e He. rewrite Forall_forall in Hall.
    specialize (Hall e He). destruct e as [p|]; [reflexivity|discriminate].
  - right. split; [assumption|].
    rewrite HN in Ht. inversion Ht; subst.
    apply map_ext_in. intros e He'. rewrite Forall_forall in Hall.
    specialize (Hall e He'). destruct e as [p|]; [reflexivity|discriminate].
Qed.

Lemma rotate1_consistent D prec s s' :
  rotate1 s = Ok s' -> consistent D prec s -> rconsistent D prec s'.
Proof.
  intros H Hc i j pi pj Hi Hj Hd.
  destruct (rotate1_spec _ _ H) as [pa [pb [g [_ [_ [Ht ->]]]]]].
  pose proof (get_Some_lt _ _ _ Hi) as Hil.
  pose proof (get_Some_lt _ _ _ Hj) as Hjl.
  rewrite length_map in Hil, Hjl.
  assert (Gi : get (map (moved g) s) i = moved g (get s i))
    by (apply get_map; assumption).
  assert (Gj : get (map (moved g) s) j = moved g (get s j))
    by (apply get_map; assumption).
  rewrite Gi in Hi. rewrite Gj in Hj.
  destruct (get s i) as [qi|] eqn:Ei;
    [|destruct g; discriminate].
  destruct (get s j) as [qj|] eqn:Ej;
    [|destruct g; discriminate].
  destruct g as [A sv|]; [|discriminate].
  simpl in Hi, Hj. inversion Hi; inversion Hj; subst.
  rewrite (affinef_isometry _ _ _ _ _ _ Ht).
  apply (Hc i j); assumption.
Qed.

Lemma all_finite_fin (s : solution) :
  Forall (fun e => placed e = true) s -> all_finite (fin s).
Proof.
  intros H. unfold all_finite, fin. apply Forall_map.
  apply (Forall_impl _ (P := fun e : slot => placed e = true)); [|assumption].
  intros [p|] Hp; [|discriminate]. exists p. reflexivity.
Qed.

Lemma all_nan_map (s : solution) :
  all_nan (map (fun _ => Some (Vec NaN)) s).
Proof.
  unfold all_nan. apply Forall_map. apply Forall_forall. intros e _.
  exists (Vec NaN). split; reflexivity.
Qed.

(** Every solution that [triangulate] returns is the rotation of a
    fully placed solution of the search. *)
Lemma triangulate_rotated D prec all_pos sols s' :
  triangulate D prec all_pos = Return sols -> In s' sols ->
  exists s pa pb,
    rotate1 s = Ok s'
    /\ length s = pntscount D
    /\ Forall (fun e => placed e = true) s
    /\ get s 0 = Some pa /\ get s 1 = Some pb
    /\ ((pa <> pb
         /\ exists A sv,
              tranmat (Some pa) (Some pb) = Ok (Aff A sv)
              /\ s' = fin (map (option_map (image A sv)) s))
        \/ (pa = pb /\ s' = map (fun _ => Some (Vec NaN)) s)).
Proof.
  intros H Hs'.
  destruct (triangulate_origin _ _ _ _ _ H Hs')
    as [_ [i0 [j0 [r [s [Hij [Ht [Hin Hrot]]]]]]]].
  destruct (triangulatesgl_complete D i0 j0 prec r
              ltac:(lia) ltac:(lia) ltac:(lia) Ht s Hin) as [Hl Hall].
  assert (HF : Forall (fun e => placed e = true) s)
    by (apply all_placed_Forall; rewrite Hl; assumption).
  destruct (rotate1_cases _ _ Hrot HF) as [pa [pb [H0 [H1 Hc]]]].
  exists s, pa, pb. repeat split; assumption.
Qed.

(** C1, amended: for a positive tolerance, every solution that
    [triangulate] returns holds finite points in all its slots, or nan in
    all of them (points 0 and 1 coincided before the rotation); any two
    finite points whose distance in the matrix is not negative lie at that
    distance within [prec]. *)
Theorem triangulate_solutions_respect_distances :
  forall D prec all_pos sols,
    0 < prec ->
    triangulate D prec all_pos = Return sols ->
    forall s, In s sols ->
      (all_finite s \/ all_nan s)
      /\ forall i j pi pj,
           get s i = Some (pt pi) -> get s j = Some (pt pj) ->
           0 <= entry D i j ->
           Rabs (dist pi pj - entry D i j) < prec.
Proof.
  intros D prec all_pos sols Hp H s' Hs'. split.
  - destruct (triangulate_rotated _ _ _ _ _ H Hs')
      as [s [pa [pb [_ [_ [HF [_ [_ [[_ [A [sv [_ ->]]]]|[_ ->]]]]]]]]]].
    + left. apply all_finite_fin.
      apply Forall_map.
      apply (Forall_impl _ (P := fun e : slot => placed e = true));
        [|assumption].
      intros [p|] Hpl; [reflexivity | discriminate].
    + right. apply all_nan_map.
  - destruct (triangulate_origin _ _ _ _ _ H Hs')
      as [Hv [i0 [j0 [r [s [Hij [Ht [Hin Hrot]]]]]]]].
    assert (Hsym := fun i j => distvalid_sym D (prec / 3) i j Hv).
    assert (Hdiag := fun i => distvalid_diag D (prec / 3) i Hv).
    destruct (triangulatesgl_reach _ _ _ _ _ Ht s Hin) as [_ Hr].
    apply (rotate1_consistent D prec s s' Hrot).
    apply (reach_consistent D prec Hp Hsym Hdiag (pntscount D - 2)
             (start D i0 j0) s (start_length D i0 j0)); [|exact Hr].
    apply start_consistent; try assumption; lia.
Qed.

(** C5: every solution that [triangulate] returns is the image under
    [rotate] of a solution of the search; when points 0 and 1 of that one
    are distinct, point 0 lies at the origin and point 1 on the x-axis, at
    their distance, which is positive; when they coincide, [rotate]
    divides by zero and every slot holds nan.  So a returned solution is
    in the canonical frame or holds nan in every slot. *)
Theorem triangulate_canonical_frame :
  forall D prec all_pos sols,
    triangulate D prec all_pos = Return sols ->
    forall s, In s sols ->
      (exists s0 pa pb,
          rotate1 s0 = Ok s
          /\ get s0 0 = Some pa /\ get s0 1 = Some pb
          /\ (pa <> pb ->
              get s 0 = Some (pt (0, 0))
              /\ exists x, get s 1 = Some (pt (x, 0)) /\ 0 < x)
          /\ (pa = pb -> all_nan s))
      /\ ((get s 0 = Some (pt (0, 0))
           /\ exists x, get s 1 = Some (pt (x, 0)) /\ 0 < x)
          \/ all_nan s).
Proof.
  intros D prec all_pos sols H s' Hs'.
  assert (Hex : exists s0 pa pb,
            rotate1 s0 = Ok s'
            /\ get s0 0 = Some pa /\ get s0 1 = Some pb
            /\ (pa <> pb ->
                get s' 0 = Some (pt (0, 0))
                /\ exists x, get s' 1 = Some (pt (x, 0)) /\ 0 < x)
            /\ (pa = pb -> all_nan s'));
    [|split; [exact Hex|];
      destruct Hex as [s0 [pa [pb [_ [_ [_ [Hd He]]]]]]];
      destruct (Req_dec_T (fst pa) (fst pb)) as [E1|N1];
      [destruct (Req_dec_T (snd pa) (snd pb)) as [E2|N2];
       [right; apply He; destruct pa, pb; simpl in *; congruence
       |left; apply Hd; congruence]
      |left; apply Hd; congruence]].
  destruct (triangulate_rotated _ _ _ _ _ H Hs')
    as [s [pa [pb [Hrot [_ [_ [H0 [H1 Hc]]]]]]]].
  exists s, pa, pb. split; [assumption|]. split; [assumption|].
  split; [assumption|].
  destruct Hc as [[Hne [A [sv [Ht ->]]]]|[He ->]].
  - split; [|intros E; contradiction].
    intros _.
    destruct (affinef_anchors _ _ _ _ Ht) as [Ha Hb].
    destruct (tranmat_unit _ _ _ _ Ht) as [Hpos _].
    rewrite !get_fin.
    assert (G0 : get (map (option_map (image A sv)) s) 0
                 = Some (image A sv pa)).
    { destruct s as [|e0 s]; [discriminate H0|].
      unfold get in *. simpl in *. rewrite H0. reflexivity. }
    assert (G1 : get (map (option_map (image A sv)) s) 1
                 = Some (image A sv pb)).
    { destruct s as [|e0 [|e1 s]]; try discriminate H1.
      unfold get in *. simpl in *. rewrite H1. reflexivity. }
    rewrite G0, G1, Ha, Hb. simpl. split; [reflexivity|].
    exists (dist pa pb). split; [reflexivity | assumption].
  - split; [intros Hne; contradiction|]. intros _. apply all_nan_map.
Qed.

(** ** The 3-4-5 triangle *)

Lemma distvalid_3_4_5 err : distvalid D_3_4_5 err = true.
Proof.
  pose proof (Rabs_pos err).
  unfold distvalid, entry, Rgtb, Rgeb. simpl. rdecide. reflexivity.
Qed.

Lemma yvalue_5_4_3 : yvalue 5 4 3 = (4, -4).
Proof.
  unfold yvalue. rdecide. simpl orb. cbv iota zeta.
  rewrite Rmax_left by lra.
  rewrite (sqrt_val _ 24) by lra.
  f_equal; lra.
Qed.

Lemma pntcoord_3_4_5 prec :
  0 < prec <= 32 ->
  pntcoord s345_start 2 0 1 D_3_4_5 prec = Ok ([(3, 4); (3, -4)], Placed).
Proof.
  intros Hp.
  assert (Hd : dist (0, 0) (3, 0) = 3) by (apply dist_val; simpl; lra).
  unfold pntcoord, dist_slot, entry, get. simpl nth. simpl arr.
  rewrite Hd. rdecide. simpl orb. cbv iota.
  unfold place.
  rewrite (candidates_frame s345_start 2 0 1 D_3_4_5 (0, 0) (3, 0))
    by (try reflexivity; rewrite Hd; lra).
  rewrite Hd. unfold entry. simpl nth.
  rewrite yvalue_5_4_3. cbv zeta. cbn [bind fst snd].
  assert (Hp1 : frame (0, 0) (3, 0) (xvalue 5 4 3, 4) = (3, 4)).
  { unfold frame, xvalue. rewrite Hd. simpl. f_equal; lra. }
  assert (Hp2 : frame (0, 0) (3, 0) (xvalue 5 4 3, -4) = (3, -4)).
  { unfold frame, xvalue. rewrite Hd. simpl. f_equal; lra. }
  rewrite Hp1, Hp2.
  assert (Hv1 : valid s345_start 2 D_3_4_5 prec (Fin (3, 4)) = true).
  { unfold valid, near, flt, fdist, get, entry, Rgtb. simpl.
    rewrite (dist_val (0, 0) (3, 4) 5) by (simpl; lra).
    rewrite (dist_val (3, 0) (3, 4) 4) by (simpl; lra).
    replace (5 - 5) with 0 by ring. replace (4 - 4) with 0 by ring.
    rewrite Rabs_R0. rdecide. reflexivity. }
  assert (Hv2 : valid s345_start 2 D_3_4_5 prec (Fin (3, -4)) = true).
  { unfold valid, near, flt, fdist, get, entry, Rgtb. simpl.
    rewrite (dist_val (0, 0) (3, -4) 5) by (simpl; lra).
    rewrite (dist_val (3, 0) (3, -4) 4) by (simpl; lra).
    replace (5 - 5) with 0 by ring. replace (4 - 4) with 0 by ring.
    rewrite Rabs_R0. rdecide. reflexivity. }
  rewrite Hv1, Hv2. simpl.
  replace (4 - -4) with 8 by ring. rewrite Rabs_pos_eq by lra.
  rdecide. reflexivity.
Qed.

Lemma triangulatesgl_3_4_5 prec :
  0 < prec <= 32 ->
  triangulatesgl D_3_4_5 0 1 prec = Ok [s345_up; s345_down].
Proof.
  intros Hp. unfold triangulatesgl.
  replace (Rltb (entry D_3_4_5 0 1) (-0.5)) with false
    by (unfold entry; simpl; rdecide; reflexivity).
  change (start D_3_4_5 0 1) with s345_start.
  simpl passes.
  unfold addpoints, indices. simpl.
  unfold addpoint, indices, anchor_pairs. simpl.
  rewrite (pntcoord_3_4_5 prec Hp). reflexivity.
Qed.

Lemma toframe_image pa pb A sv q :
  tranmat (Some pa) (Some pb) = Ok (Aff A sv) ->
  image A sv q = toframe pa pb q.
Proof.
  unfold tranmat. destruct (Reqb (dist pa pb) 0) eqn:E; [discriminate|].
  assert (Hc : dist pa pb <> 0).
  { intros H. rewrite Reqb_true in E by assumption. discriminate. }
  intros H; inversion H; subst; clear H.
  destruct q as [x y]. unfold image, toframe, vadd, vneg, dot. simpl.
  f_equal; field; assumption.
Qed.

Lemma two_slots (s : solution) p :
  get s 1 = Some p -> (length s <? 2)%nat = false.
Proof.
  intros H. apply Nat.ltb_ge.
  destruct s as [|a [|b s]]; try discriminate H. simpl. lia.
Qed.

Lemma rotate1_toframe (s : solution) pa pb :
  get s 0 = Some pa -> get s 1 = Some pb -> dist pa pb <> 0 ->
  Forall (fun e => placed e = true) s ->
  rotate1 s = Ok (fin (map (option_map (toframe pa pb)) s)).
Proof.
  intros H0 H1 Hc Hall.
  pose proof (two_slots s _ H1) as Hlen.
  destruct (tranmat_ok pa pb Hc) as [A [sv Ht]].
  unfold rotate1. rewrite Hlen, H0, H1. unfold point in *. rewrite Ht.
  cbn [bind]. f_equal. unfold fin. rewrite map_map.
  apply map_ext_in. intros e He. rewrite Forall_forall in Hall.
  specialize (Hall e He). destruct e as [p|]; [|discriminate].
  simpl. unfold pt. rewrite (toframe_image _ _ _ _ p Ht). reflexivity.
Qed.

(** With coinciding points 0 and 1, [rotate] fills the solution with
    nan. *)
Lemma rotate1_nan (s : solution) p :
  get s 0 = Some p -> get s 1 = Some p ->
  Forall (fun e => placed e = true) s ->
  rotate1 s = Ok (map (fun _ => Some (Vec NaN)) s).
Proof.
  intros H0 H1 Hall.
  pose proof (two_slots s _ H1) as Hlen.
  pose proof (tranmat_nan p p (dist_same p)) as Ht.
  unfold rotate1. rewrite Hlen, H0, H1. unfold point in *. rewrite Ht.
  cbn [bind]. f_equal.
  apply map_ext_in. intros e He. rewrite Forall_forall in Hall.
  specialize (Hall e He). destruct e as [q|]; [reflexivity|discriminate].
Qed.

(** [rotate] leaves a solution that is already in the canonical frame as
    it is. *)
Lemma rotate1_canonical (s : solution) c :
  get s 0 = Some (0, 0) -> get s 1 = Some (c, 0) -> 0 < c ->
  Forall (fun e => placed e = true) s ->
  rotate1 s = Ok (fin s).
Proof.
  intros H0 H1 Hc Hall.
  assert (Hd : dist (0, 0) (c, 0) = c)
    by (apply dist_val; simpl; lra || ring).
  rewrite (rotate1_toframe s (0, 0) (c, 0)); try assumption;
    [|rewrite Hd; lra].
  f_equal. f_equal. rewrite <- (map_id s) at 2.
  apply map_ext. intros [[x y]|]; [|reflexivity]. simpl. f_equal.
  unfold toframe. rewrite Hd. simpl. f_equal; field; lra.
Qed.

Lemma dedup_3_4_5 prec :
  0 < prec <= 8 ->
  dedup prec [fin s345_up; fin s345_down] = [fin s345_up; fin s345_down].
Proof.
  intros Hp. unfold dedup, dedup_step, solequal. simpl.
  rewrite (dist_val (0, 0) (0, 0) 0) by (simpl; lra).
  rewrite (dist_val (3, 0) (3, 0) 0) by (simpl; lra).
  rewrite (dist_val (3, -4) (3, 4) 8) by (simpl; lra).
  rdecide. reflexivity.
Qed.

Lemma triangulate_3_4_5 prec :
  0 < prec <= 8 ->
  triangulate D_3_4_5 prec false = Return [fin s345_up; fin s345_down].
Proof.
  intros Hp. unfold triangulate. rewrite distvalid_3_4_5.
  simpl negb. cbv iota.
  unfold search. simpl seq. simpl outer_loop.
  rewrite triangulatesgl_3_4_5 by lra.
  cbn [bind app nonempty negb andb]. unfold rotate. cbn [mapM].
  rewrite (rotate1_canonical s345_up 3), (rotate1_canonical s345_down 3);
    try reflexivity; try lra; try (repeat constructor).
  cbn [bind]. rewrite dedup_3_4_5 by assumption. reflexivity.
Qed.

(** *** The other two starting edges, for the exhaustive search *)

Lemma frame_xaxis c q : 0 < c -> frame (0, 0) (c, 0) q = q.
Proof.
  intros Hc. unfold frame.
  rewrite (dist_val (0, 0) (c, 0) c) by (simpl; lra || ring).
  destruct q as [x y]. simpl. f_equal; field; lra.
Qed.

Lemma yvalue_3_4_5 : yvalue 3 4 5 = (2.4, -2.4).
Proof.
  unfold yvalue. rdecide. simpl orb. cbv iota zeta.
  rewrite Rmax_left by lra.
  rewrite (sqrt_val _ 24) by lra.
  f_equal; lra.
Qed.

Lemma yvalue_3_5_4 : yvalue 3 5 4 = (3, -3).
Proof.
  unfold yvalue. rdecide. simpl orb. cbv iota zeta.
  rewrite Rmax_left by lra.
  rewrite (sqrt_val _ 24) by lra.
  f_equal; lra.
Qed.

Lemma pntcoord_3_4_5_edge_02 prec :
  0 < prec <= 8 ->
  pntcoord [Some (0, 0); None; Some (5, 0)] 1 0 2 D_3_4_5 prec
  = Ok ([(1.8, 2.4); (1.8, -2.4)], Placed).
Proof.
  intros Hp.
  assert (Hd : dist (0, 0) (5, 0) = 5) by (apply dist_val; simpl; lra).
  unfold pntcoord, dist_slot, entry, get. simpl nth. simpl arr.
  rewrite Hd. rdecide. simpl orb. cbv iota.
  unfold place.
  rewrite (candidates_frame _ 1 0 2 D_3_4_5 (0, 0) (5, 0))
    by (try reflexivity; rewrite Hd; lra).
  rewrite Hd. unfold entry. simpl nth.
  rewrite yvalue_3_4_5. cbv zeta. cbn [bind fst snd].
  rewrite !frame_xaxis by lra.
  replace (xvalue 3 4 5) with 1.8 by (unfold xvalue; lra).
  assert (Hv : forall y, y = 2.4 \/ y = -2.4 ->
             valid [Some (0, 0); None; Some (5, 0)] 1 D_3_4_5 prec
                   (Fin (1.8, y))
             = true).
  { intros y Hy. unfold valid, near, flt, fdist, get, entry, Rgtb. simpl.
    rewrite (dist_val (0, 0) (1.8, y) 3) by (simpl; destruct Hy; subst; lra).
    rewrite (dist_val (5, 0) (1.8, y) 4) by (simpl; destruct Hy; subst; lra).
    replace (3 - 3) with 0 by ring. replace (4 - 4) with 0 by ring.
    rewrite Rabs_R0. rdecide. reflexivity. }
  rewrite !Hv by (auto). simpl.
  replace (2.4 - -2.4) with 4.8 by lra. rewrite Rabs_pos_eq by lra.
  rdecide. reflexivity.
Qed.

Lemma pntcoord_3_4_5_edge_12 prec :
  0 < prec <= 8 ->
  pntcoord [None; Some (0, 0); Some (4, 0)] 0 1 2 D_3_4_5 prec
  = Ok ([(0, 3); (0, -3)], Placed).
Proof.
  intros Hp.
  assert (Hd : dist (0, 0) (4, 0) = 4) by (apply dist_val; simpl; lra).
  unfold pntcoord, dist_slot, entry, get. simpl nth. simpl arr.
  rewrite Hd. rdecide. simpl orb. cbv iota.
  unfold place.
  rewrite (candidates_frame _ 0 1 2 D_3_4_5 (0, 0) (4, 0))
    by (try reflexivity; rewrite Hd; lra).
  rewrite Hd. unfold entry. simpl nth.
  rewrite yvalue_3_5_4. cbv zeta. cbn [bind fst snd].
  rewrite !frame_xaxis by lra.
  replace (xvalue 3 5 4) with 0 by (unfold xvalue; lra).
  assert (Hv : forall y, y = 3 \/ y = -3 ->
             valid [None; Some (0, 0); Some (4, 0)] 0 D_3_4_5 prec (Fin (0, y))
             = true).
  { intros y Hy. unfold valid, near, flt, fdist, get, entry, Rgtb. simpl.
    rewrite (dist_val (0, 0) (0, y) 3) by (simpl; destruct Hy; subst; lra).
    rewrite (dist_val (4, 0) (0, y) 5) by (simpl; destruct Hy; subst; lra).
    replace (3 - 3) with 0 by ring. replace (5 - 5) with 0 by ring.
    rewrite Rabs_R0. rdecide. reflexivity. }
  rewrite !Hv by (auto). simpl.
  replace (3 - -3) with 6 by lra. rewrite Rabs_pos_eq by lra.
  rdecide. reflexivity.
Qed.

Lemma triangulatesgl_3_4_5_edge_02 prec :
  0 < prec <= 8 ->
  triangulatesgl D_3_4_5 0 2 prec = Ok [s345_02_up; s345_02_down].
Proof.
  intros Hp. unfold triangulatesgl.
  replace (Rltb (entry D_3_4_5 0 2) (-0.5)) with false
    by (unfold entry; simpl; rdecide; reflexivity).
  change (start D_3_4_5 0 2) with [Some (0, 0); None; Some (5, 0)].
  simpl passes.
  unfold addpoints, indices. simpl.
  unfold addpoint, indices, anchor_pairs. simpl.
  rewrite (pntcoord_3_4_5_edge_02 prec Hp). reflexivity.
Qed.

Lemma triangulatesgl_3_4_5_edge_12 prec :
  0 < prec <= 8 ->
  triangulatesgl D_3_4_5 1 2 prec = Ok [s345_12_up; s345_12_down].
Proof.
  intros Hp. unfold triangulatesgl.
  replace (Rltb (entry D_3_4_5 1 2) (-0.5)) with false
    by (unfold entry; simpl; rdecide; reflexivity).
  change (start D_3_4_5 1 2) with [None; Some (0, 0); Some (4, 0)].
  simpl passes.
  unfold addpoints, indices. simpl.
  unfold addpoint, indices, anchor_pairs. simpl.
  rewrite (pntcoord_3_4_5_edge_12 prec Hp). reflexivity.
Qed.

Lemma rotate1_02_up : rotate1 s345_02_up = Ok (fin s345_down).
Proof.
  assert (Hd : dist (0, 0) (1.8, 2.4) = 3) by (apply dist_val; simpl; lra).
  rewrite (rotate1_toframe _ (0, 0) (1.8, 2.4));
    try reflexivity; [|rewrite Hd; lra | repeat constructor].
  unfold s345_02_up, s345_down, toframe. rewrite Hd. simpl.
  repeat (f_equal; try lra).
Qed.

Lemma rotate1_02_down : rotate1 s345_02_down = Ok (fin s345_up).
Proof.
  assert (Hd : dist (0, 0) (1.8, -2.4) = 3) by (apply dist_val; simpl; lra).
  rewrite (rotate1_toframe _ (0, 0) (1.8, -2.4));
    try reflexivity; [|rewrite Hd; lra | repeat constructor].
  unfold s345_02_down, s345_up, toframe. rewrite Hd. simpl.
  repeat (f_equal; try lra).
Qed.

Lemma rotate1_12_up : rotate1 s345_12_up = Ok (fin s345_up).
Proof.
  assert (Hd : dist (0, 3) (0, 0) = 3) by (apply dist_val; simpl; lra).
  rewrite (rotate1_toframe _ (0, 3) (0, 0));
    try reflexivity; [|rewrite Hd; lra | repeat constructor].
  unfold s345_12_up, s345_up, toframe. rewrite Hd. simpl.
  repeat (f_equal; try lra).
Qed.

Lemma rotate1_12_down : rotate1 s345_12_down = Ok (fin s345_down).
Proof.
  assert (Hd : dist (0, -3) (0, 0) = 3) by (apply dist_val; simpl; lra).
  rewrite (rotate1_toframe _ (0, -3) (0, 0));
    try reflexivity; [|rewrite Hd; lra | repeat constructor].
  unfold s345_12_down, s345_down, toframe. rewrite Hd. simpl.
  repeat (f_equal; try lra).
Qed.

Lemma rdist_same a p : floats a = Fin p -> rdist a a = Some 0.
Proof.
  destruct a as [v|v]; simpl; intros ->; simpl; rewrite dist_same;
    [reflexivity | f_equal; ring].
Qed.

Lemma rdist_nan a b : floats a = NaN \/ floats b = NaN -> rdist a b = None.
Proof.
  destruct a as [v|v], b as [w|w]; simpl; intros [->| ->];
    try reflexivity; destruct v; try reflexivity; destruct w; reflexivity.
Qed.

Lemma nan_free_fin (s : solution) : nan_free (fin s).
Proof.
  intros k a. rewrite get_fin. destruct (get s k) as [p|]; simpl;
    [|discriminate].
  intros H; inversion H; subst. discriminate.
Qed.

Lemma solequal_same s prec :
  0 < prec -> nan_free s -> solequal s s prec = true.
Proof.
  intros Hp Hs. apply solequal_true. intros k _ _.
  destruct (get s k) as [a|] eqn:E; simpl; [|trivial].
  destruct (floats a) as [p|] eqn:Ea; [|exfalso; exact (Hs k a E Ea)].
  exists 0. split; [apply (rdist_same a p Ea) | assumption].
Qed.

Lemma solequal_down_up prec :
  prec <= 8 -> solequal (fin s345_down) (fin s345_up) prec = false.
Proof.
  intros Hp. unfold solequal. simpl.
  rewrite (dist_val (3, -4) (3, 4) 8) by (simpl; lra).
  rewrite (Rltb_false 8) by lra. apply andb_false_r.
Qed.

Lemma dedup_3_4_5_all prec :
  0 < prec <= 8 ->
  dedup prec [fin s345_up; fin s345_down; fin s345_down; fin s345_up;
              fin s345_up; fin s345_down]
  = [fin s345_up; fin s345_down].
Proof.
  intros Hp.
  assert (Hsame : forall s : solution, solequal (fin s) (fin s) prec = true)
    by (intros s; apply solequal_same; [lra | apply nan_free_fin]).
  assert (H1 : dedup_step prec [fin s345_up] (fin s345_down)
               = [fin s345_up; fin s345_down]).
  { unfold dedup_step. cbn [forallb].
    rewrite solequal_down_up by lra. reflexivity. }
  assert (H2 : dedup_step prec [fin s345_up; fin s345_down] (fin s345_down)
               = [fin s345_up; fin s345_down]).
  { unfold dedup_step. cbn [forallb].
    rewrite solequal_down_up, Hsame by lra. reflexivity. }
  assert (H3 : dedup_step prec [fin s345_up; fin s345_down] (fin s345_up)
               = [fin s345_up; fin s345_down]).
  { unfold dedup_step. cbn [forallb].
    rewrite Hsame. reflexivity. }
  cbn [dedup fold_left]. rewrite H1, H2, H3, H3, H2. reflexivity.
Qed.

Lemma triangulate_3_4_5_all prec :
  0 < prec <= 8 ->
  triangulate D_3_4_5 prec true = Return [fin s345_up; fin s345_down].
Proof.
  intros Hp. unfold triangulate. rewrite distvalid_3_4_5.
  simpl negb. cbv iota.
  unfold search. simpl seq. simpl outer_loop.
  rewrite triangulatesgl_3_4_5 by lra.
  cbn [bind app nonempty negb andb].
  rewrite triangulatesgl_3_4_5_edge_02 by lra.
  cbn [bind app nonempty negb andb].
  rewrite triangulatesgl_3_4_5_edge_12 by lra.
  cbn [bind app nonempty negb andb]. unfold rotate. cbn [mapM].
  rewrite (rotate1_canonical s345_up 3), (rotate1_canonical s345_down 3);
    try reflexivity; try lra; try (repeat constructor).
  rewrite rotate1_02_up, rotate1_02_down, rotate1_12_up, rotate1_12_down.
  cbn [bind]. rewrite dedup_3_4_5_all by assumption. reflexivity.
Qed.

(** C9, as stated, fails: for d01 = 3, d02 = 5, d12 = 4 and prec = 1e-6
    [triangulate] does not return a single solution with point 2 at
    (9/5, 12/5) or at its reflection. *)
Lemma triangulate_3_4_5_not_single :
  ~ exists s,
      triangulate D_3_4_5 0.000001 false = Return [s]
      /\ (s = fin s345_spec \/ s = fin s345_spec_mirror).
Proof.
  intros [s [H _]]. rewrite triangulate_3_4_5 in H by lra. discriminate.
Qed.

(** C9, amended: for d01 = 3, d02 = 5, d12 = 4 and a tolerance such as
    1e-6 (any [0 < prec <= 8]) [triangulate] returns exactly two canonical
    solutions, mirror images of each other: point 0 at (0, 0), point 1 at
    (3, 0), and point 2 at (3, 4) in the first, at (3, -4) in the second;
    the exhaustive search finds the same two from every starting edge. *)
Theorem triangulate_3_4_5_mirror_pair :
  forall prec all_pos,
    0 < prec <= 8 ->
    triangulate D_3_4_5 prec all_pos
    = Return [[Some (pt (0, 0)); Some (pt (3, 0)); Some (pt (3, 4))];
              [Some (pt (0, 0)); Some (pt (3, 0)); Some (pt (3, -4))]].
Proof.
  intros prec [|] Hp;
    [apply triangulate_3_4_5_all | apply triangulate_3_4_5]; assumption.
Qed.

Lemma triangulate_3_4_5_mirror_pair_witness :
  0 < 0.000001 <= 8
  /\ triangulate D_3_4_5 0.000001 false
     = Return [[Some (pt (0, 0)); Some (pt (3, 0)); Some (pt (3, 4))];
               [Some (pt (0, 0)); Some (pt (3, 0)); Some (pt (3, -4))]].
Proof.
  assert (H : 0 < 0.000001 <= 8) by lra.
  split; [exact H | exact (triangulate_3_4_5_mirror_pair 0.000001 false H)].
Defined.

Lemma triangulate_solutions_respect_distances_witness :
  (0 < 0.000001
   /\ triangulate D_3_4_5 0.000001 false
      = Return [fin s345_up; fin s345_down]
   /\ In (fin s345_down) [fin s345_up; fin s345_down])
  /\ (all_finite (fin s345_down) \/ all_nan (fin s345_down))
  /\ forall i j pi pj,
       get (fin s345_down) i = Some (pt pi) ->
       get (fin s345_down) j = Some (pt pj) ->
       0 <= entry D_3_4_5 i j ->
       Rabs (dist pi pj - entry D_3_4_5 i j) < 0.000001.
Proof.
  assert (Hp : 0 < 0.000001) by lra.
  assert (Ht : triangulate D_3_4_5 0.000001 false
               = Return [fin s345_up; fin s345_down])
    by (apply triangulate_3_4_5; lra).
  assert (Hin : In (fin s345_down) [fin s345_up; fin s345_down])
    by (right; left; reflexivity).
  split; [repeat split; assumption|].
  exact (triangulate_solutions_respect_distances
           D_3_4_5 0.000001 false [fin s345_up; fin s345_down] Hp Ht
           (fin s345_down) Hin).
Defined.

Lemma triangulate_canonical_frame_witness :
  (triangulate D_3_4_5 0.000001 false = Return [fin s345_up; fin s345_down]
   /\ In (fin s345_down) [fin s345_up; fin s345_down])
  /\ (exists s0 pa pb,
         rotate1 s0 = Ok (fin s345_down)
         /\ get s0 0 = Some pa /\ get s0 1 = Some pb
         /\ (pa <> pb ->
             get (fin s345_down) 0 = Some (pt (0, 0))
             /\ exists x, get (fin s345_down) 1 = Some (pt (x, 0)) /\ 0 < x)
         /\ (pa = pb -> all_nan (fin s345_down)))
  /\ ((get (fin s345_down) 0 = Some (pt (0, 0))
       /\ exists x, get (fin s345_down) 1 = Some (pt (x, 0)) /\ 0 < x)
      \/ all_nan (fin s345_down)).
Proof.
  assert (Ht : triangulate D_3_4_5 0.000001 false
               = Return [fin s345_up; fin s345_down])
    by (apply triangulate_3_4_5; lra).
  assert (Hin : In (fin s345_down) [fin s345_up; fin s345_down])
    by (right; left; reflexivity).
  split; [split; assumption|].
  exact (triangulate_canonical_frame
           D_3_4_5 0.000001 false [fin s345_up; fin s345_down] Ht
           (fin s345_down) Hin).
Defined.

Lemma dedup_keeps_first_seen_witness :
  ([fin s345_up; fin s345_down; fin s345_up]
   = [fin s345_up; fin s345_down] ++ fin s345_up :: []
   /\ [fin s345_up; fin s345_down] <> [])
  /\ exists rest,
       dedup 1 [fin s345_up; fin s345_down; fin s345_up] =
       dedup 1 [fin s345_up; fin s345_down]
         ++ (if forallb (fun j => negb (solequal (fin s345_up) j 1))
                        (dedup 1 [fin s345_up; fin s345_down])
             then [fin s345_up] else [])
         ++ rest.
Proof.
  assert (H1 : [fin s345_up; fin s345_down; fin s345_up]
               = [fin s345_up; fin s345_down] ++ fin s345_up :: [])
    by reflexivity.
  assert (H2 : [fin s345_up; fin s345_down] <> []) by discriminate.
  split; [split; assumption|].
  exact (proj1 (proj2 (proj2
           (dedup_keeps_first_seen 1
              [fin s345_up; fin s345_down; fin s345_up])))
           [fin s345_up; fin s345_down] (fin s345_up) [] H1 H2).
Defined.

(** ** A placement without a position *)

Lemma yvalue_5_5_8 : yvalue 5 5 8 = (3, -3).
Proof.
  unfold yvalue. rdecide. simpl orb. cbv iota zeta.
  rewrite Rmax_left by lra.
  rewrite (sqrt_val _ 48) by lra.
  f_equal; lra.
Qed.

Lemma candidates_thin :
  candidates sol_thin 3 0 1 D_thin = Ok (Fin (4, 3), Fin (4, -3), (3, -3)).
Proof.
  assert (Hd : dist (0, 0) (8, 0) = 8) by (apply dist_val; simpl; lra).
  rewrite (candidates_frame sol_thin 3 0 1 D_thin (0, 0) (8, 0))
    by (try reflexivity; rewrite Hd; lra).
  rewrite Hd. unfold entry. simpl nth.
  rewrite yvalue_5_5_8. cbv zeta. cbn [fst snd].
  assert (Hp1 : frame (0, 0) (8, 0) (xvalue 5 5 8, 3) = (4, 3)).
  { unfold frame, xvalue. rewrite Hd. simpl. f_equal; lra. }
  assert (Hp2 : frame (0, 0) (8, 0) (xvalue 5 5 8, -3) = (4, -3)).
  { unfold frame, xvalue. rewrite Hd. simpl. f_equal; lra. }
  rewrite Hp1, Hp2. reflexivity.
Qed.

Lemma valid_thin_up : valid sol_thin 3 D_thin 32 (Fin (4, 3)) = false.
Proof.
  unfold valid, near, flt, fdist, get, entry, Rgtb. simpl.
  rewrite (dist_val (0, 0) (4, 3) 5) by (simpl; lra).
  rewrite (dist_val (8, 0) (4, 3) 5) by (simpl; lra).
  rewrite (dist_val (4, -33) (4, 3) 36) by (simpl; lra).
  replace (5 - 5) with 0 by ring. replace (36 - 4) with 32 by ring.
  rewrite Rabs_R0, (Rabs_pos_eq 32) by lra. rdecide. reflexivity.
Qed.

Lemma valid_thin_down : valid sol_thin 3 D_thin 32 (Fin (4, -3)) = true.
Proof.
  unfold valid, near, flt, fdist, get, entry, Rgtb. simpl.
  rewrite (dist_val (0, 0) (4, -3) 5) by (simpl; lra).
  rewrite (dist_val (8, 0) (4, -3) 5) by (simpl; lra).
  rewrite (dist_val (4, -33) (4, -3) 30) by (simpl; lra).
  replace (5 - 5) with 0 by ring. replace (30 - 4) with 26 by ring.
  rewrite Rabs_R0, (Rabs_pos_eq 26) by lra. rdecide. reflexivity.
Qed.

(** The four outcomes of the last lines of [pntcoord]. *)
Lemma place_cases sol i n m D prec p1 p2 y1 y2 :
  candidates sol i n m D = Ok (Fin p1, Fin p2, (y1, y2)) ->
  place sol i n m D prec =
  let same := Rltb (Rabs (y1 - y2)) (prec / 4) in
  match valid sol i D prec (Fin p1), valid sol i D prec (Fin p2) with
  | true, true => Ok (p1 :: (if same then [] else [p2]), Placed)
  | true, false => Ok ([p1], Placed)
  | false, true => Ok ((if same then [] else [p2]), Placed)
  | false, false => Ok ([], Contradiction)
  end.
Proof.
  intros H. unfold place. rewrite H. cbn [bind].
  destruct (valid sol i D prec (Fin p1)), (valid sol i D prec (Fin p2));
    destruct (Rltb (Rabs (y1 - y2)) (prec / 4)); reflexivity.
Qed.

(** Candidates that hold nan are not valid, whatever the tolerance: they
    give a contradiction. *)
Lemma place_nan sol i n m D prec ys :
  candidates sol i n m D = Ok (NaN, NaN, ys) ->
  valid sol i D prec NaN = false ->
  place sol i n m D prec = Ok ([], Contradiction).
Proof.
  intros H Hv. unfold place. rewrite H. destruct ys as [y1 y2].
  cbn [bind]. rewrite Hv. reflexivity.
Qed.

(** [pntcoord] on two anchors that coincide: the candidates hold nan and
    fail the test against one of the anchors. *)
Lemma pntcoord_coincide sol i n m D prec p :
  get sol n = Some p -> get sol m = Some p ->
  pntcoord sol i n m D prec
  = Ok ([], if Rltb (entry D i n) (-0.5) || Rltb (entry D i m) (-0.5)
            then Indeterminate else Contradiction).
Proof.
  intros Hn Hm. unfold pntcoord.
  destruct (Rltb (entry D i n) (-0.5)) eqn:En;
    [reflexivity|].
  destruct (Rltb (entry D i m) (-0.5)) eqn:Em;
    [reflexivity|].
  cbn [orb].
  destruct (Rltb (entry D i n + entry D i m) _) eqn:Et; [reflexivity|].
  unfold dist_slot in Et. rewrite Hn, Hm in Et. simpl arr in Et.
  rewrite dist_same in Et.
  apply (place_nan _ _ _ _ _ _ (yvalue (entry D i n) (entry D i m) 0)).
  - apply (candidates_nan sol i n m D p p Hn Hm (dist_same p)).
  - destruct (valid sol i D prec NaN) eqn:Ev; [|reflexivity]. exfalso.
    pose proof (valid_nan _ _ _ _ Ev n p Hn) as Hn'.
    pose proof (valid_nan _ _ _ _ Ev m p Hm) as Hm'.
    unfold Rltb in En, Em, Et.
    destruct (Rlt_dec (entry D i n) (-0.5)); [discriminate|].
    destruct (Rlt_dec (entry D i m) (-0.5)); [discriminate|].
    destruct (Rlt_dec (entry D i n + entry D i m) 0); [discriminate|].
    lra.
Qed.

(** C3, the failing input: the two candidates for point 3 are (4, 3) and
    (4, -3); only the second is valid, and they count as the same root
    (6 < 32/4), so [pntcoord] answers state 0 with no position at all. *)
Theorem pntcoord_placed_without_position :
  candidates sol_thin 3 0 1 D_thin = Ok (Fin (4, 3), Fin (4, -3), (3, -3))
  /\ valid sol_thin 3 D_thin 32 (Fin (4, 3)) = false
  /\ valid sol_thin 3 D_thin 32 (Fin (4, -3)) = true
  /\ pntcoord sol_thin 3 0 1 D_thin 32 = Ok ([], Placed).
Proof.
  split; [apply candidates_thin|].
  split; [apply valid_thin_up|].
  split; [apply valid_thin_down|].
  assert (Hd : dist (0, 0) (8, 0) = 8) by (apply dist_val; simpl; lra).
  unfold pntcoord, dist_slot, entry, get. simpl nth. simpl arr.
  rewrite Hd. rdecide. simpl orb. cbv iota.
  unfold place. rewrite candidates_thin. cbn [bind].
  rewrite valid_thin_up, valid_thin_down. simpl.
  replace (3 - -3) with 6 by ring. rewrite Rabs_pos_eq by lra.
  rdecide. reflexivity.
Qed.

(** ** Where a run can stop

    No exception arises in a call of [triangulate] once the matrix has
    passed [distvalid]: the anchors that [addpoint] hands to [pntcoord] are
    placed, the starting edge provides two of them, the matrix of [tranmat]
    is invertible or holds nan, no position that holds nan is kept, and
    [rotate] meets fully placed solutions only. *)

(** With placed anchors [pntcoord] returns; in particular it never puts
    a position that holds nan into a solution. *)
Lemma pntcoord_fault sol i n m D prec e :
  placed (get sol n) = true -> placed (get sol m) = true ->
  pntcoord sol i n m D prec = Raise e -> False.
Proof.
  intros Hn Hm.
  destruct (get sol n) as [pa|] eqn:En; [|simpl in Hn; discriminate Hn].
  destruct (get sol m) as [pb|] eqn:Em; [|simpl in Hm; discriminate Hm].
  destruct (Req_dec_T (dist pa pb) 0) as [Hc|Hc].
  - apply dist_zero_iff in Hc. subst pb.
    rewrite (pntcoord_coincide sol i n m D prec pa En Em). discriminate.
  - unfold pntcoord.
    destruct (_ || _); [discriminate|].
    destruct (Rltb _ _); [discriminate|].
    pose proof (candidates_frame sol i n m D pa pb En Em Hc) as Hcand.
    cbv zeta in Hcand.
    destruct (yvalue (entry D i n) (entry D i m) (dist pa pb))
      as [y1 y2] eqn:Ey.
    rewrite (place_cases sol i n m D prec _ _ y1 y2 Hcand). cbv zeta.
    destruct (valid _ _ _ _ _), (valid _ _ _ _ _); discriminate.
Qed.

(** The fault [NanStored] does not arise, whatever the arguments. *)
Lemma pntcoord_stores_no_nan sol i n m D prec :
  pntcoord sol i n m D prec <> Raise NanStored.
Proof.
  intros H.
  destruct (get sol n) as [pa|] eqn:En.
  - destruct (get sol m) as [pb|] eqn:Em.
    + apply (pntcoord_fault sol i n m D prec NanStored);
        [rewrite En | rewrite Em |]; trivial.
    + unfold pntcoord, place, candidates in H.
      rewrite En, Em in H. cbn [tranmat bind] in H.
      destruct (_ || _); [discriminate|].
      destruct (Rltb _ _); discriminate.
  - unfold pntcoord, place, candidates in H.
    rewrite En in H.
    assert (Ht : tranmat None (get sol m) = Raise TypeError)
      by (unfold tranmat; destruct (get sol m); reflexivity).
    rewrite Ht in H. cbn [bind] in H.
    destruct (_ || _); [discriminate|].
    destruct (Rltb _ _); discriminate.
Qed.

Lemma in_anchor_pairs l n m :
  In (n, m) (anchor_pairs l) -> In n l /\ In m l.
Proof.
  unfold anchor_pairs. rewrite in_flat_map. intros [a [Ha H]].
  apply in_map_iff in H as [b [Hb Hin]]. inversion Hb; subst.
  apply in_seq in Ha. apply in_seq in Hin.
  split; apply nth_In; lia.
Qed.

Lemma anchor_pairs_nonempty l : (2 <= length l)%nat -> anchor_pairs l <> [].
Proof.
  intros H Hnil.
  assert (Hin : In (nth 0 l O, nth 1 l O) (anchor_pairs l)).
  { unfold anchor_pairs. apply in_flat_map. exists O.
    split; [apply in_seq; lia|].
    apply in_map_iff. exists 1%nat. split; [reflexivity|].
    apply in_seq. lia. }
  rewrite Hnil in Hin. destruct Hin.
Qed.

Lemma two_members {A} (l : list A) a b :
  a <> b -> In a l -> In b l -> (2 <= length l)%nat.
Proof.
  intros Hne Ha Hb. destruct l as [|x [|y l]]; simpl in *.
  - destruct Ha.
  - destruct Ha as [->|[]], Hb as [->|[]]. congruence.
  - lia.
Qed.

Lemma placed_lt {A} (s : list (option A)) k :
  placed (get s k) = true -> (k < length s)%nat.
Proof.
  intros H. destruct (get s k) as [p|] eqn:E; [|discriminate].
  eapply get_Some_lt; eassumption.
Qed.

Lemma addpoint_loop_fault sol i D prec ps res st e :
  (forall n m, In (n, m) ps ->
               placed (get sol n) = true /\ placed (get sol m) = true) ->
  ps <> [] \/ st <> None ->
  addpoint_loop sol i D prec ps res st = Raise e -> False.
Proof.
  revert res st. induction ps as [|[n m] ps IH]; intros res st Hp Hne; simpl.
  - destruct st; [discriminate|]. destruct Hne; congruence.
  - destruct (Hp n m (or_introl eq_refl)) as [Hn Hm].
    destruct (pntcoord sol i n m D prec) as [[pts s]|e'] eqn:E; cbn [bind].
    + destruct s; simpl; try discriminate.
      apply IH; [|right; discriminate].
      intros n' m' H. apply Hp. right. assumption.
    + intros H; inversion H; subst.
      exact (pntcoord_fault sol i n m D prec e Hn Hm E).
Qed.

Lemma addpoint_fault sol i D prec e :
  anchored sol -> addpoint sol i D prec = Raise e -> False.
Proof.
  intros [a [b [Hne [Ha Hb]]]]. unfold addpoint.
  destruct (placed (get sol i)); [discriminate|].
  apply addpoint_loop_fault.
  - intros n m H. apply in_anchor_pairs in H as [Hn Hm].
    apply in_indices in Hn, Hm. tauto.
  - left. apply anchor_pairs_nonempty.
    apply (two_members _ a b Hne); apply in_indices;
      (split; [apply placed_lt|]; assumption).
Qed.

Lemma addpoints_loop_fault sol D prec pleft res pf e :
  anchored sol ->
  addpoints_loop sol D prec pleft res pf = Raise e -> False.
Proof.
  intros Ha. revert res pf.
  induction pleft as [|i pleft IH]; intros res pf; simpl.
  - destruct pf; discriminate.
  - destruct (addpoint sol i D prec) as [[ires s]|e'] eqn:E; cbn [bind].
    + destruct s; [apply IH | apply IH | discriminate].
    + intros H; inversion H; subst. eapply addpoint_fault; eassumption.
Qed.

Lemma extends_anchored D prec sol s' :
  anchored sol -> extends D prec sol s' -> anchored s'.
Proof.
  intros [a [b [Hne [Ha Hb]]]] [i pnt Hi Hg _ ->].
  exists a, b. split; [assumption|].
  assert (Hai : a <> i)
    by (intros ->; rewrite Hg in Ha; simpl in Ha; discriminate Ha).
  assert (Hbi : b <> i)
    by (intros ->; rewrite Hg in Hb; simpl in Hb; discriminate Hb).
  rewrite !get_set_other by assumption. split; assumption.
Qed.

Lemma members_loop_fault D prec res iterres e :
  (forall s, In s res -> anchored s) ->
  members_loop D prec res iterres = Raise e -> False.
Proof.
  revert iterres.
  induction res as [|sol res IH]; intros iterres Hall; simpl;
    [discriminate|].
  destruct (addpoints sol D prec) as [[tmpres s]|e'] eqn:E; cbn [bind].
  - apply IH. intros s0 Hs0. apply Hall. right. assumption.
  - intros H; inversion H; subst. unfold addpoints in E.
    eapply addpoints_loop_fault; [|eassumption].
    apply Hall. left. reflexivity.
Qed.

Lemma passes_fault D prec k res e :
  (forall s, In s res -> anchored s) ->
  passes D prec k res = Raise e -> False.
Proof.
  revert res. induction k as [|k IH]; intros res Hall; simpl; [discriminate|].
  destruct (members_loop D prec res []) as [iterres|e'] eqn:E; cbn [bind].
  - destruct iterres as [|r iterres]; [discriminate|].
    apply IH. intros s Hs.
    destruct (members_loop_ext _ _ _ _ _ E s Hs) as [[]|[sol [Hin Hex]]].
    eapply extends_anchored; [|eassumption]. apply Hall. assumption.
  - intros H; inversion H; subst.
    eapply members_loop_fault; eassumption.
Qed.

Lemma start_anchored D sp1 sp2 :
  sp1 <> sp2 -> (sp1 < pntscount D)%nat -> (sp2 < pntscount D)%nat ->
  anchored (start D sp1 sp2).
Proof.
  intros Hne H1 H2. exists sp1, sp2. split; [assumption|]. unfold start.
  rewrite get_set_other by assumption.
  rewrite !get_set_same by (rewrite ?length_set, repeat_length; lia).
  split; reflexivity.
Qed.

Lemma triangulatesgl_fault D sp1 sp2 prec e :
  sp1 <> sp2 -> (sp1 < pntscount D)%nat -> (sp2 < pntscount D)%nat ->
  triangulatesgl D sp1 sp2 prec = Raise e -> False.
Proof.
  intros Hne H1 H2. unfold triangulatesgl.
  destruct (Rltb _ _); [discriminate|].
  apply passes_fault. intros s [<-|[]].
  apply start_anchored; assumption.
Qed.

Lemma first_success_fault D prec es e :
  (forall i j, In (i, j) es -> (i < j < pntscount D)%nat) ->
  first_success D prec es = Raise e -> False.
Proof.
  induction es as [|[i j] es IH]; intros Hes; simpl; [discriminate|].
  pose proof (Hes i j (or_introl eq_refl)) as Hij.
  destruct (triangulatesgl D i j prec) as [r|e'] eqn:E; cbn [bind].
  - destruct (nonempty r); [discriminate|].
    apply IH. intros i' j' H. apply Hes. right. assumption.
  - intros H; inversion H; subst.
    eapply (triangulatesgl_fault D i j prec); [| | |eassumption]; lia.
Qed.

Lemma all_results_fault D prec es e :
  (forall i j, In (i, j) es -> (i < j < pntscount D)%nat) ->
  all_results D prec es = Raise e -> False.
Proof.
  induction es as [|[i j] es IH]; intros Hes; simpl; [discriminate|].
  pose proof (Hes i j (or_introl eq_refl)) as Hij.
  destruct (triangulatesgl D i j prec) as [r|e'] eqn:E; cbn [bind].
  - destruct (all_results D prec es) as [rs|e'] eqn:E'; cbn [bind];
      [discriminate|].
    intros H; inversion H; subst.
    apply IH; [|reflexivity].
    intros i' j' H'. apply Hes. right. assumption.
  - intros H; inversion H; subst.
    eapply (triangulatesgl_fault D i j prec); [| | |eassumption]; lia.
Qed.

Lemma search_fault D prec all_pos e :
  search D prec all_pos = Raise e -> False.
Proof.
  rewrite search_solve_spec. unfold solve_spec.
  destruct all_pos; [apply all_results_fault | apply first_success_fault];
    intros i j H; apply in_edges; assumption.
Qed.

Lemma rotate1_fault (s : solution) e :
  (2 <= length s)%nat ->
  (forall k, (k < length s)%nat -> placed (get s k) = true) ->
  rotate1 s = Raise e -> False.
Proof.
  intros Hlen Hall. unfold rotate1.
  assert (Hl : (length s <? 2)%nat = false) by (apply Nat.ltb_ge; lia).
  rewrite Hl.
  pose proof (Hall 0%nat ltac:(lia)) as H0.
  pose proof (Hall 1%nat ltac:(lia)) as H1.
  destruct (get s 0) as [pa|]; [|simpl in H0; discriminate H0].
  destruct (get s 1) as [pb|]; [|simpl in H1; discriminate H1].
  destruct (tranmat_cases pa pb) as [[_ [A [sv ->]]]|[_ ->]];
    discriminate.
Qed.

Lemma mapM_fault {A B} (f : A -> exc B) l e :
  mapM f l = Raise e -> exists a, In a l /\ f a = Raise e.
Proof.
  induction l as [|a l IH]; simpl; [discriminate|].
  destruct (f a) as [b|e'] eqn:E; cbn [bind].
  - destruct (mapM f l) as [bs|e'']; cbn [bind]; [discriminate|].
    intros H; inversion H; subst.
    destruct (IH eq_refl) as [a' [Ha Hf]].
    exists a'. split; [right|]; assumption.
  - intros H; inversion H; subst.
    exists a. split; [left; reflexivity | assumption].
Qed.

(** A call of [triangulate] raises [ValueError] or returns. *)
Lemma triangulate_fault D prec all_pos e :
  triangulate D prec all_pos = Fault e -> False.
Proof.
  unfold triangulate. destruct (negb _); [discriminate|].
  destruct (search D prec all_pos) as [[|r rs]|e'] eqn:Es.
  - discriminate.
  - destruct (rotate (r :: rs)) as [rot|e'] eqn:Er; [discriminate|].
    intros _.
    apply mapM_fault in Er as [s [Hs Hr]].
    destruct (search_in _ _ _ _ Es s Hs) as [i [j [res [Hij [Ht Hin]]]]].
    destruct (triangulatesgl_complete D i j prec res
                ltac:(lia) ltac:(lia) ltac:(lia) Ht s Hin) as [Hl Hall].
    apply (rotate1_fault s e'); [lia | rewrite Hl; assumption | assumption].
  - intros _. eapply search_fault; eassumption.
Qed.

Lemma triangulate_returns D prec all_pos :
  triangulate D prec all_pos = ValueError
  \/ exists sols, triangulate D prec all_pos = Return sols.
Proof.
  destruct (triangulate D prec all_pos) as [|e|sols] eqn:E.
  - left. reflexivity.
  - exfalso. exact (triangulate_fault D prec all_pos e E).
  - right. exists sols. reflexivity.
Qed.

(** ** The frontier of the enumerator *)

Lemma members_loop_hands D prec res iterres out :
  members_loop D prec res iterres = Ok out ->
  forall s', In s' out <->
    In s' iterres \/ exists m, In m res /\ hands_over D prec m s'.
Proof.
  revert iterres. induction res as [|sol res IH]; intros iterres; simpl.
  - intros H; inversion H; subst. intros s'. split; [auto|].
    intros [H'|[m [[] _]]]. assumption.
  - destruct (addpoints sol D prec) as [[tmpres s]|e] eqn:E; simpl;
      [|discriminate].
    intros H s'. rewrite (IH _ H s'). split.
    + intros [Hin|[m [Hm Hh]]].
      * destruct s; simpl in Hin; auto.
        apply in_app_or in Hin as [Hin|Hin]; [auto|].
        right. exists sol. split; [left; reflexivity|].
        exists tmpres. split; assumption.
      * right. exists m. split; [right|]; assumption.
    + intros [Hin|[m [[<-|Hm] Hh]]].
      * left. destruct s; simpl; auto. apply in_or_app; auto.
      * destruct Hh as [ext [He Hin]]. rewrite E in He.
        inversion He; subst. left. simpl. apply in_or_app; auto.
      * right. exists m. auto.
Qed.

Lemma passes_descends D prec k res out :
  passes D prec k res = Ok out ->
  forall s', In s' out <-> exists s, In s res /\ descends D prec k s s'.
Proof.
  revert res out. induction k as [|k IH]; intros res out; simpl.
  - intros H; inversion H; subst. intros s'. split.
    + intros Hs'. exists s'. split; [assumption | constructor].
    + intros [s [Hs Hd]]. inversion Hd; subst. assumption.
  - destruct (members_loop D prec res []) as [iterres|e] eqn:E; simpl;
      [|discriminate].
    pose proof (members_loop_hands _ _ _ _ _ E) as Hm.
    assert (Hstep : forall s', (exists s1, In s1 iterres
                                           /\ descends D prec k s1 s')
                               <-> exists s, In s res
                                             /\ descends D prec (S k) s s').
    { intros s'. split.
      - intros [s1 [Hin Hd]]. apply Hm in Hin as [[]|[m [Hin Hh]]].
        exists m. split; [assumption|]. econstructor; eassumption.
      - intros [s [Hs Hd]]. inversion Hd as [|k' s0 s1 s2 Hh Hd']; subst.
        exists s1. split; [|assumption].
        apply Hm. right. exists s. split; assumption. }
    destruct iterres as [|r iterres].
    + intros H; inversion H; subst. intros s'. rewrite <- Hstep.
      split; [intros [] | intros [s1 [[] _]]].
    + intros H s'. rewrite (IH _ _ H s'). apply Hstep.
Qed.

(** C4, amended: a member of the frontier whose pass over its unplaced
    points ends in state 0 hands the extensions that the pass returns over
    to the next frontier and any other member hands nothing over, whether
    its pass met a contradiction or just placed nothing; a pass that leaves
    the frontier empty ends the enumeration with the empty list; the
    enumeration over a starting edge returns, and what it returns are the
    solutions that [pntscount - 2] such passes hand down from the starting
    solution (none when the distance of the edge is unknown), each with all
    its points placed. *)
Theorem triangulatesgl_keeps_placed_members_only :
  forall D prec,
    (forall m rest iterres tmpres s,
        addpoints m D prec = Ok (tmpres, s) ->
        members_loop D prec (m :: rest) iterres
        = members_loop D prec rest
            (match s with Placed => iterres ++ tmpres | _ => iterres end))
    /\ (forall k res,
          members_loop D prec res [] = Ok [] ->
          passes D prec (S k) res = Ok [])
    /\ (forall sp1 sp2,
          sp1 <> sp2 -> (sp1 < pntscount D)%nat -> (sp2 < pntscount D)%nat ->
          exists res,
            triangulatesgl D sp1 sp2 prec = Ok res
            /\ (forall s, In s res <->
                   ~ entry D sp1 sp2 < -0.5
                   /\ descends D prec (pntscount D - 2) (start D sp1 sp2) s)
            /\ (forall s, In s res ->
                   length s = pntscount D
                   /\ forall k, (k < pntscount D)%nat ->
                                placed (get s k) = true)).
Proof.
  intros D prec. split; [|split].
  - intros m rest iterres tmpres s H. simpl. rewrite H. simpl.
    destruct s; reflexivity.
  - intros k res H. simpl. rewrite H. reflexivity.
  - intros sp1 sp2 Hne H1 H2.
    destruct (triangulatesgl D sp1 sp2 prec) as [res|e] eqn:E;
      [|exfalso; exact (triangulatesgl_fault D sp1 sp2 prec e Hne H1 H2 E)].
    exists res. split; [reflexivity|]. split.
    + intros s. unfold triangulatesgl, Rltb in E.
      destruct (Rlt_dec (entry D sp1 sp2) (-0.5)) as [Hlt|Hge].
      * inversion E; subst.
        split; [intros [] | intros [Hn _]; exact (Hn Hlt)].
      * rewrite (passes_descends _ _ _ _ _ E s). split.
        -- intros [s0 [[<-|[]] Hd]]. split; assumption.
        -- intros [_ Hd]. exists (start D sp1 sp2).
           split; [left; reflexivity | assumption].
    + apply (triangulatesgl_complete D sp1 sp2 prec res); assumption.
Qed.

Lemma triangulatesgl_keeps_placed_members_only_witness :
  (0 <> 1 /\ 0 < pntscount D_hole /\ 1 < pntscount D_hole)%nat
  /\ exists res,
       triangulatesgl D_hole 0 1 1 = Ok res
       /\ (forall s, In s res <->
              ~ entry D_hole 0 1 < -0.5
              /\ descends D_hole 1 (pntscount D_hole - 2)
                          (start D_hole 0 1) s)
       /\ (forall s, In s res ->
              length s = pntscount D_hole
              /\ forall k, (k < pntscount D_hole)%nat ->
                           placed (get s k) = true).
Proof.
  assert (Hne : 0%nat <> 1%nat) by discriminate.
  assert (H0 : (0 < pntscount D_hole)%nat) by (simpl; lia).
  assert (H1 : (1 < pntscount D_hole)%nat) by (simpl; lia).
  split; [repeat split; assumption|].
  exact (proj2 (proj2 (triangulatesgl_keeps_placed_members_only D_hole 1))
           0%nat 1%nat Hne H0 H1).
Defined.

(** * Further properties of the module

    Properties of the functions of the module that the code itself shows:
    what each helper computes, how each function ends, and what a caller
    of [triangulate] can rely on. *)

(** ** Distances *)

Lemma dist_triangle u v w : dist u w <= dist u v + dist v w.
Proof.
  pose proof (dist_nonneg u v) as Huv. pose proof (dist_nonneg v w) as Hvw.
  pose proof (dist_nonneg u w) as Huw.
  pose proof (dist_sqr u v) as Suv. pose proof (dist_sqr v w) as Svw.
  pose proof (dist_sqr u w) as Suw.
  destruct u as [u0 u1], v as [v0 v1], w as [w0 w1]. simpl in *.
  set (A := dist (u0, u1) (v0, v1)) in *.
  set (B := dist (v0, v1) (w0, w1)) in *.
  set (C := dist (u0, u1) (w0, w1)) in *.
  set (a0 := u0 - v0) in *. set (a1 := u1 - v1) in *.
  set (b0 := v0 - w0) in *. set (b1 := v1 - w1) in *.
  assert (Hc : C * C = (a0 + b0) * (a0 + b0) + (a1 + b1) * (a1 + b1)).
  { rewrite Suw. unfold a0, a1, b0, b1. ring. }
  assert (Hcs : a0 * b0 + a1 * b1 <= A * B).
  { assert (Hsq : (a0 * b0 + a1 * b1) * (a0 * b0 + a1 * b1)
                  <= (A * B) * (A * B)).
    { replace ((A * B) * (A * B)) with ((A * A) * (B * B)) by ring.
      rewrite Suv, Svw.
      pose proof (Rle_0_sqr (a0 * b1 - a1 * b0)) as H. unfold Rsqr in H.
      nra. }
    assert (0 <= A * B) by nra.
    destruct (Rle_lt_dec (a0 * b0 + a1 * b1) (A * B)); [assumption|].
    nra. }
  destruct (Rle_lt_dec C (A + B)); [assumption|]. nra.
Qed.

(** X1: [dist] is a metric on the plane. *)
Theorem dist_is_metric :
  forall u v w,
    0 <= dist u v
    /\ dist u v = dist v u
    /\ (dist u v = 0 <-> u = v)
    /\ dist u w <= dist u v + dist v w.
Proof.
  intros u v w. split; [apply dist_nonneg|].
  split; [apply dist_sym|].
  split; [apply dist_zero_iff | apply dist_triangle].
Qed.

Lemma dist_is_metric_witness :
  (3, 4) = ((3, 4) : point) /\ dist (3, 4) (3, 4) = 0.
Proof.
  assert (H : (3, 4) = ((3, 4) : point)) by reflexivity.
  split; [exact H|].
  exact (proj2 (proj1 (proj2 (proj2 (dist_is_metric (3, 4) (3, 4) (0, 0)))))
           H).
Defined.

(** ** The two circles: [xvalue], [yvalue] and the candidates *)

Lemma heron_factors a b c :
  heron a b c = (a + b + c) * (- a + b + c) * (a - b + c) * (a + b - c).
Proof. unfold heron. ring. Qed.

Lemma heron_pos a b c :
  c < a + b -> b < a + c -> a < b + c -> 0 < heron a b c.
Proof.
  intros H1 H2 H3. rewrite heron_factors.
  repeat apply Rmult_lt_0_compat; lra.
Qed.

Lemma yvalue_nonflat a b c :
  c < a + b -> b < a + c -> a < b + c ->
  yvalue a b c = (sqrt (heron a b c) / (2 * c),
                  - (sqrt (heron a b c) / (2 * c))).
Proof.
  intros H1 H2 H3. unfold yvalue.
  rewrite !Rleb_false by lra. simpl orb. cbv iota zeta.
  pose proof (heron_pos a b c H1 H2 H3) as Hh.
  replace (2 * ((b * a) ^ 2 + (b * c) ^ 2 + (a * c) ^ 2)
           - (b ^ 4 + a ^ 4 + c ^ 4)) with (heron a b c)
    by (unfold heron; ring).
  rewrite Rmax_left by lra. reflexivity.
Qed.

Lemma yvalue_flat a b c :
  a + b <= c \/ a + c <= b \/ b + c <= a -> yvalue a b c = (0, - 0).
Proof.
  intros H. unfold yvalue.
  destruct (Rle_dec (b + a) c) as [H1|H1];
    [rewrite (Rleb_true (b + a) c) by assumption; reflexivity|].
  rewrite (Rleb_false (b + a) c) by lra.
  destruct (Rle_dec (b + c) a) as [H2|H2];
    [rewrite (Rleb_true (b + c) a) by assumption; reflexivity|].
  rewrite (Rleb_false (b + c) a) by lra.
  rewrite (Rleb_true (a + c) b) by lra. reflexivity.
Qed.

Lemma triangle_apex a b c x y :
  c < a + b -> b < a + c -> a < b + c ->
  x = xvalue a b c -> (y = fst (yvalue a b c) \/ y = snd (yvalue a b c)) ->
  x * x + y * y = a * a /\ (x - c) * (x - c) + y * y = b * b.
Proof.
  intros H1 H2 H3 -> Hy.
  pose proof (heron_pos a b c H1 H2 H3) as Hh.
  assert (Hc : 0 < c) by lra.
  rewrite (yvalue_nonflat a b c H1 H2 H3) in Hy. simpl in Hy.
  assert (Hyy : y * y = heron a b c / (4 * (c * c))).
  { pose proof (sqrt_sqrt (heron a b c) (Rlt_le _ _ Hh)) as Hs.
    destruct Hy as [-> | ->].
    - transitivity (sqrt (heron a b c) * sqrt (heron a b c) / (4 * (c * c))).
      + field. lra.
      + rewrite Hs. reflexivity.
    - transitivity (sqrt (heron a b c) * sqrt (heron a b c) / (4 * (c * c))).
      + field. lra.
      + rewrite Hs. reflexivity. }
  rewrite Hyy. unfold xvalue, heron. split; field; lra.
Qed.

(** X2: [xvalue] and [yvalue], called with the same arguments as in
    [pntcoord]: the two ordinates are opposite; they are zero for a flat
    triangle; for a proper triangle the point [(x, y)] lies at distance [a]
    of the origin and [b] of [(c, 0)], with [y > 0]. *)
Theorem apex_of_triangle :
  forall a b c,
    snd (yvalue a b c) = - fst (yvalue a b c)
    /\ (a + b <= c \/ a + c <= b \/ b + c <= a -> fst (yvalue a b c) = 0)
    /\ (c < a + b -> b < a + c -> a < b + c ->
        let x := xvalue a b c in
        let y := fst (yvalue a b c) in
        0 < y
        /\ x * x + y * y = a * a
        /\ (x - c) * (x - c) + y * y = b * b).
Proof.
  intros a b c. split; [|split].
  - destruct (Rle_dec (a + b) c) as [H1|H1];
      [rewrite yvalue_flat by tauto; reflexivity|].
    destruct (Rle_dec (a + c) b) as [H2|H2];
      [rewrite yvalue_flat by tauto; reflexivity|].
    destruct (Rle_dec (b + c) a) as [H3|H3];
      [rewrite yvalue_flat by tauto; reflexivity|].
    rewrite yvalue_nonflat by lra. reflexivity.
  - intros H. rewrite yvalue_flat by assumption. reflexivity.
  - intros H1 H2 H3 x y.
    assert (Hh : 0 < heron a b c) by (apply heron_pos; lra).
    split.
    + unfold y. rewrite yvalue_nonflat by lra. simpl.
      apply Rdiv_lt_0_compat; [apply sqrt_lt_R0; assumption | lra].
    + apply triangle_apex; try assumption; [reflexivity | left; reflexivity].
Qed.

Lemma apex_of_triangle_witness :
  (3 < 5 + 4 /\ 4 < 5 + 3 /\ 5 < 4 + 3)
  /\ (let x := xvalue 5 4 3 in
      let y := fst (yvalue 5 4 3) in
      0 < y /\ x * x + y * y = 5 * 5 /\ (x - 3) * (x - 3) + y * y = 4 * 4).
Proof.
  assert (H1 : 3 < 5 + 4) by lra.
  assert (H2 : 4 < 5 + 3) by lra.
  assert (H3 : 5 < 4 + 3) by lra.
  split; [repeat split; assumption|].
  exact (proj2 (proj2 (apex_of_triangle 5 4 3)) H1 H2 H3).
Defined.

Lemma unit_direction pa pb :
  dist pa pb <> 0 ->
  ((fst pb - fst pa) / dist pa pb) * ((fst pb - fst pa) / dist pa pb)
  + ((snd pb - snd pa) / dist pa pb) * ((snd pb - snd pa) / dist pa pb) = 1.
Proof.
  intros Hc. pose proof (dist_sqr pa pb) as Hs.
  set (c := dist pa pb) in *.
  transitivity (((fst pa - fst pb) * (fst pa - fst pb)
                 + (snd pa - snd pb) * (snd pa - snd pb)) / (c * c)).
  - field. assumption.
  - rewrite <- Hs. field. assumption.
Qed.

Lemma frame_dists pa pb q :
  dist pa pb <> 0 ->
  dist pa (frame pa pb q) = sqrt (fst q * fst q + snd q * snd q)
  /\ dist pb (frame pa pb q)
     = sqrt ((fst q - dist pa pb) * (fst q - dist pa pb) + snd q * snd q).
Proof.
  intros Hc. pose proof (unit_direction pa pb Hc) as Hu.
  unfold dist at 1 2. unfold frame. cbv zeta. cbn [fst snd].
  set (c := dist pa pb) in *.
  set (ux := (fst pb - fst pa) / c) in *.
  set (uy := (snd pb - snd pa) / c) in *.
  assert (Hx : fst pb = fst pa + c * ux) by (unfold ux; field; assumption).
  assert (Hy : snd pb = snd pa + c * uy) by (unfold uy; field; assumption).
  split; f_equal.
  - transitivity ((ux * ux + uy * uy) * (fst q * fst q + snd q * snd q));
      [ring | rewrite Hu; ring].
  - rewrite Hx, Hy.
    transitivity ((ux * ux + uy * uy)
                  * ((fst q - c) * (fst q - c) + snd q * snd q));
      [ring | rewrite Hu; ring].
Qed.

Lemma candidates_exact sol i n m D pa pb q1 q2 ys :
  get sol n = Some pa -> get sol m = Some pb ->
  dist pa pb < entry D i n + entry D i m ->
  entry D i m < entry D i n + dist pa pb ->
  entry D i n < entry D i m + dist pa pb ->
  candidates sol i n m D = Ok (q1, q2, ys) ->
  exists p1 p2,
    q1 = Fin p1 /\ q2 = Fin p2
    /\ (dist pa p1 = entry D i n /\ dist pb p1 = entry D i m)
    /\ (dist pa p2 = entry D i n /\ dist pb p2 = entry D i m).
Proof.
  intros Hn Hm H1 H2 H3 Hc.
  assert (Hpos : dist pa pb <> 0) by lra.
  rewrite (candidates_frame sol i n m D pa pb Hn Hm Hpos) in Hc.
  cbv zeta in Hc. inversion Hc; subst; clear Hc.
  set (a := entry D i n) in *. set (b := entry D i m) in *.
  set (c := dist pa pb) in *.
  assert (Ha : 0 <= a) by lra. assert (Hb : 0 <= b) by lra.
  assert (Hf : forall y, y = fst (yvalue a b c) \/ y = snd (yvalue a b c) ->
               dist pa (frame pa pb (xvalue a b c, y)) = a
               /\ dist pb (frame pa pb (xvalue a b c, y)) = b).
  { intros y Hy.
    destruct (triangle_apex a b c (xvalue a b c) y H1 H2 H3 eq_refl Hy)
      as [Ea Eb].
    destruct (frame_dists pa pb (xvalue a b c, y) Hpos) as [Fa Fb].
    cbn [fst snd] in Fa, Fb. fold c in Fb.
    rewrite Fa, Fb, Ea, Eb. split; apply sqrt_square; assumption. }
  eexists. eexists. split; [reflexivity|]. split; [reflexivity|].
  split; apply Hf; [left | right]; reflexivity.
Qed.

(** X3: both candidate positions of [pntcoord] are finite and lie at the
    two requested distances of the two anchors, when these distances and
    the distance of the anchors form a proper triangle. *)
Theorem candidates_at_requested_distances :
  forall sol i n m D pa pb q1 q2 ys,
    get sol n = Some pa -> get sol m = Some pb ->
    dist pa pb < entry D i n + entry D i m ->
    entry D i m < entry D i n + dist pa pb ->
    entry D i n < entry D i m + dist pa pb ->
    candidates sol i n m D = Ok (q1, q2, ys) ->
    exists p1 p2,
      q1 = Fin p1 /\ q2 = Fin p2
      /\ (dist pa p1 = entry D i n /\ dist pb p1 = entry D i m)
      /\ (dist pa p2 = entry D i n /\ dist pb p2 = entry D i m).
Proof.
  intros sol i n m D pa pb q1 q2 ys Hn Hm H1 H2 H3 Hc.
  exact (candidates_exact sol i n m D pa pb q1 q2 ys Hn Hm H1 H2 H3 Hc).
Qed.

Lemma candidates_at_requested_distances_witness :
  (get sol_thin 0 = Some (0, 0) /\ get sol_thin 1 = Some (8, 0)
   /\ dist (0, 0) (8, 0) < entry D_thin 3 0 + entry D_thin 3 1
   /\ entry D_thin 3 1 < entry D_thin 3 0 + dist (0, 0) (8, 0)
   /\ entry D_thin 3 0 < entry D_thin 3 1 + dist (0, 0) (8, 0)
   /\ candidates sol_thin 3 0 1 D_thin
      = Ok (Fin (4, 3), Fin (4, -3), (3, -3)))
  /\ exists p1 p2,
       Fin (4, 3) = Fin p1 /\ Fin (4, -3) = Fin p2
       /\ (dist (0, 0) p1 = entry D_thin 3 0
           /\ dist (8, 0) p1 = entry D_thin 3 1)
       /\ (dist (0, 0) p2 = entry D_thin 3 0
           /\ dist (8, 0) p2 = entry D_thin 3 1).
Proof.
  assert (Hd : dist (0, 0) (8, 0) = 8) by (apply dist_val; simpl; lra).
  assert (Hn : get sol_thin 0 = Some (0, 0)) by reflexivity.
  assert (Hm : get sol_thin 1 = Some (8, 0)) by reflexivity.
  assert (H1 : dist (0, 0) (8, 0) < entry D_thin 3 0 + entry D_thin 3 1)
    by (rewrite Hd; unfold entry; simpl; lra).
  assert (H2 : entry D_thin 3 1 < entry D_thin 3 0 + dist (0, 0) (8, 0))
    by (rewrite Hd; unfold entry; simpl; lra).
  assert (H3 : entry D_thin 3 0 < entry D_thin 3 1 + dist (0, 0) (8, 0))
    by (rewrite Hd; unfold entry; simpl; lra).
  assert (Hc : candidates sol_thin 3 0 1 D_thin
               = Ok (Fin (4, 3), Fin (4, -3), (3, -3)))
    by apply candidates_thin.
  split; [repeat split; assumption|].
  exact (candidates_at_requested_distances sol_thin 3 0 1 D_thin
           (0, 0) (8, 0) (Fin (4, 3)) (Fin (4, -3)) (3, -3)
           Hn Hm H1 H2 H3 Hc).
Defined.

(** ** The change of frame: [tranmat], [invtranmat], [affinef] *)

Lemma invtranmat_inverse A s B t :
  invtranmat (Aff A s) = Ok (Aff B t) ->
  det A <> 0
  /\ (forall x, image B t (image A s x) = x)
  /\ (forall x, image A s (image B t x) = x).
Proof.
  unfold invtranmat, inv.
  destruct (Reqb (det A) 0) eqn:E; [discriminate|].
  assert (Hd : det A <> 0).
  { intros H. rewrite Reqb_true in E by assumption. discriminate. }
  cbn [bind]. intros H; inversion H; subst; clear H.
  split; [assumption|].
  destruct A as [a b c d]. unfold det in *. cbn [a00 a01 a10 a11] in *.
  split; intros [x y]; unfold image, vadd, vneg, dot;
    cbn [a00 a01 a10 a11 fst snd]; f_equal; field; assumption.
Qed.

Lemma frame_isometry pa pb p q :
  dist pa pb <> 0 -> dist (frame pa pb p) (frame pa pb q) = dist p q.
Proof.
  intros Hc. pose proof (unit_direction pa pb Hc) as Hu.
  unfold dist at 1 2. unfold frame. cbv zeta. cbn [fst snd].
  set (c := dist pa pb) in *.
  set (ux := (fst pb - fst pa) / c) in *.
  set (uy := (snd pb - snd pa) / c) in *.
  f_equal.
  transitivity ((ux * ux + uy * uy)
                * ((fst p - fst q) * (fst p - fst q)
                   + (snd p - snd q) * (snd p - snd q)));
    [ring | rewrite Hu; ring].
Qed.

Lemma frame_origin pa pb : frame pa pb (0, 0) = pa.
Proof.
  unfold frame. cbn [fst snd]. destruct pa as [x y]. cbn [fst snd].
  f_equal; ring.
Qed.

Lemma frame_axis pa pb :
  dist pa pb <> 0 -> frame pa pb (dist pa pb, 0) = pb.
Proof.
  intros Hc. unfold frame. cbn [fst snd].
  destruct pa as [x y], pb as [x' y']. cbn [fst snd].
  f_equal; field; assumption.
Qed.

Lemma toframe_isometry pa pb p q :
  dist pa pb <> 0 -> dist (toframe pa pb p) (toframe pa pb q) = dist p q.
Proof.
  intros Hc. pose proof (unit_direction pa pb Hc) as Hu.
  unfold dist at 1 2. unfold toframe. cbv zeta. cbn [fst snd].
  set (c := dist pa pb) in *.
  set (ux := (fst pb - fst pa) / c) in *.
  set (uy := (snd pb - snd pa) / c) in *.
  f_equal.
  transitivity ((ux * ux + uy * uy)
                * ((fst p - fst q) * (fst p - fst q)
                   + (snd p - snd q) * (snd p - snd q)));
    [ring | rewrite Hu; ring].
Qed.

Lemma toframe_origin pa pb : toframe pa pb pa = (0, 0).
Proof. unfold toframe. cbn [fst snd]. f_equal; ring. Qed.

Lemma toframe_axis pa pb :
  dist pa pb <> 0 -> toframe pa pb pb = (dist pa pb, 0).
Proof.
  intros Hc. pose proof (unit_direction pa pb Hc) as Hu.
  unfold toframe. cbv zeta. cbn [fst snd].
  set (c := dist pa pb) in *.
  set (ux := (fst pb - fst pa) / c) in *.
  set (uy := (snd pb - snd pa) / c) in *.
  assert (Hx : fst pb - fst pa = c * ux) by (unfold ux; field; assumption).
  assert (Hy : snd pb - snd pa = c * uy) by (unfold uy; field; assumption).
  rewrite Hx, Hy. f_equal; [|ring].
  transitivity ((ux * ux + uy * uy) * c); [ring | rewrite Hu; ring].
Qed.

Lemma dist_on_axis x y : dist (x, 0) (y, 0) = Rabs (x - y).
Proof.
  unfold dist. cbn [fst snd].
  replace ((x - y) * (x - y) + (0 - 0) * (0 - 0)) with (Rsqr (x - y))
    by (unfold Rsqr; ring).
  apply sqrt_Rsqr_abs.
Qed.

(** X4: [tranmat] for two distinct points gives the rotation and
    translation that take [a] to the origin and [b] to [(|b - a|, 0)], and
    keep all distances; for two points that coincide it divides by zero
    and returns arrays of nan. *)
Theorem tranmat_is_rigid :
  forall a b,
    (a <> b -> exists A s, tranmat (Some a) (Some b) = Ok (Aff A s))
    /\ (a = b -> tranmat (Some a) (Some b) = Ok NaNAff)
    /\ (forall A s,
          tranmat (Some a) (Some b) = Ok (Aff A s) ->
          a <> b
          /\ det A = 1
          /\ affinef (Aff A s) (Fin a) = Fin (0, 0)
          /\ affinef (Aff A s) (Fin b) = Fin (dist a b, 0)
          /\ forall p q,
               fdist (affinef (Aff A s) (Fin p)) (affinef (Aff A s) (Fin q))
               = Some (dist p q)).
Proof.
  intros a b. split; [|split].
  - intros H. apply tranmat_ok. rewrite dist_zero_iff. assumption.
  - intros ->. apply tranmat_nan. apply dist_same.
  - intros A s H.
    destruct (tranmat_unit _ _ _ _ H) as [Hpos [Hu [H10 [H11 _]]]].
    destruct (affinef_anchors _ _ _ _ H) as [Ha Hb].
    split; [intros ->; rewrite dist_same in Hpos; lra|].
    split; [unfold det; rewrite H10, H11; lra|].
    cbn [affinef fdist]. rewrite Ha, Hb.
    split; [reflexivity|]. split; [reflexivity|].
    intros p q. f_equal. exact (affinef_isometry _ _ _ _ p q H).
Qed.

Lemma tranmat_is_rigid_witness :
  (0, 0) <> ((3, 0) : point)
  /\ exists A s, tranmat (Some (0, 0)) (Some (3, 0)) = Ok (Aff A s).
Proof.
  assert (H : (0, 0) <> ((3, 0) : point)) by (intros E; inversion E; lra).
  split; [exact H|].
  exact (proj1 (tranmat_is_rigid (0, 0) (3, 0)) H).
Defined.

(** X5: [invtranmat] gives the inverse affine map: composed with the given
    one on either side it is the identity; it raises [LinAlgError] exactly
    when the matrix is singular; from arrays of nan it makes arrays of
    nan. *)
Theorem invtranmat_is_inverse :
  forall A s,
    (det A = 0 <-> invtranmat (Aff A s) = Raise LinAlgError)
    /\ (det A <> 0 -> exists B t, invtranmat (Aff A s) = Ok (Aff B t))
    /\ (forall f,
          invtranmat (Aff A s) = Ok f ->
          exists B t,
            f = Aff B t
            /\ (forall x,
                  affinef (Aff B t) (affinef (Aff A s) (Fin x)) = Fin x)
            /\ (forall x,
                  affinef (Aff A s) (affinef (Aff B t) (Fin x)) = Fin x))
    /\ invtranmat NaNAff = Ok NaNAff.
Proof.
  intros A s. split; [|split; [|split]].
  - unfold invtranmat, inv. split.
    + intros H. rewrite Reqb_true by assumption. reflexivity.
    + intros H. destruct (Req_dec_T (det A) 0) as [Hz|Hnz]; [assumption|].
      rewrite Reqb_false in H by assumption. discriminate.
  - intros H. unfold invtranmat, inv. rewrite Reqb_false by assumption.
    eexists. eexists. reflexivity.
  - intros f H.
    assert (Hf : exists B t, f = Aff B t).
    { unfold invtranmat in H. destruct (inv A) as [B|e]; [|discriminate].
      cbn [bind] in H. inversion H; subst. eexists. eexists. reflexivity. }
    destruct Hf as [B [t ->]]. exists B, t. split; [reflexivity|].
    destruct (invtranmat_inverse _ _ _ _ H) as [_ [H1 H2]].
    cbn [affinef]. split; intros x; f_equal; [apply H1 | apply H2].
  - reflexivity.
Qed.

Lemma invtranmat_is_inverse_witness :
  det (Mat2 1 0 0 1) <> 0
  /\ exists B t, invtranmat (Aff (Mat2 1 0 0 1) (0, 0)) = Ok (Aff B t).
Proof.
  assert (H : det (Mat2 1 0 0 1) <> 0) by (unfold det; simpl; lra).
  split; [exact H|].
  exact (proj1 (proj2 (invtranmat_is_inverse (Mat2 1 0 0 1) (0, 0))) H).
Defined.

(** ** Mapping a segment onto a segment: [affinef_pnt] *)

(** A call of [affinef_pnt] that does not raise [ValueError] returns a
    function: the composition of two rigid motions when both segments are
    proper, the function that answers nan when one of them is a single
    point. *)
Lemma affinef_pnt_returns a1 a2 b1 b2 prec :
  Rabs (dist a1 a2 - dist b1 b2) < prec ->
  exists func,
    affinef_pnt a1 a2 b1 b2 prec = PntReturn func
    /\ func NaN = NaN
    /\ (a1 <> a2 -> b1 <> b2 ->
        forall x, func (Fin x) = Fin (frame b1 b2 (toframe a1 a2 x)))
    /\ (a1 = a2 \/ b1 = b2 -> forall x, func x = NaN).
Proof.
  intros Hp. unfold affinef_pnt. rewrite Rltb_true by assumption.
  cbn [negb].
  destruct (tranmat_cases a1 a2) as [[Ha [A [s Ea]]]|[Ha Ea]]; rewrite Ea;
    (destruct (tranmat_cases b1 b2) as [[Hb [A' [s' Eb]]]|[Hb Eb]];
     rewrite Eb; cbn [bind]).
  - destruct (tranmat_inv_frame _ _ _ _ Eb) as [_ [B [t [Hi Hg]]]].
    rewrite Hi. eexists. split; [reflexivity|].
    split; [reflexivity|]. split.
    + intros _ _ x. cbn [affinef]. rewrite Hg.
      rewrite (toframe_image _ _ _ _ x Ea). reflexivity.
    + intros [E|E]; contradiction.
  - cbn [invtranmat]. eexists. split; [reflexivity|].
    split; [reflexivity|]. split.
    + intros _ Hne. contradiction.
    + intros _ x. cbn [affinef]. destruct x; reflexivity.
  - destruct (tranmat_inv_frame _ _ _ _ Eb) as [_ [B [t [Hi Hg]]]].
    rewrite Hi. eexists. split; [reflexivity|].
    split; [reflexivity|]. split.
    + intros Hne. contradiction.
    + intros _ x. reflexivity.
  - cbn [invtranmat]. eexists. split; [reflexivity|].
    split; [reflexivity|]. split.
    + intros Hne. contradiction.
    + intros _ x. reflexivity.
Qed.

(** X6: [affinef_pnt] raises [ValueError] exactly when the two segments
    differ in length by [prec] or more, and returns a function otherwise.
    When both segments are proper, the function is a rigid motion of the
    plane that takes [a1] to [b1] and [a2] to the point of the ray from
    [b1] through [b2] at the distance of [a2] from [a1], which is closer
    than [prec] to [b2], and is [b2] itself when the two lengths are equal.
    When one of the segments is a single point, [tranmat] divides by zero
    and the function answers nan for every argument. *)
Theorem affinef_pnt_maps_segment :
  forall a1 a2 b1 b2 prec,
    (affinef_pnt a1 a2 b1 b2 prec = PntValueError
     <-> prec <= Rabs (dist a1 a2 - dist b1 b2))
    /\ (Rabs (dist a1 a2 - dist b1 b2) < prec ->
        exists func,
          affinef_pnt a1 a2 b1 b2 prec = PntReturn func
          /\ func NaN = NaN
          /\ (a1 = a2 \/ b1 = b2 -> forall x, func x = NaN)
          /\ (a1 <> a2 -> b1 <> b2 ->
              exists f : point -> point,
                (forall x, func (Fin x) = Fin (f x))
                /\ f a1 = b1
                /\ (forall p q, dist (f p) (f q) = dist p q)
                /\ dist (f a2) b2 = Rabs (dist a1 a2 - dist b1 b2)
                /\ dist (f a2) b2 < prec
                /\ (dist a1 a2 = dist b1 b2 -> f a2 = b2))).
Proof.
  intros a1 a2 b1 b2 prec. split.
  - unfold Rltb.
    destruct (Rlt_dec (Rabs (dist a1 a2 - dist b1 b2)) prec) as [Hlt|Hge].
    + split; [|lra]. intros H.
      destruct (affinef_pnt_returns a1 a2 b1 b2 prec Hlt) as [func [E _]].
      congruence.
    + split; [lra|]. intros _. unfold affinef_pnt.
      rewrite Rltb_false by lra. reflexivity.
  - intros Hp.
    destruct (affinef_pnt_returns a1 a2 b1 b2 prec Hp)
      as [func [E [Hn [Hf Hz]]]].
    exists func. split; [assumption|]. split; [assumption|].
    split; [assumption|].
    intros Ha Hb. specialize (Hf Ha Hb).
    exists (fun x => frame b1 b2 (toframe a1 a2 x)).
    assert (Hda : dist a1 a2 <> 0) by (rewrite dist_zero_iff; assumption).
    assert (Hdb : dist b1 b2 <> 0) by (rewrite dist_zero_iff; assumption).
    assert (H2 : dist (frame b1 b2 (toframe a1 a2 a2)) b2
                 = Rabs (dist a1 a2 - dist b1 b2)).
    { rewrite toframe_axis by assumption.
      rewrite <- (frame_axis b1 b2 Hdb) at 2.
      rewrite frame_isometry by assumption. apply dist_on_axis. }
    split; [assumption|].
    split; [rewrite toframe_origin; apply frame_origin|].
    split.
    { intros p q. rewrite frame_isometry by assumption.
      apply toframe_isometry. assumption. }
    split; [assumption|].
    split; [rewrite H2; assumption|].
    intros Heq. rewrite toframe_axis, Heq by assumption.
    apply frame_axis. assumption.
Qed.

Lemma affinef_pnt_maps_segment_witness :
  Rabs (dist (0, 0) (0, 0) - dist (0, 0) (0.5, 0)) < 1
  /\ exists func,
       affinef_pnt (0, 0) (0, 0) (0, 0) (0.5, 0) 1 = PntReturn func
       /\ func NaN = NaN
       /\ ((0, 0) = ((0, 0) : point) \/ (0, 0) = ((0.5, 0) : point) ->
           forall x, func x = NaN)
       /\ ((0, 0) <> ((0, 0) : point) -> (0, 0) <> ((0.5, 0) : point) ->
           exists f : point -> point,
             (forall x, func (Fin x) = Fin (f x))
             /\ f (0, 0) = (0, 0)
             /\ (forall p q, dist (f p) (f q) = dist p q)
             /\ dist (f (0, 0)) (0.5, 0)
                = Rabs (dist (0, 0) (0, 0) - dist (0, 0) (0.5, 0))
             /\ dist (f (0, 0)) (0.5, 0) < 1
             /\ (dist (0, 0) (0, 0) = dist (0, 0) (0.5, 0) ->
                 f (0, 0) = (0.5, 0))).
Proof.
  assert (H : Rabs (dist (0, 0) (0, 0) - dist (0, 0) (0.5, 0)) < 1).
  { rewrite dist_same.
    rewrite (dist_val (0, 0) (0.5, 0) 0.5) by (simpl; lra).
    unfold Rabs. destruct (Rcase_abs (0 - 0.5)); lra. }
  split; [exact H|].
  exact (proj2 (affinef_pnt_maps_segment (0, 0) (0, 0) (0, 0) (0.5, 0) 1) H).
Defined.

(** ** Symmetrizing a triangle matrix: [sym] *)

Lemma pntscount_tabulate n f : pntscount (tabulate n f) = n.
Proof. unfold pntscount, tabulate. now rewrite length_map, length_seq. Qed.

Lemma nth_map_seq {A : Type} (f : nat -> A) n i d :
  (i < n)%nat -> nth i (map f (seq 0 n)) d = f i.
Proof.
  intros Hi.
  rewrite (nth_indep _ d (f 0%nat)) by (now rewrite length_map, length_seq).
  rewrite map_nth, seq_nth by assumption. reflexivity.
Qed.

Lemma entry_tabulate n f i j :
  (i < n)%nat -> (j < n)%nat -> entry (tabulate n f) i j = f i j.
Proof.
  intros Hi Hj. unfold entry, tabulate.
  rewrite (nth_map_seq (fun i => map (f i) (seq 0 n))) by assumption.
  apply nth_map_seq. assumption.
Qed.

Lemma pntscount_sym A : pntscount (sym A) = pntscount A.
Proof.
  unfold sym, msub, madd. now rewrite !pntscount_tabulate.
Qed.

Lemma entry_sym A i j :
  (i < pntscount A)%nat -> (j < pntscount A)%nat ->
  entry (sym A) i j =
  entry A i j + entry A j i - (if Nat.eqb i j then entry A i i else 0).
Proof.
  intros Hi Hj. unfold sym, msub.
  rewrite entry_tabulate by (unfold madd; now rewrite pntscount_tabulate).
  unfold madd at 1. rewrite entry_tabulate by assumption.
  unfold transpose. rewrite entry_tabulate by assumption.
  f_equal. unfold diag, diagonal.
  rewrite entry_tabulate by (now rewrite length_map, length_seq).
  destruct (Nat.eqb i j); [|reflexivity].
  apply (nth_map_seq (fun i => entry A i i)). assumption.
Qed.

(** X7: [sym] returns a symmetric array with the diagonal of its argument;
    from an upper or a lower triangle it builds the symmetric array that
    has this triangle. *)
Theorem sym_symmetrizes :
  forall A i j,
    (i < pntscount A)%nat -> (j < pntscount A)%nat ->
    entry (sym A) i j = entry (sym A) j i
    /\ entry (sym A) i i = entry A i i
    /\ ((forall k l, (l < k)%nat -> entry A k l = 0) ->
        (i <= j)%nat -> entry (sym A) i j = entry A i j)
    /\ ((forall k l, (k < l)%nat -> entry A k l = 0) ->
        (j <= i)%nat -> entry (sym A) i j = entry A i j).
Proof.
  intros A i j Hi Hj. rewrite !entry_sym by assumption.
  rewrite (Nat.eqb_sym j i), Nat.eqb_refl.
  split; [|split; [|split]].
  - destruct (Nat.eqb_spec i j) as [->|Hne]; ring.
  - ring.
  - intros Hup Hij. destruct (Nat.eqb_spec i j) as [->|Hne]; [ring|].
    rewrite (Hup j i) by lia. ring.
  - intros Hlo Hij. destruct (Nat.eqb_spec i j) as [->|Hne]; [ring|].
    rewrite (Hlo j i) by lia. ring.
Qed.

Lemma sym_symmetrizes_witness :
  ((0 < pntscount A_upper)%nat /\ (2 < pntscount A_upper)%nat)
  /\ entry (sym A_upper) 0 2 = entry (sym A_upper) 2 0.
Proof.
  assert (H0 : (0 < pntscount A_upper)%nat) by (simpl; lia).
  assert (H2 : (2 < pntscount A_upper)%nat) by (simpl; lia).
  split; [split; assumption|].
  exact (proj1 (sym_symmetrizes A_upper 0 2 H0 H2)).
Defined.

(** ** What the validator accepts *)

Lemma distvalid_intro D err :
  (forall i j, (i < pntscount D)%nat -> (j < pntscount D)%nat ->
               entry D i j = entry D j i) ->
  (forall i, (i < pntscount D)%nat -> entry D i i = 0) ->
  (forall i j k, (i < j < k)%nat -> (k < pntscount D)%nat ->
                 known D i j -> known D i k -> known D j k ->
                 ~ violated D err i j k) ->
  distvalid D err = true.
Proof.
  intros Hsym Hdiag Htri. unfold distvalid.
  apply andb_true_intro. split; [apply andb_true_intro; split|].
  - apply forallb_forall. intros i Hi. apply forallb_forall. intros j Hj.
    apply in_seq in Hi. apply in_seq in Hj.
    apply Reqb_true. apply Hsym; lia.
  - apply forallb_forall. intros i Hi. apply in_seq in Hi.
    apply Reqb_true. apply Hdiag. lia.
  - apply forallb_forall. intros i Hi. apply forallb_forall. intros j Hj.
    apply forallb_forall. intros k Hk.
    apply in_seq in Hi. apply in_seq in Hj. apply in_seq in Hk.
    unfold Rgtb, Rgeb.
    destruct (Rltb (-0.5) (entry D i j)) eqn:E1; [|reflexivity].
    destruct (Rltb (-0.5) (entry D i k)) eqn:E2; [|reflexivity].
    destruct (Rltb (-0.5) (entry D j k)) eqn:E3; [|reflexivity].
    cbn [andb]. apply Rltb_iff in E1, E2, E3.
    assert (Hnv : ~ violated D err i j k)
      by (apply Htri; unfold known; lia || lra).
    unfold violated in Hnv.
    rewrite !Rleb_true by lra. reflexivity.
Qed.

(** X8: [distvalid] answers true exactly when the array is symmetric, has a
    zero diagonal, and every triple of known distances satisfies the three
    triangle inequalities up to [|err|]. *)
Theorem distvalid_true_iff :
  forall D err,
    distvalid D err = true <->
    (forall i j, (i < pntscount D)%nat -> (j < pntscount D)%nat ->
                 entry D i j = entry D j i)
    /\ (forall i, (i < pntscount D)%nat -> entry D i i = 0)
    /\ (forall i j k, (i < j < k)%nat -> (k < pntscount D)%nat ->
                      known D i j -> known D i k -> known D j k ->
                      ~ violated D err i j k).
Proof.
  intros D err. split.
  - intros H. split; [|split].
    + intros i j. apply (distvalid_sym D err). assumption.
    + intros i. apply (distvalid_diag D err). assumption.
    + intros i j k. apply (distvalid_triple D err). assumption.
  - intros [Hs [Hd Ht]]. apply distvalid_intro; assumption.
Qed.

Lemma distvalid_true_iff_witness :
  distvalid D_hole 0 = true
  /\ forall i, (i < pntscount D_hole)%nat -> entry D_hole i i = 0.
Proof.
  assert (H : distvalid D_hole 0 = true) by apply distvalid_hole.
  split; [exact H|].
  exact (proj1 (proj2 (proj1 (distvalid_true_iff D_hole 0) H))).
Defined.

(** X9: [distvalid] depends on the tolerance through its absolute value only,
    and a matrix valid for one tolerance is valid for every larger one. *)
Theorem distvalid_tolerance :
  forall D err err',
    distvalid D (- err) = distvalid D err
    /\ (Rabs err <= Rabs err' -> distvalid D err = true ->
        distvalid D err' = true).
Proof.
  assert (Hmono : forall D e e',
             Rabs e <= Rabs e' -> distvalid D e = true ->
             distvalid D e' = true).
  { intros D e e' Hle H. apply distvalid_intro.
    - intros i j. apply (distvalid_sym D e). assumption.
    - intros i. apply (distvalid_diag D e). assumption.
    - intros i j k Hijk Hk H1 H2 H3 Hviol.
      apply (distvalid_triple D e i j k H Hijk Hk H1 H2 H3).
      unfold violated in *. lra. }
  intros D err err'. split; [|apply Hmono].
  apply eq_true_iff_eq. split; apply Hmono; rewrite Rabs_Ropp; lra.
Qed.

Lemma distvalid_tolerance_witness :
  (Rabs 0 <= Rabs 1 /\ distvalid D_3_4_5 0 = true)
  /\ distvalid D_3_4_5 1 = true.
Proof.
  assert (H1 : Rabs 0 <= Rabs 1)
    by (rewrite Rabs_R0; apply Rabs_pos).
  assert (H2 : distvalid D_3_4_5 0 = true) by apply distvalid_3_4_5.
  split; [split; assumption|].
  exact (proj2 (distvalid_tolerance D_3_4_5 0 1) H1 H2).
Defined.

(** ** Comparing, rotating and removing duplicates, once more *)

Lemma fdist_sym v w : fdist v w = fdist w v.
Proof.
  destruct v as [p|], w as [q|]; simpl; try reflexivity.
  now rewrite dist_sym.
Qed.

Lemma rdist_sym a b : rdist a b = rdist b a.
Proof.
  destruct a as [v|v], b as [w|w]; simpl; rewrite (fdist_sym v w);
    reflexivity.
Qed.

Lemma agree_sym prec s1 s2 : agree prec s1 s2 -> agree prec s2 s1.
Proof.
  destruct s1 as [p|], s2 as [q|]; simpl; try tauto.
  now rewrite rdist_sym.
Qed.

Lemma rdist_self a d : rdist a a = Some d -> floats a <> NaN /\ d = 0.
Proof.
  destruct (floats a) as [p|] eqn:E.
  - rewrite (rdist_same a p E). intros H; inversion H; subst.
    split; [discriminate | reflexivity].
  - rewrite rdist_nan by (left; assumption). discriminate.
Qed.

(** X10: [solequal] does not depend on the order of its two solutions; a
    solution equals itself exactly when none of its points is placed, or
    the tolerance is positive and no slot holds nan. *)
Theorem solequal_symmetric_reflexive :
  forall s1 s2 prec,
    solequal s1 s2 prec = solequal s2 s1 prec
    /\ (solequal s1 s1 prec = true
        <-> (0 < prec /\ nan_free s1) \/ nplaced s1 = O).
Proof.
  intros s1 s2 prec. split.
  - apply eq_true_iff_eq. rewrite !solequal_true.
    split; intros H k H1 H2; apply agree_sym; apply H; assumption.
  - rewrite solequal_true. split.
    + intros H.
      destruct (filter placed s1) as [|e l] eqn:E;
        [right; unfold nplaced; rewrite E; reflexivity|].
      left.
      assert (Hin : In e (filter placed s1)) by (rewrite E; left; reflexivity).
      apply filter_In in Hin as [Hin He].
      apply (In_nth _ _ None) in Hin as [k [Hk Hn]].
      pose proof (H k Hk Hk) as Hk'. change (get s1 k = e) in Hn.
      rewrite Hn in Hk'.
      destruct e as [a|]; [|discriminate].
      simpl in Hk'. destruct Hk' as [d [Hd Hlt]].
      destruct (rdist_self _ _ Hd) as [_ ->].
      split; [assumption|].
      intros k' a' Hg.
      pose proof (get_Some_lt _ _ _ Hg) as Hl.
      specialize (H k' Hl Hl). rewrite Hg in H. simpl in H.
      destruct H as [d' [Hd' _]]. apply (rdist_self _ _ Hd').
    + intros [[Hp Hs] | Hn] k Hk _.
      * destruct (get s1 k) as [a|] eqn:E; simpl; [|trivial].
        destruct (floats a) as [q|] eqn:Ea; [|exfalso; exact (Hs k a E Ea)].
        exists 0. split; [apply (rdist_same a q Ea) | assumption].
      * destruct (get s1 k) as [a|] eqn:E; simpl; [|trivial].
        exfalso. unfold nplaced in Hn.
        assert (Hin : In (Some a) (filter placed s1)).
        { apply filter_In. split; [|reflexivity].
          rewrite <- E. unfold get. apply nth_In. assumption. }
        destruct (filter placed s1); [destruct Hin | discriminate].
Qed.

Lemma solequal_symmetric_reflexive_witness :
  ((0 < 1 /\ nan_free (fin s345_up)) \/ nplaced (fin s345_up) = O)
  /\ solequal (fin s345_up) (fin s345_up) 1 = true.
Proof.
  assert (H : (0 < 1 /\ nan_free (fin s345_up))
              \/ nplaced (fin s345_up) = O)
    by (left; split; [lra | apply nan_free_fin]).
  split; [exact H|].
  exact (proj2 (proj2 (solequal_symmetric_reflexive
                         (fin s345_up) (fin s345_up) 1)) H).
Defined.

Lemma mapM_id {A} (f : A -> exc A) l :
  (forall a, In a l -> f a = Ok a) -> mapM f l = Ok l.
Proof.
  induction l as [|a l IH]; intros H; simpl; [reflexivity|].
  rewrite (H a (or_introl eq_refl)). cbn [bind].
  rewrite IH by (intros b Hb; apply H; right; assumption). reflexivity.
Qed.

(** [rotate] on one solution returns exactly when its slots 0 and 1 are
    placed. *)
Lemma rotate1_returns (s : solution) :
  (exists s', rotate1 s = Ok s')
  <-> placed (get s 0) = true /\ placed (get s 1) = true.
Proof.
  split.
  - intros [s' H].
    destruct (rotate1_spec _ _ H) as [pa [pb [g [H0 [H1 _]]]]].
    rewrite H0, H1. split; reflexivity.
  - intros [H0 H1].
    destruct (get s 0) as [pa|] eqn:E0; [|discriminate].
    destruct (get s 1) as [pb|] eqn:E1; [|discriminate].
    unfold rotate1. rewrite (two_slots s pb E1), E0, E1.
    destruct (tranmat_cases pa pb) as [[_ [A [sv Ht]]]|[_ Ht]];
      unfold point in *; rewrite Ht; cbn [bind]; eexists; reflexivity.
Qed.

(** A rotated solution, rotated again, does not change. *)
Lemma rotate1_idempotent (s : solution) pa pb :
  get s 0 = Some pa -> get s 1 = Some pb -> pa <> pb ->
  Forall (fun e => placed e = true) s ->
  exists s0, rotate1 s = Ok (fin s0) /\ rotate1 s0 = Ok (fin s0).
Proof.
  intros H0 H1 Hne Hall.
  assert (Hc : dist pa pb <> 0) by (rewrite dist_zero_iff; assumption).
  exists (map (option_map (toframe pa pb)) s).
  split; [apply rotate1_toframe; assumption|].
  apply (rotate1_canonical _ (dist pa pb)).
  - destruct s as [|e0 s]; [discriminate H0|].
    unfold get in *. simpl in *. rewrite H0. simpl.
    now rewrite toframe_origin.
  - destruct s as [|e0 [|e1 s]]; try discriminate H1.
    unfold get in *. simpl in *. rewrite H1. simpl.
    now rewrite toframe_axis.
  - pose proof (dist_nonneg pa pb). lra.
  - apply Forall_map. eapply Forall_impl; [|exact Hall].
    intros [p|] Hp; [reflexivity | discriminate].
Qed.

(** What [rotate] does to the slots of one solution. *)
Lemma rotate1_slots (s : solution) s' :
  rotate1 s = Ok s' ->
  length s' = length s
  /\ exists pa pb,
       get s 0 = Some pa /\ get s 1 = Some pb
       /\ (pa <> pb ->
           forall i j pi pj,
             get s i = Some pi -> get s j = Some pj ->
             exists pi' pj',
               get s' i = Some (pt pi') /\ get s' j = Some (pt pj')
               /\ dist pi' pj' = dist pi pj)
       /\ (pa = pb ->
           forall k, (k < length s)%nat ->
                     exists a, get s' k = Some a /\ floats a = NaN).
Proof.
  intros H.
  destruct (rotate1_spec _ _ H) as [pa [pb [g [H0 [H1 [Ht ->]]]]]].
  split; [apply length_map|].
  exists pa, pb. split; [assumption|]. split; [assumption|].
  assert (G : forall k, (k < length s)%nat ->
                        get (map (moved g) s) k = moved g (get s k))
    by (intros k Hk; apply get_map; assumption).
  destruct (tranmat_cases pa pb) as [[Hne [A [sv HA]]]|[He HN]].
  - rewrite HA in Ht. inversion Ht; subst. split; [|contradiction].
    intros _ i j pi pj Hi Hj.
    exists (image A sv pi), (image A sv pj).
    rewrite !G by (eapply get_Some_lt; eassumption).
    rewrite Hi, Hj. split; [reflexivity|]. split; [reflexivity|].
    apply (affinef_isometry _ _ _ _ _ _ HA).
  - rewrite HN in Ht. inversion Ht; subst. split; [contradiction|].
    intros _ k Hk. rewrite G by assumption.
    destruct (get s k) as [p|]; simpl; eexists; split; reflexivity.
Qed.

(** X11: [rotate] returns exactly when the slots 0 and 1 of every solution
    are placed.  It keeps the number of solutions and of slots.  In a
    solution whose points 0 and 1 are distinct it keeps every distance
    between two points; in a solution whose points 0 and 1 coincide it
    divides by zero and leaves nan in every slot.  It is idempotent:
    fully placed solutions with distinct points 0 and 1 are rotated into
    solutions that a second rotation does not change. *)
Theorem rotate_idempotent_rigid :
  forall res,
    ((exists rot, rotate res = Ok rot)
     <-> Forall (fun s => placed (get s 0) = true
                          /\ placed (get s 1) = true) res)
    /\ (forall rot,
          rotate res = Ok rot ->
          Forall2 (fun s s' =>
                     length s' = length s
                     /\ exists pa pb,
                          get s 0 = Some pa /\ get s 1 = Some pb
                          /\ (pa <> pb ->
                              forall i j pi pj,
                                get s i = Some pi -> get s j = Some pj ->
                                exists pi' pj',
                                  get s' i = Some (pt pi')
                                  /\ get s' j = Some (pt pj')
                                  /\ dist pi' pj' = dist pi pj)
                          /\ (pa = pb ->
                              forall k, (k < length s)%nat ->
                                exists a, get s' k = Some a
                                          /\ floats a = NaN))
                  res rot)
    /\ (Forall (fun s => Forall (fun e => placed e = true) s
                         /\ (2 <= length s)%nat
                         /\ get s 0 <> get s 1) res ->
        exists rot0,
          rotate res = Ok (map fin rot0)
          /\ rotate rot0 = Ok (map fin rot0)).
Proof.
  intros res. split; [|split].
  - unfold rotate. induction res as [|s res IH]; simpl.
    + split; [constructor | intros _; eexists; reflexivity].
    + split.
      * intros [rot H].
        destruct (rotate1 s) as [s'|e] eqn:E; cbn [bind] in H;
          [|discriminate].
        destruct (mapM rotate1 res) as [rot'|e]; cbn [bind] in H;
          [|discriminate].
        constructor.
        -- apply rotate1_returns. exists s'. assumption.
        -- apply IH. eexists. reflexivity.
      * intros H. inversion H as [|s0 l Hs Hl]; subst.
        apply rotate1_returns in Hs as [s' ->].
        apply IH in Hl as [rot' ->]. cbn [bind]. eexists. reflexivity.
  - unfold rotate.
    induction res as [|s res IH]; intros rot; simpl.
    + intros H; inversion H; subst. constructor.
    + destruct (rotate1 s) as [s'|e] eqn:E; cbn [bind]; [|discriminate].
      destruct (mapM rotate1 res) as [rot'|e]; cbn [bind]; [|discriminate].
      intros H; inversion H; subst. constructor; [|apply IH; reflexivity].
      apply rotate1_slots. assumption.
  - unfold rotate. induction res as [|s res IH]; intros H.
    + exists []. split; reflexivity.
    + inversion H as [|s0 l [Hall [Hlen Hne]] Hl]; subst.
      destruct (IH Hl) as [rot0 [Hr Hr0]].
      assert (H1 : exists pa pb, get s 0 = Some pa /\ get s 1 = Some pb
                                 /\ pa <> pb).
      { destruct s as [|e0 [|e1 s]]; simpl in Hlen; try lia.
        inversion Hall as [|? ? P0 Hall']; subst.
        inversion Hall' as [|? ? P1 _]; subst.
        destruct e0 as [pa|]; [|discriminate].
        destruct e1 as [pb|]; [|discriminate].
        exists pa, pb. split; [reflexivity|]. split; [reflexivity|].
        intros ->. apply Hne. reflexivity. }
      destruct H1 as [pa [pb [G0 [G1 Hab]]]].
      destruct (rotate1_idempotent s pa pb G0 G1 Hab Hall)
        as [s0 [Hs Hs0]].
      exists (s0 :: rot0). simpl. rewrite Hs, Hr, Hs0, Hr0. split; reflexivity.
Qed.

Lemma rotate_idempotent_rigid_witness :
  Forall (fun s => Forall (fun e : slot => placed e = true) s
                   /\ (2 <= length s)%nat
                   /\ get s 0 <> get s 1) [s345_02_up]
  /\ exists rot0,
       rotate [s345_02_up] = Ok (map fin rot0)
       /\ rotate rot0 = Ok (map fin rot0).
Proof.
  assert (H : Forall (fun s => Forall (fun e : slot => placed e = true) s
                               /\ (2 <= length s)%nat
                               /\ get s 0 <> get s 1) [s345_02_up]).
  { constructor; [|constructor]. split; [repeat constructor|].
    split; [simpl; lia|].
    unfold get; simpl. intros E; inversion E; lra. }
  split; [exact H|].
  exact (proj2 (proj2 (rotate_idempotent_rigid [s345_02_up])) H).
Defined.

Lemma FOP_app_left {A} (Rel : A -> A -> Prop) l1 x l2 :
  ForallOrdPairs Rel (l1 ++ x :: l2) -> Forall (fun a => Rel a x) l1.
Proof.
  induction l1 as [|a l1 IH]; simpl; intros H; [constructor|].
  inversion H as [|a' l' Ha Hl]; subst. constructor.
  - rewrite Forall_forall in Ha. apply Ha. apply in_or_app. right. left.
    reflexivity.
  - apply IH. assumption.
Qed.

Lemma dedup_fold_fixed prec tl sol :
  ForallOrdPairs (fun a b => solequal b a prec = false) (sol ++ tl) ->
  fold_left (dedup_step prec) tl sol = sol ++ tl.
Proof.
  revert sol. induction tl as [|x tl IH]; intros sol H; simpl.
  - now rewrite app_nil_r.
  - assert (Hs : dedup_step prec sol x = sol ++ [x]).
    { unfold dedup_step.
      replace (forallb (fun j => negb (solequal x j prec)) sol) with true;
        [reflexivity|].
      symmetry. apply forallb_forall. intros a Ha.
      apply FOP_app_left in H. rewrite Forall_forall in H.
      rewrite (H a Ha). reflexivity. }
    rewrite Hs, IH; rewrite <- app_assoc; [reflexivity | exact H].
Qed.

(** X12: the deduplication is idempotent, and leaves a list unchanged exactly
    when no solution of it equals an earlier one. *)
Theorem dedup_idempotent :
  forall prec res,
    dedup prec (dedup prec res) = dedup prec res
    /\ (dedup prec res = res <->
        ForallOrdPairs (fun a b => solequal b a prec = false) res).
Proof.
  assert (Hfix : forall prec l,
             ForallOrdPairs (fun a b => solequal b a prec = false) l ->
             dedup prec l = l).
  { intros prec [|r0 tl] H; [reflexivity|].
    apply (dedup_fold_fixed prec tl [r0]). exact H. }
  assert (Hd : forall prec res,
             ForallOrdPairs (fun a b => solequal b a prec = false)
                            (dedup prec res)).
  { intros prec [|r0 tl]; simpl; [constructor|].
    apply dedup_fold_distinct. repeat constructor. }
  intros prec res. split; [apply Hfix, Hd|].
  split; [intros <-; apply Hd | apply Hfix].
Qed.

Lemma dedup_idempotent_witness :
  ForallOrdPairs (fun a b => solequal b a 1 = false)
                 [fin s345_up; fin s345_down]
  /\ dedup 1 [fin s345_up; fin s345_down] = [fin s345_up; fin s345_down].
Proof.
  assert (H : ForallOrdPairs (fun a b => solequal b a 1 = false)
                             [fin s345_up; fin s345_down]).
  { repeat constructor. apply solequal_down_up. lra. }
  split; [exact H|].
  exact (proj2 (proj2 (dedup_idempotent 1 [fin s345_up; fin s345_down]))
           H).
Defined.

(** ** How the placer and the passes end *)

Lemma pntcoord_unknown sol i n m D prec :
  entry D i n < -0.5 \/ entry D i m < -0.5 ->
  pntcoord sol i n m D prec = Ok ([], Indeterminate).
Proof.
  intros H. unfold pntcoord.
  replace (Rltb (entry D i n) (-0.5) || Rltb (entry D i m) (-0.5))
    with true; [reflexivity|].
  symmetry. apply orb_true_iff. rewrite !Rltb_iff. assumption.
Qed.

Lemma pntcoord_shape sol i n m D prec pts st :
  pntcoord sol i n m D prec = Ok (pts, st) ->
  (st = Indeterminate -> entry D i n < -0.5 \/ entry D i m < -0.5)
  /\ (st <> Placed -> pts = [])
  /\ (length pts <= 2)%nat.
Proof.
  unfold pntcoord.
  destruct (Rltb (entry D i n) (-0.5) || Rltb (entry D i m) (-0.5)) eqn:E.
  { intros H; inversion H; subst.
    apply orb_true_iff in E. rewrite !Rltb_iff in E.
    repeat split; simpl; auto. }
  destruct (Rltb _ (dist_slot _ _)).
  { intros H; inversion H; subst.
    repeat split; simpl; auto. discriminate. }
  unfold place.
  destruct (candidates sol i n m D) as [[[p1 p2] [y1 y2]]|e];
    cbn [bind]; [|discriminate].
  destruct (valid sol i D prec p1), (valid sol i D prec p2);
    destruct (Rltb (Rabs (y1 - y2)) (prec / 4));
    destruct p1 as [q1|], p2 as [q2|]; simpl;
    intros H; inversion H; subst;
    (split; [discriminate|]); (split; [congruence || reflexivity|]);
    simpl; lia.
Qed.

(** X13: the outcomes of [pntcoord]: state 1 exactly when a distance to an
    anchor is unknown, whatever the solution holds; positions only with
    state 0, at most two of them, each one finite and valid.  With two
    placed anchors it returns; when the two anchors coincide and both
    distances are known it divides by zero, the candidates hold nan, and
    the answer is a contradiction. *)
Theorem pntcoord_outcomes :
  forall sol i n m D prec,
    (entry D i n < -0.5 \/ entry D i m < -0.5 ->
     pntcoord sol i n m D prec = Ok ([], Indeterminate))
    /\ (forall pts st,
          pntcoord sol i n m D prec = Ok (pts, st) ->
          (st = Indeterminate ->
           entry D i n < -0.5 \/ entry D i m < -0.5)
          /\ (st <> Placed -> pts = [])
          /\ (length pts <= 2)%nat
          /\ forall p, In p pts -> valid sol i D prec (Fin p) = true)
    /\ (placed (get sol n) = true -> placed (get sol m) = true ->
        exists pts st, pntcoord sol i n m D prec = Ok (pts, st))
    /\ (forall p,
          get sol n = Some p -> get sol m = Some p ->
          ~ entry D i n < -0.5 -> ~ entry D i m < -0.5 ->
          pntcoord sol i n m D prec = Ok ([], Contradiction)).
Proof.
  intros sol i n m D prec. split; [apply pntcoord_unknown|].
  split; [|split].
  - intros pts st H.
    destruct (pntcoord_shape _ _ _ _ _ _ _ _ H) as [H1 [H2 H3]].
    repeat split; try assumption.
    exact (pntcoord_valid _ _ _ _ _ _ _ _ H).
  - intros Hn Hm.
    destruct (pntcoord sol i n m D prec) as [[pts st]|e] eqn:E.
    + exists pts, st. reflexivity.
    + exfalso. exact (pntcoord_fault sol i n m D prec e Hn Hm E).
  - intros p Hn Hm Kn Km.
    rewrite (pntcoord_coincide sol i n m D prec p Hn Hm).
    rewrite (Rltb_false (entry D i n)), (Rltb_false (entry D i m)) by lra.
    reflexivity.
Qed.

Lemma pntcoord_outcomes_witness :
  (entry D_hole 2 0 < -0.5 \/ entry D_hole 2 1 < -0.5)
  /\ pntcoord (start D_hole 0 1) 2 0 1 D_hole 1 = Ok ([], Indeterminate).
Proof.
  assert (H : entry D_hole 2 0 < -0.5 \/ entry D_hole 2 1 < -0.5)
    by (left; unfold entry; simpl; lra).
  split; [exact H|].
  exact (proj1 (pntcoord_outcomes (start D_hole 0 1) 2 0 1 D_hole 1) H).
Defined.

Lemma indices_snoc f (sol : solution) a :
  indices f (sol ++ [a]) =
  indices f sol ++ (if f a then [length sol] else []).
Proof.
  unfold indices. rewrite length_app. simpl length.
  rewrite Nat.add_1_r, seq_S, filter_app. simpl.
  f_equal.
  - apply filter_ext_in. intros k Hk. apply in_seq in Hk.
    unfold get. now rewrite app_nth1 by lia.
  - unfold get. rewrite app_nth2, Nat.sub_diag by lia. reflexivity.
Qed.

Lemma length_indices f (sol : solution) :
  length (indices f sol) = length (filter f sol).
Proof.
  induction sol as [|a sol IH] using rev_ind; [reflexivity|].
  rewrite indices_snoc, filter_app, !length_app, IH. simpl.
  destruct (f a); reflexivity.
Qed.

Lemma anchor_pairs_few l : (length l < 2)%nat -> anchor_pairs l = [].
Proof.
  intros H. destruct l as [|a [|b l]]; simpl in H; try lia; reflexivity.
Qed.

Lemma addpoint_loop_shape sol i D prec ps res st out s :
  addpoint_loop sol i D prec ps res st = Ok (out, s) ->
  exists pts,
    out = res ++ map (fun pnt => set sol i (Some pnt)) pts
    /\ (length pts <= 2)%nat /\ (s <> Placed -> pts = []).
Proof.
  revert res st. induction ps as [|[n m] ps IH]; intros res st; simpl.
  - destruct st as [s0|]; [|discriminate].
    intros H; inversion H; subst. exists []. simpl.
    rewrite app_nil_r. repeat split. lia.
  - destruct (pntcoord sol i n m D prec) as [[pts s0]|e] eqn:E; cbn [bind];
      [|discriminate].
    destruct (pntcoord_shape _ _ _ _ _ _ _ _ E) as [_ [Hnp Hlen]].
    destruct s0; simpl.
    + intros H; inversion H; subst. exists pts. repeat split; [assumption|].
      congruence.
    + apply IH.
    + intros H; inversion H; subst. exists []. simpl.
      rewrite app_nil_r. repeat split. lia.
Qed.

(** X14: [addpoint] for a point that is not placed yet: with fewer than two
    placed points the local variable [state] is read before any
    assignment; otherwise the result holds at most two solutions, each one
    the given solution with a valid position written into slot [i], and
    none unless the state is 0. *)
Theorem addpoint_outcomes :
  forall sol i D prec,
    get sol i = None ->
    ((nplaced sol < 2)%nat ->
     addpoint sol i D prec = Raise UnboundLocalError)
    /\ (forall out st,
          addpoint sol i D prec = Ok (out, st) ->
          (2 <= nplaced sol)%nat
          /\ (st <> Placed -> out = [])
          /\ (length out <= 2)%nat
          /\ forall s', In s' out ->
               exists pnt, valid sol i D prec (Fin pnt) = true
                           /\ s' = set sol i (Some pnt)).
Proof.
  intros sol i D prec Hg. unfold addpoint at 1 2. rewrite Hg.
  cbn [placed].
  assert (Hlen : length (indices placed sol) = nplaced sol)
    by apply length_indices.
  split.
  - intros H. rewrite anchor_pairs_few by lia. reflexivity.
  - intros out st H. split; [|split; [|split]].
    + destruct (Nat.lt_ge_cases (nplaced sol) 2) as [Hlt|Hge]; [|assumption].
      rewrite anchor_pairs_few in H by lia. discriminate.
    + destruct (addpoint_loop_shape _ _ _ _ _ _ _ _ _ H)
        as [pts [-> [_ Hnp]]].
      intros Hs. rewrite (Hnp Hs). reflexivity.
    + destruct (addpoint_loop_shape _ _ _ _ _ _ _ _ _ H)
        as [pts [-> [Hl _]]].
      simpl. now rewrite length_map.
    + intros s' Hs'.
      destruct (addpoint_loop_ext _ _ _ _ _ _ _ _ _ H s' Hs') as [[]|Hp].
      assumption.
Qed.

Lemma addpoint_outcomes_witness :
  (get [Some (0, 0); None] 1 = None
   /\ (nplaced [Some (0%R, 0%R); None] < 2)%nat)
  /\ addpoint [Some (0, 0); None] 1 D_hole 1 = Raise UnboundLocalError.
Proof.
  assert (Hg : get [Some (0, 0); None] 1 = None) by reflexivity.
  assert (Hn : (nplaced [Some (0%R, 0%R); None] < 2)%nat)
    by (unfold nplaced; simpl; lia).
  split; [split; assumption|].
  exact (proj1 (addpoint_outcomes [Some (0, 0); None] 1 D_hole 1 Hg) Hn).
Defined.

Lemma addpoints_loop_shape sol D prec pleft res pf out st :
  (pf = false -> res = []) ->
  addpoints_loop sol D prec pleft res pf = Ok (out, st) ->
  st <> Placed -> out = [].
Proof.
  revert res pf. induction pleft as [|i pleft IH]; intros res pf Hpf; simpl.
  - destruct pf; intros H; inversion H; subst; [congruence|].
    intros _. apply Hpf. reflexivity.
  - destruct (addpoint sol i D prec) as [[ires s]|e]; cbn [bind];
      [|discriminate].
    destruct s.
    + apply IH. discriminate.
    + apply IH. assumption.
    + intros H; inversion H; subst. reflexivity.
Qed.

Lemma indices_all_placed (sol : solution) :
  nplaced sol = length sol -> indices (fun s => negb (placed s)) sol = [].
Proof.
  intros H. unfold indices.
  destruct (filter _ (seq 0 (length sol))) as [|k l] eqn:E; [reflexivity|].
  assert (Hin : In k (filter (fun n => negb (placed (get sol n)))
                             (seq 0 (length sol))))
    by (rewrite E; left; reflexivity).
  apply filter_In in Hin as [Hin Hk]. apply in_seq in Hin.
  assert (Hlt : (k < length sol)%nat)
    by (unfold solution, slot, point in *; lia).
  rewrite (nplaced_full sol k H Hlt) in Hk. discriminate.
Qed.

(** X15: one pass of [addpoints]: solutions are returned only with state 0, a
    contradiction for one point discards what the points before it gave;
    each returned solution is the given one with exactly one more point,
    the placed points unchanged; a solution with all points placed gives
    state 1 and nothing. *)
Theorem addpoints_outcomes :
  forall sol D prec,
    (nplaced sol = length sol ->
     addpoints sol D prec = Ok ([], Indeterminate))
    /\ (forall out st,
          addpoints sol D prec = Ok (out, st) ->
          (st <> Placed -> out = [])
          /\ forall s', In s' out ->
               length s' = length sol
               /\ nplaced s' = S (nplaced sol)
               /\ forall k p, get sol k = Some p -> get s' k = Some p).
Proof.
  intros sol D prec. split.
  - intros H. unfold addpoints. rewrite indices_all_placed by assumption.
    reflexivity.
  - intros out st H. split.
    + unfold addpoints in H.
      apply (addpoints_loop_shape _ _ _ _ _ _ _ _ (fun _ => eq_refl) H).
    + intros s' Hs'.
      destruct (addpoints_ext _ _ _ _ _ H s' Hs') as [i pnt Hi Hg _ ->].
      split; [apply length_set|].
      split; [apply nplaced_set; assumption|].
      intros k p Hk. rewrite get_set_other; [assumption|].
      intros ->. rewrite Hg in Hk. discriminate.
Qed.

Lemma addpoints_outcomes_witness :
  nplaced s345_up = length s345_up
  /\ addpoints s345_up D_3_4_5 1 = Ok ([], Indeterminate).
Proof.
  assert (H : nplaced s345_up = length s345_up) by reflexivity.
  split; [exact H|].
  exact (proj1 (addpoints_outcomes s345_up D_3_4_5 1) H).
Defined.

(** ** What the enumerator and the orchestrator return *)

Lemma reach_keeps D prec k s s' i p :
  reach D prec k s s' -> get s i = Some p -> get s' i = Some p.
Proof.
  induction 1 as [|k s s1 s2 Hex _ IH]; intros Hg; [assumption|].
  apply IH. destruct Hex as [i0 pnt _ Hn _ ->].
  rewrite get_set_other; [assumption|].
  intros ->. rewrite Hn in Hg. discriminate.
Qed.

(** X16: every solution of [triangulatesgl] has the first starting point at
    the origin and the second on the x-axis at their distance, as it has
    been written into the starting solution. *)
Theorem triangulatesgl_starting_points :
  forall D sp1 sp2 prec res,
    sp1 <> sp2 -> (sp1 < pntscount D)%nat -> (sp2 < pntscount D)%nat ->
    triangulatesgl D sp1 sp2 prec = Ok res ->
    forall s, In s res ->
      get s sp1 = Some (0, 0) /\ get s sp2 = Some (entry D sp1 sp2, 0).
Proof.
  intros D sp1 sp2 prec res Hne H1 H2 H s Hs.
  destruct (triangulatesgl_reach _ _ _ _ _ H s Hs) as [_ Hr].
  split; apply (reach_keeps _ _ _ _ _ _ _ Hr); unfold start.
  - rewrite get_set_other by assumption.
    apply get_set_same. now rewrite repeat_length.
  - apply get_set_same. now rewrite length_set, repeat_length.
Qed.

Lemma triangulatesgl_starting_points_witness :
  (0%nat <> 1%nat /\ (0 < pntscount D_3_4_5)%nat
   /\ (1 < pntscount D_3_4_5)%nat
   /\ triangulatesgl D_3_4_5 0 1 1 = Ok [s345_up; s345_down]
   /\ In s345_down [s345_up; s345_down])
  /\ get s345_down 0 = Some (0, 0)
  /\ get s345_down 1 = Some (entry D_3_4_5 0 1, 0).
Proof.
  assert (Hne : 0%nat <> 1%nat) by discriminate.
  assert (H0 : (0 < pntscount D_3_4_5)%nat) by (simpl; lia).
  assert (H1 : (1 < pntscount D_3_4_5)%nat) by (simpl; lia).
  assert (Ht : triangulatesgl D_3_4_5 0 1 1 = Ok [s345_up; s345_down])
    by (apply triangulatesgl_3_4_5; lra).
  assert (Hin : In s345_down [s345_up; s345_down])
    by (right; left; reflexivity).
  split; [repeat split; assumption|].
  exact (triangulatesgl_starting_points D_3_4_5 0 1 1 [s345_up; s345_down]
           Hne H0 H1 Ht s345_down Hin).
Defined.

(** X17: a call of [triangulate] raises [ValueError] or returns, and
    every solution that it returns has one slot per point of the matrix;
    every slot holds an array of two floats, which are finite in all the
    slots of the solution, or nan in all of them. *)
Theorem triangulate_solutions_complete :
  forall D prec all_pos,
    (triangulate D prec all_pos = ValueError
     \/ exists sols, triangulate D prec all_pos = Return sols)
    /\ forall sols,
         triangulate D prec all_pos = Return sols ->
         forall s, In s sols ->
           length s = pntscount D
           /\ (all_finite s \/ all_nan s)
           /\ forall k, (k < pntscount D)%nat ->
                        exists v, get s k = Some (Vec v).
Proof.
  intros D prec all_pos. split; [apply triangulate_returns|].
  intros sols H s' Hs'.
  destruct (triangulate_rotated _ _ _ _ _ H Hs')
    as [s [pa [pb [Hrot [Hl [HF [_ [_ Hc]]]]]]]].
  assert (Hlen : length s' = pntscount D).
  { destruct (rotate1_slots _ _ Hrot) as [Hl' _]. now rewrite Hl'. }
  split; [assumption|].
  assert (Hg : forall k, (k < pntscount D)%nat ->
                         exists p, get s k = Some p).
  { intros k Hk. rewrite Forall_forall in HF.
    assert (Hin : In (get s k) s)
      by (unfold get; apply nth_In; types; rewrite Hl; assumption).
    specialize (HF _ Hin). destruct (get s k) as [p|]; [|discriminate].
    exists p. reflexivity. }
  destruct Hc as [[_ [A [sv [_ ->]]]]|[_ ->]].
  - split.
    + left. apply all_finite_fin. apply Forall_map.
      apply (Forall_impl _ (P := fun e : slot => placed e = true));
        [|assumption].
      intros [p|] Hp; [reflexivity | discriminate].
    + intros k Hk. destruct (Hg k Hk) as [p Hp].
      rewrite get_fin.
      assert (G : get (map (option_map (image A sv)) s) k
                  = option_map (image A sv) (get s k))
        by (apply get_map; types; rewrite Hl; assumption).
      rewrite G, Hp. simpl. eexists. reflexivity.
  - split; [right; apply all_nan_map|].
    intros k Hk.
    assert (G : get (map (fun _ : slot => Some (Vec NaN)) s) k
                = (fun _ : slot => Some (Vec NaN)) (get s k))
      by (apply get_map; types; rewrite Hl; assumption).
    exists NaN. exact G.
Qed.

Lemma triangulate_solutions_complete_witness :
  (triangulate D_3_4_5 1 false = Return [fin s345_up; fin s345_down]
   /\ In (fin s345_down) [fin s345_up; fin s345_down])
  /\ length (fin s345_down) = pntscount D_3_4_5
  /\ (all_finite (fin s345_down) \/ all_nan (fin s345_down))
  /\ forall k, (k < pntscount D_3_4_5)%nat ->
               exists v, get (fin s345_down) k = Some (Vec v).
Proof.
  assert (Ht : triangulate D_3_4_5 1 false
               = Return [fin s345_up; fin s345_down])
    by (apply triangulate_3_4_5; lra).
  assert (Hin : In (fin s345_down) [fin s345_up; fin s345_down])
    by (right; left; reflexivity).
  split; [split; assumption|].
  exact (proj2 (triangulate_solutions_complete D_3_4_5 1 false)
           [fin s345_up; fin s345_down] Ht (fin s345_down) Hin).
Defined.

Lemma first_prefix_of_all D prec es r r' :
  first_success D prec es = Ok r -> all_results D prec es = Ok r' ->
  exists rest, r' = r ++ rest.
Proof.
  revert r'. induction es as [|[i j] es IH]; intros r'; simpl.
  - intros H H'; inversion H; inversion H'; subst. exists []. reflexivity.
  - destruct (triangulatesgl D i j prec) as [r0|e]; cbn [bind];
      [|discriminate].
    destruct (all_results D prec es) as [rs|e]; cbn [bind]; [|discriminate].
    destruct r0 as [|s r0]; simpl.
    + intros H H'; inversion H'; subst. apply IH; [assumption | reflexivity].
    + intros H H'; inversion H; inversion H'; subst. exists rs. reflexivity.
Qed.

Lemma mapM_app_inv {A B} (f : A -> exc B) l1 l2 l :
  mapM f (l1 ++ l2) = Ok l ->
  exists m1 m2, mapM f l1 = Ok m1 /\ mapM f l2 = Ok m2 /\ l = m1 ++ m2.
Proof.
  revert l. induction l1 as [|a l1 IH]; intros l; simpl.
  - intros H. exists [], l. repeat split. assumption.
  - destruct (f a) as [b|e]; cbn [bind]; [|discriminate].
    destruct (mapM f (l1 ++ l2)) as [bs|e] eqn:E; cbn [bind]; [|discriminate].
    intros H; inversion H; subst.
    destruct (IH bs eq_refl) as [m1 [m2 [H1 [H2 ->]]]].
    rewrite H1. cbn [bind]. exists (b :: m1), m2. repeat split. assumption.
Qed.

Lemma dedup_app prec l1 l2 :
  l1 <> [] -> exists rest, dedup prec (l1 ++ l2) = dedup prec l1 ++ rest.
Proof.
  destruct l1 as [|r0 tl]; [congruence|]. intros _. simpl.
  rewrite fold_left_app. apply dedup_fold_prefix.
Qed.

(** X18: when both searches return, the solutions of the exhaustive search
    start with the solutions of the search that stops at the first
    successful starting edge, in the same order. *)
Theorem exhaustive_extends_first_success :
  forall D prec sols sols',
    triangulate D prec false = Return sols ->
    triangulate D prec true = Return sols' ->
    exists rest, sols' = sols ++ rest.
Proof.
  intros D prec sols sols' H H'.
  apply triangulate_Return in H as [r [Hs Hr]].
  apply triangulate_Return in H' as [r' [Hs' Hr']].
  rewrite search_solve_spec in Hs, Hs'. unfold solve_spec in Hs, Hs'.
  destruct (first_prefix_of_all _ _ _ _ _ Hs Hs') as [rest ->].
  destruct Hr as [[-> ->]|[Hne [rot [Hrot ->]]]].
  { exists sols'. reflexivity. }
  destruct Hr' as [[Hnil _]|[_ [rot' [Hrot' ->]]]].
  { apply app_eq_nil in Hnil as [-> _]. congruence. }
  unfold rotate in Hrot'.
  apply mapM_app_inv in Hrot' as [m1 [m2 [H1 [H2 ->]]]].
  unfold rotate in Hrot. rewrite Hrot in H1. inversion H1; subst.
  apply dedup_app. intros ->. destruct r as [|s r]; [congruence|].
  simpl in Hrot. destruct (rotate1 s); cbn [bind] in Hrot;
    [destruct (mapM rotate1 r); cbn [bind] in Hrot|]; discriminate.
Qed.

Lemma exhaustive_extends_first_success_witness :
  (triangulate D_3_4_5 1 false = Return [fin s345_up; fin s345_down]
   /\ triangulate D_3_4_5 1 true = Return [fin s345_up; fin s345_down])
  /\ exists rest,
       [fin s345_up; fin s345_down]
       = [fin s345_up; fin s345_down] ++ rest.
Proof.
  assert (H : triangulate D_3_4_5 1 false
              = Return [fin s345_up; fin s345_down])
    by (apply triangulate_3_4_5; lra).
  assert (H' : triangulate D_3_4_5 1 true
               = Return [fin s345_up; fin s345_down])
    by (apply triangulate_3_4_5_all; lra).
  split; [split; assumption|].
  exact (exhaustive_extends_first_success D_3_4_5 1
           [fin s345_up; fin s345_down] [fin s345_up; fin s345_down] H H').
Defined.

Lemma search_few D prec all_pos :
  (pntscount D < 2)%nat -> search D prec all_pos = Ok [].
Proof.
  intros H. unfold search.
  replace (pntscount D - 1)%nat with O by lia. reflexivity.
Qed.

Lemma distvalid_pair d err : distvalid (D_pair d) err = true.
Proof.
  unfold distvalid, D_pair, entry. simpl. rdecide. reflexivity.
Qed.

Lemma search_pair d prec all_pos :
  ~ d < -0.5 ->
  search (D_pair d) prec all_pos = Ok [[Some (0, 0); Some (d, 0)]].
Proof.
  intros Hd. unfold search. simpl seq. simpl outer_loop.
  unfold triangulatesgl, D_pair, entry. simpl.
  rewrite Rltb_false by lra. simpl. destruct all_pos; reflexivity.
Qed.

(** Two points at a distance that is not unknown: the search places them
    at (0, 0) and (d, 0), and [rotate] moves the second to (|d|, 0), or
    divides by zero when [d] is 0. *)
Lemma triangulate_pair d prec all_pos :
  ~ d < -0.5 ->
  triangulate (D_pair d) prec all_pos
  = Return [if Reqb d 0 then [Some (Vec NaN); Some (Vec NaN)]
            else [Some (pt (0, 0)); Some (pt (Rabs d, 0))]].
Proof.
  intros Hd. unfold triangulate. rewrite distvalid_pair.
  simpl negb. cbv iota. rewrite (search_pair d prec all_pos Hd).
  unfold rotate. cbn [mapM].
  assert (Hdist : dist (0, 0) (d, 0) = Rabs d).
  { rewrite (dist_on_axis 0 d). replace (0 - d) with (- d) by ring.
    apply Rabs_Ropp. }
  destruct (Req_dec_T d 0) as [Hz|Hnz].
  - subst d. rewrite (Reqb_true 0 0) by reflexivity.
    rewrite (rotate1_nan [Some (0, 0); Some (0, 0)] (0, 0));
      [reflexivity | reflexivity | reflexivity | repeat constructor].
  - rewrite (Reqb_false d 0) by assumption.
    assert (Hne : Rabs d <> 0) by (apply Rabs_no_R0; assumption).
    rewrite (rotate1_toframe [Some (0, 0); Some (d, 0)] (0, 0) (d, 0));
      [|reflexivity | reflexivity | rewrite Hdist; assumption
       |repeat constructor].
    cbn [bind dedup fold_left fin map option_map].
    do 4 f_equal.
    + unfold pt. do 2 f_equal. unfold toframe. rewrite Hdist. simpl.
      f_equal; field; assumption.
    + do 2 f_equal. unfold pt. do 2 f_equal.
      unfold toframe. rewrite Hdist. simpl.
      f_equal; [|field; assumption].
      unfold Rabs. destruct (Rcase_abs d); field; lra.
Qed.

(** C1, as stated, fails in three ways.  Two points at distance 0: the
    matrix passes the validator and the one solution returned holds nan in
    both slots, whose distance is nan and differs from 0 by less than no
    tolerance.  Two points at distance 7 with the tolerance 0: the solution
    is exact, and [0 < 0] fails.  Two points with the entry -0.3, which the
    test [> -0.5] of the source counts as known: the points lie 0.3 apart
    and 0.6 away from the entry, with the tolerance 0.5. *)
Lemma triangulate_distances_not_respected :
  (triangulate D_zero 1 false = Return [[Some (Vec NaN); Some (Vec NaN)]]
   /\ known D_zero 0 1
   /\ rdist (Vec NaN) (Vec NaN) = None)
  /\ (triangulate (D_pair 7) 0 false
      = Return [[Some (pt (0, 0)); Some (pt (7, 0))]]
      /\ known (D_pair 7) 0 1
      /\ ~ Rabs (dist (0, 0) (7, 0) - entry (D_pair 7) 0 1) < 0)
  /\ (triangulate (D_pair (-0.3)) 0.5 false
      = Return [[Some (pt (0, 0)); Some (pt (0.3, 0))]]
      /\ known (D_pair (-0.3)) 0 1
      /\ ~ Rabs (dist (0, 0) (0.3, 0) - entry (D_pair (-0.3)) 0 1) < 0.5)
  /\ ~ (forall D prec all_pos sols,
          triangulate D prec all_pos = Return sols ->
          forall s, In s sols ->
            forall i j a b,
              get s i = Some a -> get s j = Some b -> known D i j ->
              exists l, rdist a b = Some l /\ Rabs (l - entry D i j) < prec).
Proof.
  assert (H0 : triangulate D_zero 1 false
               = Return [[Some (Vec NaN); Some (Vec NaN)]]).
  { change D_zero with (D_pair 0). rewrite triangulate_pair by lra.
    rewrite Reqb_true by reflexivity. reflexivity. }
  assert (K0 : known D_zero 0 1) by (unfold known, entry; simpl; lra).
  split; [split; [exact H0 | split; [exact K0 | reflexivity]]|].
  split; [|split].
  - split; [|split].
    + rewrite triangulate_pair by lra. rewrite Reqb_false by lra.
      rewrite Rabs_pos_eq by lra. reflexivity.
    + unfold known, entry; simpl; lra.
    + intros Hlt.
      pose proof (Rabs_pos (dist (0, 0) (7, 0) - entry (D_pair 7) 0 1)).
      lra.
  - split; [|split].
    + rewrite triangulate_pair by lra. rewrite Reqb_false by lra.
      rewrite Rabs_left by lra.
      replace (- -0.3) with 0.3 by lra. reflexivity.
    + unfold known, entry; simpl; lra.
    + rewrite (dist_on_axis 0 0.3). unfold entry, D_pair. cbn [nth].
      unfold Rabs. destruct (Rcase_abs (0 - 0.3)); [|lra].
      destruct (Rcase_abs _); lra.
  - intros H.
    destruct (H D_zero 1 false _ H0 _ (or_introl eq_refl)
                0%nat 1%nat (Vec NaN) (Vec NaN) eq_refl eq_refl K0)
      as [l [Hl _]].
    discriminate Hl.
Qed.

(** X19: with fewer than two points [triangulate] returns no solution; two
    points at a known distance [d > 0] give the single solution
    [(0, 0), (d, 0)] whatever the tolerance, two points at an unknown
    distance none.  Two points at distance 0 give a single solution that
    holds nan in both slots, and a negative entry above -0.5 counts as
    known and gives the points (0, 0) and (-d, 0). *)
Theorem triangulate_few_points :
  forall prec all_pos,
    (forall D, (pntscount D < 2)%nat ->
               triangulate D prec all_pos = ValueError
               \/ triangulate D prec all_pos = Return [])
    /\ (forall d, 0 < d ->
                  triangulate (D_pair d) prec all_pos
                  = Return [[Some (pt (0, 0)); Some (pt (d, 0))]])
    /\ (forall d, d < -0.5 ->
                  triangulate (D_pair d) prec all_pos = Return [])
    /\ triangulate (D_pair 0) prec all_pos
       = Return [[Some (Vec NaN); Some (Vec NaN)]]
    /\ (forall d, -0.5 <= d < 0 ->
                  triangulate (D_pair d) prec all_pos
                  = Return [[Some (pt (0, 0)); Some (pt (- d, 0))]]).
Proof.
  intros prec all_pos. split; [|split; [|split; [|split]]].
  - intros D H. unfold triangulate.
    destruct (distvalid D (prec / 3)); [right | left; reflexivity].
    simpl negb. cbv iota. rewrite search_few by assumption. reflexivity.
  - intros d Hd. rewrite triangulate_pair by lra.
    rewrite Reqb_false by lra. rewrite Rabs_pos_eq by lra. reflexivity.
  - intros d Hd. unfold triangulate. rewrite distvalid_pair.
    simpl negb. cbv iota.
    assert (Hs : search (D_pair d) prec all_pos = Ok []).
    { unfold search. simpl seq. simpl outer_loop.
      unfold triangulatesgl, D_pair, entry. simpl.
      rewrite Rltb_true by lra. simpl. destruct all_pos; reflexivity. }
    rewrite Hs. reflexivity.
  - rewrite triangulate_pair by lra.
    rewrite Reqb_true by reflexivity. reflexivity.
  - intros d Hd. rewrite triangulate_pair by lra.
    rewrite Reqb_false by lra. rewrite Rabs_left by lra. reflexivity.
Qed.

Lemma triangulate_few_points_witness :
  0 < 7
  /\ triangulate (D_pair 7) 1 false
     = Return [[Some (pt (0, 0)); Some (pt (7, 0))]].
Proof.
  assert (H : 0 < 7) by lra.
  split; [exact H|].
  exact (proj1 (proj2 (triangulate_few_points 1 false)) 7 H).
Defined.

Lemma distvalid_triangle a b c err :
  c <= a + b -> b <= a + c -> a <= b + c ->
  distvalid (D_triangle a b c) err = true.
Proof.
  intros H1 H2 H3. pose proof (Rabs_pos err) as He.
  apply distvalid_intro.
  - intros [|[|[|i]]] [|[|[|j]]] Hi Hj; simpl in Hi, Hj; try lia;
      reflexivity.
  - intros [|[|[|i]]] Hi; simpl in Hi; try lia; reflexivity.
  - intros i j k Hijk Hk _ _ _. simpl in Hk.
    assert (i = 0 /\ j = 1 /\ k = 2)%nat as [-> [-> ->]] by lia.
    unfold violated, D_triangle, entry. simpl. lra.
Qed.

Section Triangle.

Variables (a b c prec : R).

Hypothesis Hc : c < a + b.

Hypothesis Hb : b < a + c.

Hypothesis Ha : a < b + c.

Hypothesis Hprec : 0 < prec.

Lemma triangle_apex_up :
  0 < apex_y a b c
  /\ apex_x a b c * apex_x a b c + apex_y a b c * apex_y a b c = b * b
  /\ (apex_x a b c - a) * (apex_x a b c - a)
     + apex_y a b c * apex_y a b c = c * c.
Proof.
  assert (Hh : 0 < heron b c a) by (apply heron_pos; lra).
  split.
  - unfold apex_y. rewrite yvalue_nonflat by lra. simpl.
    apply Rdiv_lt_0_compat; [apply sqrt_lt_R0; assumption | lra].
  - apply (triangle_apex b c a (apex_x a b c) (apex_y a b c));
      [lra | lra | lra | reflexivity | left; reflexivity].
Qed.

Lemma triangle_candidates :
  candidates (triangle_start a) 2 0 1 (D_triangle a b c)
  = Ok (Fin (apex_x a b c, apex_y a b c),
        Fin (apex_x a b c, - apex_y a b c),
        (apex_y a b c, - apex_y a b c)).
Proof.
  assert (Hd : dist (0, 0) (a, 0) = a)
    by (apply dist_val; simpl; lra || ring).
  rewrite (candidates_frame (triangle_start a) 2 0 1 _ (0, 0) (a, 0))
    by (try reflexivity; rewrite Hd; lra).
  rewrite Hd. unfold D_triangle, entry. simpl nth. cbv zeta.
  rewrite !frame_xaxis by lra.
  unfold apex_x, apex_y. rewrite yvalue_nonflat by lra. reflexivity.
Qed.

Lemma triangle_valid p1 p2 ys :
  candidates (triangle_start a) 2 0 1 (D_triangle a b c)
  = Ok (Fin p1, Fin p2, ys) ->
  valid (triangle_start a) 2 (D_triangle a b c) prec (Fin p1) = true
  /\ valid (triangle_start a) 2 (D_triangle a b c) prec (Fin p2) = true.
Proof.
  intros H.
  assert (Hd : dist (0, 0) (a, 0) = a)
    by (apply dist_val; simpl; lra || ring).
  destruct (candidates_exact (triangle_start a) 2 0 1 (D_triangle a b c)
              (0, 0) (a, 0) (Fin p1) (Fin p2) ys eq_refl eq_refl)
    as [r1 [r2 [R1 [R2 [[E1 E2] [E3 E4]]]]]];
    try assumption;
    try (rewrite Hd; unfold D_triangle, entry; simpl; lra).
  inversion R1; inversion R2; subst r1 r2.
  unfold D_triangle, entry in E1, E2, E3, E4. simpl in E1, E2, E3, E4.
  split; unfold valid, near, flt, fdist, triangle_start, get, D_triangle,
    entry, Rgtb; simpl;
    rewrite ?E1, ?E2, ?E3, ?E4;
    replace (b - b) with 0 by ring; replace (c - c) with 0 by ring;
    rewrite Rabs_R0; rdecide; reflexivity.
Qed.

Lemma triangle_pntcoord :
  exists more,
    pntcoord (triangle_start a) 2 0 1 (D_triangle a b c) prec
    = Ok ((apex_x a b c, apex_y a b c) :: more, Placed)
    /\ Forall (fun p => p = (apex_x a b c, - apex_y a b c)) more.
Proof.
  assert (Hd : dist (0, 0) (a, 0) = a)
    by (apply dist_val; simpl; lra || ring).
  unfold pntcoord, dist_slot. unfold get at 1 2. simpl nth. simpl arr.
  rewrite Hd. unfold D_triangle at 1 2 3, entry. simpl nth.
  rewrite !Rltb_false by lra. simpl orb. cbv iota.
  rewrite (place_cases _ _ _ _ _ _ _ _ _ _ triangle_candidates).
  destruct (triangle_valid _ _ _ triangle_candidates) as [-> ->].
  cbv zeta.
  destruct (Rltb (Rabs (apex_y a b c - - apex_y a b c)) (prec / 4));
    eexists; split; try reflexivity; repeat constructor.
Qed.

Lemma triangle_triangulatesgl :
  exists more,
    triangulatesgl (D_triangle a b c) 0 1 prec
    = Ok ([Some (0, 0); Some (a, 0); Some (apex_x a b c, apex_y a b c)]
            :: more)
    /\ Forall
         (fun s =>
            s = [Some (0, 0); Some (a, 0);
                 Some (apex_x a b c, - apex_y a b c)])
         more.
Proof.
  destruct triangle_pntcoord as [more [Hp Hm]].
  exists (map (fun pnt => set (triangle_start a) 2 (Some pnt)) more). split.
  - unfold triangulatesgl.
    replace (Rltb (entry (D_triangle a b c) 0 1) (-0.5)) with false
      by (unfold entry; simpl; rewrite Rltb_false by lra; reflexivity).
    change (start (D_triangle a b c) 0 1) with (triangle_start a).
    change (pntscount (D_triangle a b c) - 2)%nat with 1%nat.
    cbn [passes members_loop].
    unfold addpoints, indices. simpl.
    unfold addpoint, indices, anchor_pairs. simpl.
    fold (triangle_start a). rewrite Hp. reflexivity.
  - apply Forall_map. eapply Forall_impl; [|exact Hm].
    intros p ->. reflexivity.
Qed.

End Triangle.

(** X20: for three points at known distances that satisfy the strict triangle
    inequalities and every positive tolerance, the search that stops at the
    first successful edge returns a solution: the first one has point 0 at
    the origin, point 1 at (d01, 0) and point 2 above the x-axis, at the
    exact distances d02 and d12 of the two; any further solution is its
    mirror image. *)
Theorem triangulate_solves_triangles :
  forall a b c prec,
    c < a + b -> b < a + c -> a < b + c -> 0 < prec ->
    exists x y rest,
      0 < y
      /\ x * x + y * y = b * b
      /\ (x - a) * (x - a) + y * y = c * c
      /\ triangulate (D_triangle a b c) prec false
         = Return (fin [Some (0, 0); Some (a, 0); Some (x, y)] :: rest)
      /\ Forall
           (fun s => s = fin [Some (0, 0); Some (a, 0); Some (x, - y)])
           rest.
Proof.
  intros a b c prec Hc Hb Ha Hp.
  destruct (triangle_apex_up a b c Hc Hb Ha) as [Hy [E1 E2]].
  destruct (triangle_triangulatesgl a b c prec Hc Hb Ha Hp)
    as [more [Ht Hm]].
  set (x := apex_x a b c) in *. set (y := apex_y a b c) in *.
  set (up := [Some (0, 0); Some (a, 0); Some (x, y)]) in *.
  set (down := [Some (0, 0); Some (a, 0); Some (x, - y)]) in *.
  assert (Hsearch : search (D_triangle a b c) prec false = Ok (up :: more)).
  { unfold search. simpl seq. simpl outer_loop. rewrite Ht. reflexivity. }
  assert (Hcan : forall s, In s (up :: more) -> rotate1 s = Ok (fin s)).
  { intros s [<-|Hs].
    - apply (rotate1_canonical _ a);
        [reflexivity | reflexivity | lra | repeat constructor].
    - rewrite Forall_forall in Hm. rewrite (Hm s Hs).
      apply (rotate1_canonical _ a);
        [reflexivity | reflexivity | lra | repeat constructor]. }
  exists x, y.
  destruct (dedup_fold_prefix prec (map fin more) [fin up])
    as [rest Hrest].
  exists rest.
  assert (Hrot : rotate (up :: more) = Ok (map fin (up :: more))).
  { unfold rotate. clear - Hcan.
    induction (up :: more) as [|s l IH]; [reflexivity|].
    cbn [mapM map]. rewrite (Hcan s (or_introl eq_refl)). cbn [bind].
    rewrite IH by (intros s' Hs'; apply Hcan; right; assumption).
    reflexivity. }
  repeat split; try assumption.
  - unfold triangulate. rewrite distvalid_triangle by lra.
    simpl negb. cbv iota. rewrite Hsearch. cbv iota.
    rewrite Hrot. f_equal. exact Hrest.
  - pose proof (dedup_subseq prec (map fin (up :: more))) as Hsub.
    assert (Hd : dedup prec (map fin (up :: more)) = fin up :: rest)
      by exact Hrest.
    rewrite Hd in Hsub.
    apply Forall_forall. intros s Hs.
    rewrite Forall_forall in Hm.
    assert (Hmore : forall r, In r (map fin more) -> r = fin down).
    { intros r Hr. apply in_map_iff in Hr as [r0 [<- Hr0]].
      rewrite (Hm r0 Hr0). reflexivity. }
    cbn [map] in Hsub.
    inversion Hsub as [| z l1 l2 Hsk | z l1 l2 Htk]; subst.
    + exfalso.
      assert (Hin : In (fin up) (map fin more))
        by (eapply subseq_In; [exact Hsk | left; reflexivity]).
      apply Hmore in Hin. unfold up, down, fin, pt in Hin.
      simpl in Hin. inversion Hin. lra.
    + apply Hmore. eapply subseq_In; eassumption.
Qed.

Lemma triangulate_solves_triangles_witness :
  (4 < 3 + 5 /\ 5 < 3 + 4 /\ 3 < 5 + 4 /\ 0 < 0.000001)
  /\ exists x y rest,
       0 < y
       /\ x * x + y * y = 5 * 5
       /\ (x - 3) * (x - 3) + y * y = 4 * 4
       /\ triangulate (D_triangle 3 5 4) 0.000001 false
          = Return (fin [Some (0, 0); Some (3, 0); Some (x, y)] :: rest)
       /\ Forall
            (fun s => s = fin [Some (0, 0); Some (3, 0); Some (x, - y)])
            rest.
Proof.
  assert (H1 : 4 < 3 + 5) by lra.
  assert (H2 : 5 < 3 + 4) by lra.
  assert (H3 : 3 < 5 + 4) by lra.
  assert (H4 : 0 < 0.000001) by lra.
  split; [repeat split; assumption|].
  exact (triangulate_solves_triangles 3 5 4 0.000001 H1 H2 H3 H4).
Defined.

(** ** The arithmetic of [plotres] *)

Lemma ceil_spec x : x <= IZR (ceil x) < x + 1.
Proof.
  unfold ceil. destruct (archimed (- x)) as [H1 H2].
  rewrite minus_IZR. lra.
Qed.

Lemma ceil_least x n : x <= IZR n -> (ceil x <= n)%Z.
Proof.
  intros H. destruct (ceil_spec x) as [_ H2].
  assert (IZR (ceil x) < IZR n + 1) by lra.
  rewrite <- plus_IZR in H0. apply lt_IZR in H0. lia.
Qed.

Lemma ceil_pos x : 0 < x -> (1 <= ceil x)%Z.
Proof.
  intros H. destruct (ceil_spec x) as [H1 _].
  assert (0 < IZR (ceil x)) by lra. apply lt_IZR in H0. lia.
Qed.

(** X21: the grid of [plotres]: without any plot the division [Tot/Cols]
    fails; otherwise the grid has room for all the plots, is at least as
    wide as tall, and [Cols] is the least integer whose square reaches
    [Tot]. *)
Theorem plot_grid_holds_all_plots :
  forall Tot,
    (plot_grid Tot = None <-> Tot = O)
    /\ (forall Cols Rows,
          plot_grid Tot = Some (Cols, Rows) ->
          (1 <= Rows <= Cols)%Z
          /\ (Z.of_nat Tot <= Rows * Cols)%Z
          /\ ((Cols - 1) * (Cols - 1) < Z.of_nat Tot <= Cols * Cols)%Z).
Proof.
  intros Tot. unfold plot_grid.
  set (C := ceil (sqrt (INR Tot))).
  destruct (ceil_spec (sqrt (INR Tot))) as [Hc1 Hc2]. fold C in Hc1, Hc2.
  pose proof (sqrt_pos (INR Tot)) as Hs0.
  destruct Tot as [|Tot'].
  { simpl INR in *. rewrite sqrt_0 in *.
    assert (HC : C = 0%Z).
    { assert (H1 : IZR C < IZR 1) by lra. apply lt_IZR in H1.
      assert (H0 : IZR (-1) < IZR C) by lra. apply lt_IZR in H0. lia. }
    rewrite HC. simpl. split; [tauto | discriminate]. }
  set (Tot := S Tot') in *.
  assert (Ht : 1 <= INR Tot) by (apply (le_INR 1); unfold Tot; lia).
  assert (Hss : sqrt (INR Tot) * sqrt (INR Tot) = INR Tot)
    by (apply sqrt_sqrt; lra).
  assert (Hs1 : 0 < sqrt (INR Tot)) by nra.
  assert (HC : (1 <= C)%Z) by (apply ceil_pos; assumption).
  assert (HCr : 1 <= IZR C) by (apply IZR_le; assumption).
  replace (Z.eqb C 0) with false by (symmetry; apply Z.eqb_neq; lia).
  split; [split; [discriminate | unfold Tot; discriminate]|].
  intros Cols Rows H.
  assert (HCR : Cols = C /\ Rows = ceil (INR Tot / IZR C))
    by (inversion H; split; reflexivity).
  destruct HCR as [-> ->]. clear H.
  assert (Hle : INR Tot <= IZR C * IZR C) by nra.
  assert (Hgt : (IZR C - 1) * (IZR C - 1) < INR Tot) by nra.
  destruct (ceil_spec (INR Tot / IZR C)) as [Hr1 Hr2].
  set (Rw := ceil (INR Tot / IZR C)) in *.
  assert (Hq : 0 < INR Tot / IZR C) by (apply Rdiv_lt_0_compat; lra).
  assert (HR : (1 <= Rw)%Z) by (apply ceil_pos; assumption).
  assert (HRC : (Rw <= C)%Z).
  { apply ceil_least. apply (Rmult_le_reg_r (IZR C)); [lra|].
    unfold Rdiv. rewrite Rmult_assoc, Rinv_l by lra. lra. }
  assert (Hroom : INR Tot <= IZR Rw * IZR C).
  { apply (Rmult_le_compat_r (IZR C)) in Hr1; [|lra].
    unfold Rdiv in Hr1. rewrite Rmult_assoc, Rinv_l in Hr1 by lra. lra. }
  rewrite INR_IZR_INZ in Hroom, Hle, Hgt.
  split; [lia|]. split.
  - apply le_IZR. rewrite mult_IZR. assumption.
  - split.
    + apply lt_IZR. rewrite mult_IZR, minus_IZR. assumption.
    + apply le_IZR. rewrite mult_IZR. assumption.
Qed.

Lemma plot_grid_holds_all_plots_witness :
  O = O /\ plot_grid 0 = None.
Proof.
  assert (H : O = O) by reflexivity.
  split; [exact H|].
  exact (proj2 (proj1 (plot_grid_holds_all_plots 0)) H).
Defined.

Lemma pymax_real x m : pymax (Some x) (Some m) = Some (Rmax x m).
Proof.
  unfold pymax, Rltb. destruct (Rlt_dec x m).
  - rewrite Rmax_right by lra. reflexivity.
  - rewrite Rmax_left by lra. reflexivity.
Qed.

Lemma pymin_real x m : pymin (Some x) (Some m) = Some (Rmin x m).
Proof.
  unfold pymin, Rltb. destruct (Rlt_dec m x).
  - rewrite Rmin_right by lra. reflexivity.
  - rewrite Rmin_left by lra. reflexivity.
Qed.

Lemma widen_spec acc j b :
  widen (real_borders acc) j = Ok b ->
  (forall a, j = Some a -> floats a <> NaN) ->
  exists x y acc',
    j = Some (pt (x, y)) /\ b = real_borders acc'
    /\ wider acc acc' /\ within acc' (x, y).
Proof.
  destruct acc as [[[xmax xmin] ymax] ymin].
  destruct j as [[[[x y]|]|v]|];
    cbn [widen real_borders coord0 coord1 fst snd]; try discriminate.
  - intros H _. rewrite !pymax_real, !pymin_real in H.
    inversion H; subst; clear H.
    exists x, y, (Rmax x xmax, Rmin x xmin, Rmax y ymax, Rmin y ymin).
    pose proof (Rmax_l x xmax). pose proof (Rmax_r x xmax).
    pose proof (Rmax_l y ymax). pose proof (Rmax_r y ymax).
    pose proof (Rmin_l x xmin). pose proof (Rmin_r x xmin).
    pose proof (Rmin_l y ymin). pose proof (Rmin_r y ymin).
    simpl. repeat split; assumption.
  - intros _ H. exfalso. apply (H (Vec NaN)); reflexivity.
Qed.

Lemma wider_refl acc : wider acc acc.
Proof. destruct acc as [[[a b] c] d]. simpl. lra. Qed.

Lemma wider_trans a b c : wider a b -> wider b c -> wider a c.
Proof.
  destruct a as [[[a1 a2] a3] a4], b as [[[b1 b2] b3] b4],
           c as [[[c1 c2] c3] c4]. simpl. lra.
Qed.

Lemma wider_within a b p : wider a b -> within a p -> within b p.
Proof.
  destruct a as [[[a1 a2] a3] a4], b as [[[b1 b2] b3] b4]. simpl. lra.
Qed.

Lemma nan_free_cons j s :
  nan_free (j :: s) ->
  (forall a, j = Some a -> floats a <> NaN) /\ nan_free s.
Proof.
  intros H. split.
  - intros a ->. apply (H O). reflexivity.
  - intros k a Hk. apply (H (S k)). exact Hk.
Qed.

Lemma widen_solution s acc b :
  nan_free s ->
  foldM widen s (real_borders acc) = Ok b ->
  exists acc',
    b = real_borders acc' /\ wider acc acc'
    /\ forall k p, get s k = Some (pt p) -> within acc' p.
Proof.
  revert acc. induction s as [|j s IH]; intros acc Hs; simpl.
  - intros H; inversion H; subst. exists acc.
    split; [reflexivity|]. split; [apply wider_refl|].
    intros [|k] p Hk; discriminate.
  - destruct (nan_free_cons _ _ Hs) as [Hj Hs'].
    destruct (widen (real_borders acc) j) as [b1|e] eqn:E; cbn [bind];
      [|discriminate].
    destruct (widen_spec _ _ _ E Hj) as [x [y [acc1 [-> [-> [Hw1 Hin1]]]]]].
    intros H. destruct (IH acc1 Hs' H) as [acc' [-> [Hw Hin]]].
    exists acc'. split; [reflexivity|].
    split; [eapply wider_trans; eassumption|].
    intros [|k] p Hk.
    + unfold get in Hk. simpl in Hk. inversion Hk; subst.
      eapply wider_within; eassumption.
    + apply (Hin k). exact Hk.
Qed.

Lemma widen_solutions res acc b :
  Forall nan_free res ->
  foldM (fun acc i => foldM widen i acc) res (real_borders acc) = Ok b ->
  exists acc',
    b = real_borders acc' /\ wider acc acc'
    /\ forall s k p, In s res -> get s k = Some (pt p) -> within acc' p.
Proof.
  intros Hres. revert acc.
  induction Hres as [|s res Hs _ IH]; intros acc; simpl.
  - intros H; inversion H; subst. exists acc.
    split; [reflexivity|]. split; [apply wider_refl|].
    intros s k p [].
  - destruct (foldM widen s (real_borders acc)) as [b1|e] eqn:E;
      cbn [bind]; [|discriminate].
    destruct (widen_solution _ _ _ Hs E) as [acc1 [-> [Hw1 Hin1]]].
    intros H. destruct (IH acc1 H) as [acc' [-> [Hw Hin]]].
    exists acc'. split; [reflexivity|].
    split; [eapply wider_trans; eassumption|].
    intros s' k p [<-|Hs'] Hk.
    + eapply wider_within; [exact Hw|]. eapply Hin1. exact Hk.
    + eapply Hin; eassumption.
Qed.

(** The loop returns on slots that hold arrays of two floats, with or
    without nan. *)
Lemma widen_vectors s acc :
  Forall (fun e : rslot => exists v, e = Some (Vec v)) s ->
  exists acc', foldM widen s acc = Ok acc'.
Proof.
  intros H. revert acc. induction H as [|j s Hj _ IH]; intros acc; simpl.
  - eexists. reflexivity.
  - destruct Hj as [v ->].
    destruct acc as [[[xmax xmin] ymax] ymin]. simpl. apply IH.
Qed.

Lemma triangulate_vectors D prec all_pos sols s :
  triangulate D prec all_pos = Return sols -> In s sols ->
  Forall (fun e : rslot => exists v, e = Some (Vec v)) s.
Proof.
  intros H Hs.
  destruct (triangulate_rotated _ _ _ _ _ H Hs)
    as [s0 [pa [pb [_ [_ [HF [_ [_ [[_ [A [sv [_ ->]]]]|[_ ->]]]]]]]]]].
  - unfold fin. rewrite map_map. apply Forall_map.
    eapply Forall_impl; [|exact HF].
    intros [p|] Hp; [|discriminate]. simpl. eexists. reflexivity.
  - apply Forall_map. apply Forall_forall. intros e _.
    eexists. reflexivity.
Qed.

(** X22: when no slot holds nan, the common borders that [plotres]
    computes are finite and contain the origin and every point of every
    solution; the loop fails only on a slot that holds no array of two
    floats, so it never fails on what [triangulate] returns. *)
Theorem plot_borders_contain_all_points :
  forall res,
    (forall b,
        Forall nan_free res ->
        plot_borders res = Ok b ->
        exists xmax xmin ymax ymin,
          b = (Some xmax, Some xmin, Some ymax, Some ymin)
          /\ xmin <= 0 <= xmax /\ ymin <= 0 <= ymax
          /\ forall s k p, In s res -> get s k = Some (pt p) ->
                xmin <= fst p <= xmax /\ ymin <= snd p <= ymax)
    /\ (forall D prec all_pos,
          triangulate D prec all_pos = Return res ->
          exists b, plot_borders res = Ok b).
Proof.
  intros res. split.
  - intros b Hres H. unfold plot_borders in H.
    destruct (widen_solutions res (0, 0, 0, 0) b Hres H)
      as [[[[xmax xmin] ymax] ymin] [-> [Hw Hin]]].
    simpl in Hw. exists xmax, xmin, ymax, ymin.
    split; [reflexivity|]. split; [lra|]. split; [lra|].
    intros s k p Hs Hk. exact (Hin s k p Hs Hk).
  - intros D prec all_pos H. unfold plot_borders.
    assert (Hall : forall s, In s res ->
                     Forall (fun e : rslot => exists v, e = Some (Vec v)) s)
      by (intros s Hs; exact (triangulate_vectors _ _ _ _ _ H Hs)).
    clear H. generalize (Some 0, Some 0, Some 0, Some 0).
    induction res as [|s res IH]; intros acc; simpl.
    + eexists. reflexivity.
    + destruct (widen_vectors s acc (Hall s (or_introl eq_refl)))
        as [acc1 ->]. cbn [bind].
      apply IH. intros s' Hs'. apply Hall. right. assumption.
Qed.

Lemma plot_borders_contain_all_points_witness :
  triangulate D_3_4_5 1 false = Return [fin s345_up; fin s345_down]
  /\ exists b, plot_borders [fin s345_up; fin s345_down] = Ok b.
Proof.
  assert (H : triangulate D_3_4_5 1 false
              = Return [fin s345_up; fin s345_down])
    by (apply triangulate_3_4_5; lra).
  split; [exact H|].
  exact (proj2 (plot_borders_contain_all_points
                  [fin s345_up; fin s345_down])
           D_3_4_5 1 false H).
Defined.
